(** * GnuTLS algorithm tables and cipher-suite negotiation

    A shallow embedding of the static algorithm tables, the table-scanning
    accessors, the priority functions, the cipher-suite filter, the in-place
    quicksort used to order the surviving suites and the compression-method
    enumeration, followed by the properties proved about them.

    Conventions.
    - C [int], [unsigned int], [size_t] and enumeration values are integers
      of [Z]; array indices and element counts are [nat].  Conversions that
      can change a value ([unsigned int] to [int] on return, [int] to
      [uint8] on store) are written out.
    - A C array with a sentinel entry is the list of its entries; for the
      tables terminated by [name == NULL] the sentinel is the end of the
      list (every real entry has a string-literal name).
    - The enumeration constants come from headers (gnutls.h, gnutls_int.h)
      that declare them; their numeric values are taken as parameters.
    - [_gnutls_supported_compression_methods] requests an array whose size
      depends on the session, so the allocator is one of its parameters;
      the two requests of [_gnutls_supported_ciphersuites] are for the
      fixed size of the suite table and are taken to succeed. *)

From Stdlib Require Import ZArith Lia Bool String.
From stdpp Require Import base list strings sorting.

Local Open Scope Z_scope.

(** ** Constants declared by the headers *)

Class gnutls_h := {
  (* gnutls_kx_algorithm *)
  GNUTLS_KX_RSA : Z;
  GNUTLS_KX_DHE_DSS : Z;
  GNUTLS_KX_DHE_RSA : Z;
  GNUTLS_KX_ANON_DH : Z;
  GNUTLS_KX_SRP : Z;
  GNUTLS_KX_RSA_EXPORT : Z;
  GNUTLS_KX_SRP_RSA : Z;
  GNUTLS_KX_SRP_DSS : Z;
  (* gnutls_credentials_type *)
  GNUTLS_CRD_CERTIFICATE : Z;
  GNUTLS_CRD_ANON : Z;
  GNUTLS_CRD_SRP : Z;
  (* gnutls_cipher_algorithm *)
  GNUTLS_CIPHER_NULL : Z;
  GNUTLS_CIPHER_ARCFOUR_128 : Z;
  GNUTLS_CIPHER_3DES_CBC : Z;
  GNUTLS_CIPHER_AES_128_CBC : Z;
  GNUTLS_CIPHER_AES_256_CBC : Z;
  GNUTLS_CIPHER_TWOFISH_128_CBC : Z;
  GNUTLS_CIPHER_ARCFOUR_40 : Z;
  GNUTLS_CIPHER_RC2_40_CBC : Z;
  GNUTLS_CIPHER_DES_CBC : Z;
  (* CipherType *)
  CIPHER_STREAM : Z;
  CIPHER_BLOCK : Z;
  (* gnutls_mac_algorithm *)
  GNUTLS_MAC_NULL : Z;
  GNUTLS_MAC_MD5 : Z;
  GNUTLS_MAC_SHA : Z;
  (* gnutls_compression_method *)
  GNUTLS_COMP_NULL : Z;
  GNUTLS_COMP_ZLIB : Z;
  (* gnutls_protocol_version *)
  GNUTLS_SSL3 : Z;
  GNUTLS_TLS1 : Z;
  (* build configuration: is the zlib entry compiled in (#ifdef HAVE_LIBZ) *)
  HAVE_LIBZ : bool
}.

(** The error codes the functions below can return (gnutls_errors.h). *)
Inductive gnutls_error :=
| GNUTLS_E_MEMORY_ERROR
| GNUTLS_E_NO_CIPHER_SUITES
| GNUTLS_E_NO_COMPRESSION_ALGORITHMS.

(** A function returning a negative error code, or a count together with
    the array it allocated for the caller. *)
Inductive gnutls_result (A : Type) :=
| Failure (e : gnutls_error)
| Success (out : list A).
Arguments Failure {A} e.
Arguments Success {A} out.

(** ** Integer conversions *)

(** [unsigned int] to [int] (two's complement, 32 bits). *)
Definition int_of_unsigned (u : Z) : Z :=
  if u <? 2 ^ 31 then u else u - 2 ^ 32.

(** [int] to [uint8]. *)
Definition uint8_of_int (x : Z) : Z := x mod 256.

(** ** Sessions *)

(** [GNUTLS_CipherSuite]: the two bytes [CipherSuite[0]], [CipherSuite[1]]. *)
Definition GNUTLS_CipherSuite : Type := Z * Z.

Definition CipherSuite_eqb (a b : GNUTLS_CipherSuite) : bool :=
  (fst a =? fst b) && (snd a =? snd b).

Definition CipherSuite_eq_dec (a b : GNUTLS_CipherSuite) : {a = b} + {a <> b}.
Proof. decide equality; apply Z.eq_dec. Defined.

(** The part of [session->internals] (and of the security parameters) read
    by this file.  A priority list [{priority; algorithms}] is the list of
    its [algorithms] first entries. *)
Record gnutls_session := {
  kx_algorithm_priority : list Z;
  cipher_algorithm_priority : list Z;
  mac_algorithm_priority : list Z;
  compression_method_priority : list Z;
  enable_private : Z;
  protocol_version : Z
}.

(** Modelled from the spec: [gnutls_protocol_get_version] is defined in
    another file; it yields the session's negotiated/target protocol
    version. *)
Definition gnutls_protocol_get_version (session : gnutls_session) : Z :=
  protocol_version session.

(** ** Table scans *)

(** [for (p = table; ...; p++) { if (cond) { a; break; } }] over a result
    variable initialised to [ret]. *)
Fixpoint alg_loop {E R : Type} (cond : E -> bool) (a : E -> R)
    (table : list E) (ret : R) : R :=
  match table with
  | [] => ret
  | p :: rest => if cond p then a p else alg_loop cond a rest ret
  end.

(** [for (p = table; ...; p++) { if (cond) a; }]: no [break], so the last
    matching entry decides. *)
Fixpoint all_loop {E R : Type} (cond : E -> bool) (a : E -> R)
    (table : list E) (ret : R) : R :=
  match table with
  | [] => ret
  | p :: rest => all_loop cond a rest (if cond p then a p else ret)
  end.

(** The body shared by the four [_gnutls_*_priority] functions:
    [for (i = 0; i < algorithms; i++) if (priority[i] == algorithm) return i;
     return -1;] with [i] an [unsigned int] and the result an [int].  The
    counter cannot wrap: [algorithms] is an [unsigned int] itself. *)
Fixpoint priority_loop (priority : list Z) (algorithm : Z) (i : Z) : Z :=
  match priority with
  | [] => -1
  | a :: rest =>
      if a =? algorithm then int_of_unsigned i
      else priority_loop rest algorithm (i + 1)
  end.

Definition _gnutls_mac_priority (session : gnutls_session) (algorithm : Z) : Z :=
  priority_loop (mac_algorithm_priority session) algorithm 0.

Definition _gnutls_compression_priority (session : gnutls_session)
    (algorithm : Z) : Z :=
  priority_loop (compression_method_priority session) algorithm 0.

Definition _gnutls_cipher_priority (session : gnutls_session)
    (algorithm : Z) : Z :=
  priority_loop (cipher_algorithm_priority session) algorithm 0.

Definition _gnutls_kx_priority (session : gnutls_session) (algorithm : Z) : Z :=
  priority_loop (kx_algorithm_priority session) algorithm 0.

Section Tables.
Context `{gnutls_h}.

(** ** Credential-type mappings *)

Record gnutls_cred_map := {
  cred_algorithm : Z;
  client_type : Z;
  server_type : Z
}.

Definition cred_mappings : list gnutls_cred_map := [
  {| cred_algorithm := GNUTLS_KX_ANON_DH; client_type := GNUTLS_CRD_ANON;
     server_type := GNUTLS_CRD_ANON |};
  {| cred_algorithm := GNUTLS_KX_RSA; client_type := GNUTLS_CRD_CERTIFICATE;
     server_type := GNUTLS_CRD_CERTIFICATE |};
  {| cred_algorithm := GNUTLS_KX_RSA_EXPORT; client_type := GNUTLS_CRD_CERTIFICATE;
     server_type := GNUTLS_CRD_CERTIFICATE |};
  {| cred_algorithm := GNUTLS_KX_DHE_DSS; client_type := GNUTLS_CRD_CERTIFICATE;
     server_type := GNUTLS_CRD_CERTIFICATE |};
  {| cred_algorithm := GNUTLS_KX_DHE_RSA; client_type := GNUTLS_CRD_CERTIFICATE;
     server_type := GNUTLS_CRD_CERTIFICATE |};
  {| cred_algorithm := GNUTLS_KX_SRP; client_type := GNUTLS_CRD_SRP;
     server_type := GNUTLS_CRD_SRP |};
  {| cred_algorithm := GNUTLS_KX_SRP_RSA; client_type := GNUTLS_CRD_SRP;
     server_type := GNUTLS_CRD_CERTIFICATE |};
  {| cred_algorithm := GNUTLS_KX_SRP_DSS; client_type := GNUTLS_CRD_SRP;
     server_type := GNUTLS_CRD_CERTIFICATE |};
  {| cred_algorithm := 0; client_type := 0; server_type := 0 |}
].

(** [GNUTLS_KX_MAP_LOOP(b)]: this table is terminated by [algorithm == 0],
    so the sentinel is kept in the list and the scan stops at the first
    entry whose algorithm is zero.  [b] returns the new value of the result
    variable and whether it executed [break]. *)
Fixpoint GNUTLS_KX_MAP_LOOP {R : Type} (b : gnutls_cred_map -> R -> R * bool)
    (p : list gnutls_cred_map) (ret : R) : R :=
  match p with
  | [] => ret
  | e :: rest =>
      if cred_algorithm e =? 0 then ret
      else
        let '(ret', brk) := b e ret in
        if brk then ret' else GNUTLS_KX_MAP_LOOP b rest ret'
  end.

(** [GNUTLS_KX_MAP_ALG_LOOP_SERVER(a)] *)
Definition GNUTLS_KX_MAP_ALG_LOOP_SERVER {R : Type} (type : Z)
    (a : gnutls_cred_map -> R) (ret : R) : R :=
  GNUTLS_KX_MAP_LOOP
    (fun p r => if server_type p =? type then (a p, true) else (r, false))
    cred_mappings ret.

(** [GNUTLS_KX_MAP_ALG_LOOP_CLIENT(a)] *)
Definition GNUTLS_KX_MAP_ALG_LOOP_CLIENT {R : Type} (type : Z)
    (a : gnutls_cred_map -> R) (ret : R) : R :=
  GNUTLS_KX_MAP_LOOP
    (fun p r => if client_type p =? type then (a p, true) else (r, false))
    cred_mappings ret.

Definition _gnutls_map_kx_get_kx (type : Z) (server : Z) : Z :=
  let ret := -1 in
  if negb (server =? 0) then
    GNUTLS_KX_MAP_ALG_LOOP_SERVER type cred_algorithm ret
  else
    GNUTLS_KX_MAP_ALG_LOOP_SERVER type cred_algorithm ret.

Definition _gnutls_map_kx_get_cred (algorithm : Z) (server : Z) : Z :=
  let ret := -1 in
  if negb (server =? 0) then
    GNUTLS_KX_MAP_LOOP
      (fun p r => (if cred_algorithm p =? algorithm then server_type p else r, false))
      cred_mappings ret
  else
    GNUTLS_KX_MAP_LOOP
      (fun p r => (if cred_algorithm p =? algorithm then client_type p else r, false))
      cred_mappings ret.

(** ** Ciphers *)

Record gnutls_cipher_entry := {
  cipher_name : string;
  cipher_id : Z;
  blocksize : Z;
  keysize : Z;
  block : Z;
  iv : Z;
  export_flag : Z
}.

Definition algorithms : list gnutls_cipher_entry := [
  {| cipher_name := "3DES 168 CBC"; cipher_id := GNUTLS_CIPHER_3DES_CBC;
     blocksize := 8; keysize := 24; block := CIPHER_BLOCK; iv := 8; export_flag := 0 |};
  {| cipher_name := "AES 128 CBC"; cipher_id := GNUTLS_CIPHER_AES_128_CBC;
     blocksize := 16; keysize := 16; block := CIPHER_BLOCK; iv := 16; export_flag := 0 |};
  {| cipher_name := "AES 256 CBC"; cipher_id := GNUTLS_CIPHER_AES_256_CBC;
     blocksize := 16; keysize := 32; block := CIPHER_BLOCK; iv := 16; export_flag := 0 |};
  {| cipher_name := "TWOFISH 128 CBC"; cipher_id := GNUTLS_CIPHER_TWOFISH_128_CBC;
     blocksize := 16; keysize := 16; block := CIPHER_BLOCK; iv := 16; export_flag := 0 |};
  {| cipher_name := "ARCFOUR 128"; cipher_id := GNUTLS_CIPHER_ARCFOUR_128;
     blocksize := 1; keysize := 16; block := CIPHER_STREAM; iv := 0; export_flag := 0 |};
  {| cipher_name := "ARCFOUR 40"; cipher_id := GNUTLS_CIPHER_ARCFOUR_40;
     blocksize := 1; keysize := 5; block := CIPHER_STREAM; iv := 0; export_flag := 1 |};
  {| cipher_name := "RC2 40"; cipher_id := GNUTLS_CIPHER_RC2_40_CBC;
     blocksize := 8; keysize := 5; block := CIPHER_BLOCK; iv := 8; export_flag := 1 |};
  {| cipher_name := "DES CBC"; cipher_id := GNUTLS_CIPHER_DES_CBC;
     blocksize := 8; keysize := 8; block := CIPHER_BLOCK; iv := 8; export_flag := 0 |};
  {| cipher_name := "NULL"; cipher_id := GNUTLS_CIPHER_NULL;
     blocksize := 1; keysize := 0; block := CIPHER_STREAM; iv := 0; export_flag := 0 |}
].

(** [GNUTLS_ALG_LOOP(a)] *)
Definition GNUTLS_ALG_LOOP {R : Type} (algorithm : Z)
    (a : gnutls_cipher_entry -> R) (ret : R) : R :=
  alg_loop (fun p => cipher_id p =? algorithm) a algorithms ret.

Definition _gnutls_cipher_get_block_size (algorithm : Z) : Z :=
  GNUTLS_ALG_LOOP algorithm blocksize 0.

Definition _gnutls_cipher_is_block (algorithm : Z) : Z :=
  GNUTLS_ALG_LOOP algorithm block 0.

Definition gnutls_cipher_get_key_size (algorithm : Z) : Z :=
  GNUTLS_ALG_LOOP algorithm keysize 0.

Definition _gnutls_cipher_get_iv_size (algorithm : Z) : Z :=
  GNUTLS_ALG_LOOP algorithm iv 0.

Definition _gnutls_cipher_get_export_flag (algorithm : Z) : Z :=
  GNUTLS_ALG_LOOP algorithm export_flag 0.

Definition gnutls_cipher_get_name (algorithm : Z) : option string :=
  GNUTLS_ALG_LOOP algorithm (fun p => Some (cipher_name p)) None.

(** ** MACs *)

Record gnutls_hash_entry := {
  hash_name : string;
  hash_id : Z;
  digestsize : Z
}.

Definition hash_algorithms : list gnutls_hash_entry := [
  {| hash_name := "SHA"; hash_id := GNUTLS_MAC_SHA; digestsize := 20 |};
  {| hash_name := "MD5"; hash_id := GNUTLS_MAC_MD5; digestsize := 16 |};
  {| hash_name := "NULL"; hash_id := GNUTLS_MAC_NULL; digestsize := 0 |}
].

(** [GNUTLS_HASH_ALG_LOOP(a)] *)
Definition GNUTLS_HASH_ALG_LOOP {R : Type} (algorithm : Z)
    (a : gnutls_hash_entry -> R) (ret : R) : R :=
  alg_loop (fun p => hash_id p =? algorithm) a hash_algorithms ret.

Definition _gnutls_mac_get_digest_size (algorithm : Z) : Z :=
  GNUTLS_HASH_ALG_LOOP algorithm digestsize 0.

Definition gnutls_mac_get_name (algorithm : Z) : option string :=
  GNUTLS_HASH_ALG_LOOP algorithm (fun p => Some (hash_name p)) None.

(** ** Compression methods *)

(** [gnutls_compression_entry] (gnutls_algorithms.h); the field order is
    the one of the initialiser built by [GNUTLS_COMPRESSION_ENTRY]. *)
Record gnutls_compression_entry := {
  comp_name : string;
  comp_id : Z;
  comp_num : Z;
  window_bits : Z;
  mem_level : Z;
  comp_level : Z
}.

Definition _gnutls_compression_algorithms : list gnutls_compression_entry :=
  {| comp_name := "GNUTLS_COMP_NULL"; comp_id := GNUTLS_COMP_NULL; comp_num := 0x00;
     window_bits := 0; mem_level := 0; comp_level := 0 |}
  :: (if HAVE_LIBZ then
        [ {| comp_name := "GNUTLS_COMP_ZLIB"; comp_id := GNUTLS_COMP_ZLIB;
             comp_num := 0x01; window_bits := 15; mem_level := 8; comp_level := 3 |} ]
      else []).

(** [GNUTLS_COMPRESSION_ALG_LOOP(a)] *)
Definition GNUTLS_COMPRESSION_ALG_LOOP {R : Type} (algorithm : Z)
    (a : gnutls_compression_entry -> R) (ret : R) : R :=
  alg_loop (fun p => comp_id p =? algorithm) a _gnutls_compression_algorithms ret.

(** [GNUTLS_COMPRESSION_ALG_LOOP_NUM(a)] *)
Definition GNUTLS_COMPRESSION_ALG_LOOP_NUM {R : Type} (num : Z)
    (a : gnutls_compression_entry -> R) (ret : R) : R :=
  alg_loop (fun p => comp_num p =? num) a _gnutls_compression_algorithms ret.

Definition _gnutls_compression_get_num (algorithm : Z) : Z :=
  GNUTLS_COMPRESSION_ALG_LOOP algorithm comp_num (-1).

Definition _gnutls_compression_get_wbits (algorithm : Z) : Z :=
  GNUTLS_COMPRESSION_ALG_LOOP algorithm window_bits (-1).

Definition _gnutls_compression_get_mem_level (algorithm : Z) : Z :=
  GNUTLS_COMPRESSION_ALG_LOOP algorithm mem_level (-1).

Definition _gnutls_compression_get_comp_level (algorithm : Z) : Z :=
  GNUTLS_COMPRESSION_ALG_LOOP algorithm comp_level (-1).

Definition _gnutls_compression_get_id (num : Z) : Z :=
  GNUTLS_COMPRESSION_ALG_LOOP_NUM num comp_id (-1).

End Tables.

(** ** Cipher suites *)

Definition GNUTLS_RSA_NULL_MD5 : GNUTLS_CipherSuite := (0x00, 0x01).

Definition GNUTLS_ANON_DH_3DES_EDE_CBC_SHA : GNUTLS_CipherSuite := (0x00, 0x1B).
Definition GNUTLS_ANON_DH_ARCFOUR_MD5 : GNUTLS_CipherSuite := (0x00, 0x18).
Definition GNUTLS_ANON_DH_AES_128_CBC_SHA : GNUTLS_CipherSuite := (0x00, 0x34).
Definition GNUTLS_ANON_DH_AES_256_CBC_SHA : GNUTLS_CipherSuite := (0x00, 0x3A).
Definition GNUTLS_ANON_DH_TWOFISH_128_CBC_SHA : GNUTLS_CipherSuite := (0xFF, 0x50).

Definition GNUTLS_SRP_SHA_3DES_EDE_CBC_SHA : GNUTLS_CipherSuite := (0x00, 0x50).
Definition GNUTLS_SRP_SHA_AES_128_CBC_SHA : GNUTLS_CipherSuite := (0x00, 0x53).
Definition GNUTLS_SRP_SHA_AES_256_CBC_SHA : GNUTLS_CipherSuite := (0x00, 0x56).
Definition GNUTLS_SRP_SHA_RSA_3DES_EDE_CBC_SHA : GNUTLS_CipherSuite := (0x00, 0x51).
Definition GNUTLS_SRP_SHA_DSS_3DES_EDE_CBC_SHA : GNUTLS_CipherSuite := (0x00, 0x52).
Definition GNUTLS_SRP_SHA_RSA_AES_128_CBC_SHA : GNUTLS_CipherSuite := (0x00, 0x54).
Definition GNUTLS_SRP_SHA_DSS_AES_128_CBC_SHA : GNUTLS_CipherSuite := (0x00, 0x55).
Definition GNUTLS_SRP_SHA_RSA_AES_256_CBC_SHA : GNUTLS_CipherSuite := (0x00, 0x57).
Definition GNUTLS_SRP_SHA_DSS_AES_256_CBC_SHA : GNUTLS_CipherSuite := (0x00, 0x58).

Definition GNUTLS_RSA_ARCFOUR_SHA : GNUTLS_CipherSuite := (0x00, 0x05).
Definition GNUTLS_RSA_ARCFOUR_MD5 : GNUTLS_CipherSuite := (0x00, 0x04).
Definition GNUTLS_RSA_3DES_EDE_CBC_SHA : GNUTLS_CipherSuite := (0x00, 0x0A).
Definition GNUTLS_RSA_EXPORT_ARCFOUR_40_MD5 : GNUTLS_CipherSuite := (0x00, 0x03).
Definition GNUTLS_RSA_AES_128_CBC_SHA : GNUTLS_CipherSuite := (0x00, 0x2F).
Definition GNUTLS_RSA_AES_256_CBC_SHA : GNUTLS_CipherSuite := (0x00, 0x35).
Definition GNUTLS_RSA_TWOFISH_128_CBC_SHA : GNUTLS_CipherSuite := (0xFF, 0x51).

Definition GNUTLS_DHE_DSS_3DES_EDE_CBC_SHA : GNUTLS_CipherSuite := (0x00, 0x13).
Definition GNUTLS_DHE_DSS_TWOFISH_128_CBC_SHA : GNUTLS_CipherSuite := (0xFF, 0x54).
Definition GNUTLS_DHE_DSS_ARCFOUR_SHA : GNUTLS_CipherSuite := (0x00, 0x66).
Definition GNUTLS_DHE_DSS_AES_256_CBC_SHA : GNUTLS_CipherSuite := (0x00, 0x38).
Definition GNUTLS_DHE_DSS_AES_128_CBC_SHA : GNUTLS_CipherSuite := (0x00, 0x32).

Definition GNUTLS_DHE_RSA_3DES_EDE_CBC_SHA : GNUTLS_CipherSuite := (0x00, 0x16).
Definition GNUTLS_DHE_RSA_TWOFISH_128_CBC_SHA : GNUTLS_CipherSuite := (0xFF, 0x55).
Definition GNUTLS_DHE_RSA_AES_128_CBC_SHA : GNUTLS_CipherSuite := (0x00, 0x33).
Definition GNUTLS_DHE_RSA_AES_256_CBC_SHA : GNUTLS_CipherSuite := (0x00, 0x39).

Record gnutls_cipher_suite_entry := {
  cs_name : string;
  cs_id : GNUTLS_CipherSuite;
  block_algorithm : Z;
  kx_algorithm : Z;
  mac_algorithm : Z;
  cs_version : Z
}.

(** [GNUTLS_CIPHER_SUITE_ENTRY]: the macro stringifies its first argument
    for the name field, so the name is passed beside the identifier. *)
Definition GNUTLS_CIPHER_SUITE_ENTRY (name : string) (id : GNUTLS_CipherSuite)
    (block_algorithm kx_algorithm mac_algorithm version : Z) :=
  {| cs_name := name; cs_id := id; block_algorithm := block_algorithm;
     kx_algorithm := kx_algorithm; mac_algorithm := mac_algorithm;
     cs_version := version |}.

(** [p + n] on a string literal. *)
Fixpoint string_skip (n : nat) (s : string) : string :=
  match n, s with
  | O, _ => s
  | S n', String _ s' => string_skip n' s'
  | S _, EmptyString => EmptyString
  end.

Section Suites.
Context `{gnutls_h}.

Definition cs_algorithms : list gnutls_cipher_suite_entry := [
  (* ANON_DH *)
  GNUTLS_CIPHER_SUITE_ENTRY "GNUTLS_ANON_DH_ARCFOUR_MD5" GNUTLS_ANON_DH_ARCFOUR_MD5
    GNUTLS_CIPHER_ARCFOUR_128 GNUTLS_KX_ANON_DH GNUTLS_MAC_MD5 GNUTLS_SSL3;
  GNUTLS_CIPHER_SUITE_ENTRY "GNUTLS_ANON_DH_3DES_EDE_CBC_SHA" GNUTLS_ANON_DH_3DES_EDE_CBC_SHA
    GNUTLS_CIPHER_3DES_CBC GNUTLS_KX_ANON_DH GNUTLS_MAC_SHA GNUTLS_SSL3;
  GNUTLS_CIPHER_SUITE_ENTRY "GNUTLS_ANON_DH_AES_128_CBC_SHA" GNUTLS_ANON_DH_AES_128_CBC_SHA
    GNUTLS_CIPHER_AES_128_CBC GNUTLS_KX_ANON_DH GNUTLS_MAC_SHA GNUTLS_SSL3;
  GNUTLS_CIPHER_SUITE_ENTRY "GNUTLS_ANON_DH_AES_256_CBC_SHA" GNUTLS_ANON_DH_AES_256_CBC_SHA
    GNUTLS_CIPHER_AES_256_CBC GNUTLS_KX_ANON_DH GNUTLS_MAC_SHA GNUTLS_SSL3;
  GNUTLS_CIPHER_SUITE_ENTRY "GNUTLS_ANON_DH_TWOFISH_128_CBC_SHA" GNUTLS_ANON_DH_TWOFISH_128_CBC_SHA
    GNUTLS_CIPHER_TWOFISH_128_CBC GNUTLS_KX_ANON_DH GNUTLS_MAC_SHA GNUTLS_TLS1;
  (* SRP *)
  GNUTLS_CIPHER_SUITE_ENTRY "GNUTLS_SRP_SHA_3DES_EDE_CBC_SHA" GNUTLS_SRP_SHA_3DES_EDE_CBC_SHA
    GNUTLS_CIPHER_3DES_CBC GNUTLS_KX_SRP GNUTLS_MAC_SHA GNUTLS_TLS1;
  GNUTLS_CIPHER_SUITE_ENTRY "GNUTLS_SRP_SHA_AES_128_CBC_SHA" GNUTLS_SRP_SHA_AES_128_CBC_SHA
    GNUTLS_CIPHER_AES_128_CBC GNUTLS_KX_SRP GNUTLS_MAC_SHA GNUTLS_TLS1;
  GNUTLS_CIPHER_SUITE_ENTRY "GNUTLS_SRP_SHA_AES_256_CBC_SHA" GNUTLS_SRP_SHA_AES_256_CBC_SHA
    GNUTLS_CIPHER_AES_256_CBC GNUTLS_KX_SRP GNUTLS_MAC_SHA GNUTLS_TLS1;
  GNUTLS_CIPHER_SUITE_ENTRY "GNUTLS_SRP_SHA_DSS_3DES_EDE_CBC_SHA" GNUTLS_SRP_SHA_DSS_3DES_EDE_CBC_SHA
    GNUTLS_CIPHER_3DES_CBC GNUTLS_KX_SRP_DSS GNUTLS_MAC_SHA GNUTLS_TLS1;
  GNUTLS_CIPHER_SUITE_ENTRY "GNUTLS_SRP_SHA_RSA_3DES_EDE_CBC_SHA" GNUTLS_SRP_SHA_RSA_3DES_EDE_CBC_SHA
    GNUTLS_CIPHER_3DES_CBC GNUTLS_KX_SRP_RSA GNUTLS_MAC_SHA GNUTLS_TLS1;
  GNUTLS_CIPHER_SUITE_ENTRY "GNUTLS_SRP_SHA_DSS_AES_128_CBC_SHA" GNUTLS_SRP_SHA_DSS_AES_128_CBC_SHA
    GNUTLS_CIPHER_AES_128_CBC GNUTLS_KX_SRP_DSS GNUTLS_MAC_SHA GNUTLS_TLS1;
  GNUTLS_CIPHER_SUITE_ENTRY "GNUTLS_SRP_SHA_RSA_AES_128_CBC_SHA" GNUTLS_SRP_SHA_RSA_AES_128_CBC_SHA
    GNUTLS_CIPHER_AES_128_CBC GNUTLS_KX_SRP_RSA GNUTLS_MAC_SHA GNUTLS_TLS1;
  GNUTLS_CIPHER_SUITE_ENTRY "GNUTLS_SRP_SHA_DSS_AES_256_CBC_SHA" GNUTLS_SRP_SHA_DSS_AES_256_CBC_SHA
    GNUTLS_CIPHER_AES_256_CBC GNUTLS_KX_SRP_DSS GNUTLS_MAC_SHA GNUTLS_TLS1;
  GNUTLS_CIPHER_SUITE_ENTRY "GNUTLS_SRP_SHA_RSA_AES_256_CBC_SHA" GNUTLS_SRP_SHA_RSA_AES_256_CBC_SHA
    GNUTLS_CIPHER_AES_256_CBC GNUTLS_KX_SRP_RSA GNUTLS_MAC_SHA GNUTLS_TLS1;
  (* DHE_DSS *)
  GNUTLS_CIPHER_SUITE_ENTRY "GNUTLS_DHE_DSS_ARCFOUR_SHA" GNUTLS_DHE_DSS_ARCFOUR_SHA
    GNUTLS_CIPHER_ARCFOUR_128 GNUTLS_KX_DHE_DSS GNUTLS_MAC_SHA GNUTLS_TLS1;
  GNUTLS_CIPHER_SUITE_ENTRY "GNUTLS_DHE_DSS_TWOFISH_128_CBC_SHA" GNUTLS_DHE_DSS_TWOFISH_128_CBC_SHA
    GNUTLS_CIPHER_TWOFISH_128_CBC GNUTLS_KX_DHE_DSS GNUTLS_MAC_SHA GNUTLS_TLS1;
  GNUTLS_CIPHER_SUITE_ENTRY "GNUTLS_DHE_DSS_3DES_EDE_CBC_SHA" GNUTLS_DHE_DSS_3DES_EDE_CBC_SHA
    GNUTLS_CIPHER_3DES_CBC GNUTLS_KX_DHE_DSS GNUTLS_MAC_SHA GNUTLS_SSL3;
  GNUTLS_CIPHER_SUITE_ENTRY "GNUTLS_DHE_DSS_AES_128_CBC_SHA" GNUTLS_DHE_DSS_AES_128_CBC_SHA
    GNUTLS_CIPHER_AES_128_CBC GNUTLS_KX_DHE_DSS GNUTLS_MAC_SHA GNUTLS_SSL3;
  GNUTLS_CIPHER_SUITE_ENTRY "GNUTLS_DHE_DSS_AES_256_CBC_SHA" GNUTLS_DHE_DSS_AES_256_CBC_SHA
    GNUTLS_CIPHER_AES_256_CBC GNUTLS_KX_DHE_DSS GNUTLS_MAC_SHA GNUTLS_SSL3;
  (* DHE_RSA *)
  GNUTLS_CIPHER_SUITE_ENTRY "GNUTLS_DHE_RSA_TWOFISH_128_CBC_SHA" GNUTLS_DHE_RSA_TWOFISH_128_CBC_SHA
    GNUTLS_CIPHER_TWOFISH_128_CBC GNUTLS_KX_DHE_RSA GNUTLS_MAC_SHA GNUTLS_TLS1;
  GNUTLS_CIPHER_SUITE_ENTRY "GNUTLS_DHE_RSA_3DES_EDE_CBC_SHA" GNUTLS_DHE_RSA_3DES_EDE_CBC_SHA
    GNUTLS_CIPHER_3DES_CBC GNUTLS_KX_DHE_RSA GNUTLS_MAC_SHA GNUTLS_SSL3;
  GNUTLS_CIPHER_SUITE_ENTRY "GNUTLS_DHE_RSA_AES_128_CBC_SHA" GNUTLS_DHE_RSA_AES_128_CBC_SHA
    GNUTLS_CIPHER_AES_128_CBC GNUTLS_KX_DHE_RSA GNUTLS_MAC_SHA GNUTLS_SSL3;
  GNUTLS_CIPHER_SUITE_ENTRY "GNUTLS_DHE_RSA_AES_256_CBC_SHA" GNUTLS_DHE_RSA_AES_256_CBC_SHA
    GNUTLS_CIPHER_AES_256_CBC GNUTLS_KX_DHE_RSA GNUTLS_MAC_SHA GNUTLS_SSL3;
  (* RSA *)
  GNUTLS_CIPHER_SUITE_ENTRY "GNUTLS_RSA_NULL_MD5" GNUTLS_RSA_NULL_MD5
    GNUTLS_CIPHER_NULL GNUTLS_KX_RSA GNUTLS_MAC_MD5 GNUTLS_SSL3;
  GNUTLS_CIPHER_SUITE_ENTRY "GNUTLS_RSA_EXPORT_ARCFOUR_40_MD5" GNUTLS_RSA_EXPORT_ARCFOUR_40_MD5
    GNUTLS_CIPHER_ARCFOUR_40 GNUTLS_KX_RSA_EXPORT GNUTLS_MAC_MD5 GNUTLS_SSL3;
  GNUTLS_CIPHER_SUITE_ENTRY "GNUTLS_RSA_ARCFOUR_SHA" GNUTLS_RSA_ARCFOUR_SHA
    GNUTLS_CIPHER_ARCFOUR_128 GNUTLS_KX_RSA GNUTLS_MAC_SHA GNUTLS_SSL3;
  GNUTLS_CIPHER_SUITE_ENTRY "GNUTLS_RSA_ARCFOUR_MD5" GNUTLS_RSA_ARCFOUR_MD5
    GNUTLS_CIPHER_ARCFOUR_128 GNUTLS_KX_RSA GNUTLS_MAC_MD5 GNUTLS_SSL3;
  GNUTLS_CIPHER_SUITE_ENTRY "GNUTLS_RSA_3DES_EDE_CBC_SHA" GNUTLS_RSA_3DES_EDE_CBC_SHA
    GNUTLS_CIPHER_3DES_CBC GNUTLS_KX_RSA GNUTLS_MAC_SHA GNUTLS_SSL3;
  GNUTLS_CIPHER_SUITE_ENTRY "GNUTLS_RSA_AES_128_CBC_SHA" GNUTLS_RSA_AES_128_CBC_SHA
    GNUTLS_CIPHER_AES_128_CBC GNUTLS_KX_RSA GNUTLS_MAC_SHA GNUTLS_SSL3;
  GNUTLS_CIPHER_SUITE_ENTRY "GNUTLS_RSA_AES_256_CBC_SHA" GNUTLS_RSA_AES_256_CBC_SHA
    GNUTLS_CIPHER_AES_256_CBC GNUTLS_KX_RSA GNUTLS_MAC_SHA GNUTLS_SSL3;
  GNUTLS_CIPHER_SUITE_ENTRY "GNUTLS_RSA_TWOFISH_128_CBC_SHA" GNUTLS_RSA_TWOFISH_128_CBC_SHA
    GNUTLS_CIPHER_TWOFISH_128_CBC GNUTLS_KX_RSA GNUTLS_MAC_SHA GNUTLS_TLS1
].

(** [CIPHER_SUITES_COUNT]: the array length without the sentinel. *)
Definition CIPHER_SUITES_COUNT : nat := length cs_algorithms.

(** [GNUTLS_CIPHER_SUITE_ALG_LOOP(a)] *)
Definition GNUTLS_CIPHER_SUITE_ALG_LOOP {R : Type} (suite : GNUTLS_CipherSuite)
    (a : gnutls_cipher_suite_entry -> R) (ret : R) : R :=
  alg_loop
    (fun p => (fst (cs_id p) =? fst suite) && (snd (cs_id p) =? snd suite))
    a cs_algorithms ret.

Definition _gnutls_cipher_suite_get_cipher_algo (suite : GNUTLS_CipherSuite) : Z :=
  GNUTLS_CIPHER_SUITE_ALG_LOOP suite block_algorithm 0.

Definition _gnutls_cipher_suite_get_version (suite : GNUTLS_CipherSuite) : Z :=
  GNUTLS_CIPHER_SUITE_ALG_LOOP suite cs_version 0.

Definition _gnutls_cipher_suite_get_kx_algo (suite : GNUTLS_CipherSuite) : Z :=
  GNUTLS_CIPHER_SUITE_ALG_LOOP suite kx_algorithm 0.

Definition _gnutls_cipher_suite_get_mac_algo (suite : GNUTLS_CipherSuite) : Z :=
  GNUTLS_CIPHER_SUITE_ALG_LOOP suite mac_algorithm 0.

Definition _gnutls_cipher_suite_get_name (suite : GNUTLS_CipherSuite) : option string :=
  GNUTLS_CIPHER_SUITE_ALG_LOOP suite
    (fun p => Some (string_skip 7 (cs_name p))) None.

(** The loop has no [break]: the last entry with the three algorithms
    decides. *)
Definition gnutls_cipher_suite_get_name (kx_algorithm0 cipher_algorithm0
    mac_algorithm0 : Z) : option string :=
  all_loop
    (fun p => (kx_algorithm0 =? kx_algorithm p)
              && (cipher_algorithm0 =? block_algorithm p)
              && (mac_algorithm0 =? mac_algorithm p))
    (fun p => Some (string_skip 7 (cs_name p))) cs_algorithms None.

Definition _gnutls_cipher_suite_is_ok (suite : GNUTLS_CipherSuite) : Z :=
  match GNUTLS_CIPHER_SUITE_ALG_LOOP suite (fun p => Some (cs_name p)) None with
  | Some _ => 0
  | None => 1
  end.

End Suites.

(** ** The sort utility *)

(** [_gnutls_partition] and [_gnutls_qsort] work on an array of [nmemb]
    records of [size] bytes through byte offsets that are multiples of
    [size]; here the array is the list of its records and the offsets
    [i], [j], [full], [pivot] are counted in records.  [compar] is the
    comparator already applied to the session.  [fuel] bounds the number
    of passes of the outer [while] and the depth of the recursion: [None]
    means the bound was reached, not that the code returned.
    [_gnutls_qsort] calls [_gnutls_partition] with at least two members
    and gets a pivot below [nmemb], so the unsigned subtractions
    [nmemb - 1] and [nmemb - pivot - 1] do not wrap. *)
Section Sort.
Context {A : Type} `{Inhabited A}.
Variable compar : A -> A -> Z.

(** [SWAP(&base[x], &base[y])] *)
Definition SWAP (base : list A) (x y : nat) : list A :=
  let tmp := base !!! x in
  let base := <[x := base !!! y]> base in
  <[y := tmp]> base.

(** [while ((compar(session, &base[i], ptmp) <= 0) && (i < full)) i += size;]
    The loop runs at most [full - i] times; [k] counts the passes left. *)
Fixpoint partition_up (k : nat) (base : list A) (ptmp : A) (full i : nat) : nat :=
  match k with
  | O => i
  | S k' =>
      if (compar (base !!! i) ptmp <=? 0) && (i <? full)%nat
      then partition_up k' base ptmp full (i + 1)
      else i
  end.

(** [while ((compar(session, &base[j], ptmp) >= 0) && (j > 0)) j -= size;] *)
Fixpoint partition_down (base : list A) (ptmp : A) (j : nat) : nat :=
  match j with
  | O => O
  | S j' =>
      if compar (base !!! j) ptmp >=? 0
      then partition_down base ptmp j'
      else j
  end.

(** [while (i < j) { ...; if (i < j) SWAP(&base[j], &base[i]); }] *)
Fixpoint partition_while (fuel : nat) (base : list A) (ptmp : A)
    (full i j : nat) : option (list A * nat * nat) :=
  if (i <? j)%nat then
    match fuel with
    | O => None
    | S fuel' =>
        let i := partition_up (full - i) base ptmp full i in
        let j := partition_down base ptmp j in
        if (i <? j)%nat
        then partition_while fuel' (SWAP base j i) ptmp full i j
        else partition_while fuel' base ptmp full i j
    end
  else Some (base, i, j).

Definition _gnutls_partition (fuel : nat) (base : list A) (nmemb : nat)
    : option (list A * nat) :=
  let pivot := O in
  let i := O in
  let full := (nmemb - 1)%nat in
  let j := full in
  let ptmp := base !!! O in
  match partition_while fuel base ptmp full i j with
  | None => None
  | Some (base, i, j) =>
      if (pivot <? j)%nat then Some (SWAP base pivot j, j)
      else if (i <? pivot)%nat then Some (SWAP base pivot i, i)
      else Some (base, pivot)
  end.

(** The records [off .. off+n-1] of an array, and an array with these
    records replaced: a recursive call on [&base[off]] with [n] members
    reads and writes exactly this part. *)
Definition sub_array (base : list A) (off n : nat) : list A :=
  take n (drop off base).

Definition set_sub_array (base : list A) (off : nat) (part : list A) : list A :=
  take off base ++ part ++ drop (off + length part) base.

Fixpoint _gnutls_qsort (fuel : nat) (base : list A) (nmemb : nat)
    : option (list A) :=
  match fuel with
  | O => None
  | S fuel' =>
      if (nmemb <=? 1)%nat then Some base
      else
        match _gnutls_partition fuel' base nmemb with
        | None => None
        | Some (base, pivot) =>
            let n1 := if (pivot <? nmemb)%nat then (pivot + 1)%nat else pivot in
            match _gnutls_qsort fuel' (sub_array base 0 n1) n1 with
            | None => None
            | Some part1 =>
                let base := set_sub_array base 0 part1 in
                let n2 := (nmemb - pivot - 1)%nat in
                match _gnutls_qsort fuel' (sub_array base (pivot + 1) n2) n2 with
                | None => None
                | Some part2 => Some (set_sub_array base (pivot + 1) part2)
                end
            end
        end
  end.

End Sort.

(** ** Filtering and ordering the cipher suites of a session *)

Section Supported.
Context `{gnutls_h}.

(** The combined priority computed by [_gnutls_compare_algo] for one
    suite ([p1], [p2] in the source). *)
Definition compare_algo_weight (session : gnutls_session)
    (i_A : GNUTLS_CipherSuite) : Z :=
  let kA := _gnutls_cipher_suite_get_kx_algo i_A in
  let cA := _gnutls_cipher_suite_get_cipher_algo i_A in
  let mA := _gnutls_cipher_suite_get_mac_algo i_A in
  let p := (_gnutls_kx_priority session kA + 1) * 64 in
  let p := p + (_gnutls_cipher_priority session cA + 1) * 8 in
  let p := p + _gnutls_mac_priority session mA in
  p.

Definition _gnutls_compare_algo (session : gnutls_session)
    (i_A1 i_A2 : GNUTLS_CipherSuite) : Z :=
  let p1 := compare_algo_weight session i_A1 in
  let p2 := compare_algo_weight session i_A2 in
  if p1 >? p2 then 1
  else if p1 =? p2 then 0
  else -1.

(** The second loop of [_gnutls_supported_ciphersuites]; [ciphers] holds
    the [j] records written so far. *)
Fixpoint supported_ciphersuites_loop (session : gnutls_session) (version : Z)
    (tmp_ciphers ciphers : list GNUTLS_CipherSuite) : list GNUTLS_CipherSuite :=
  match tmp_ciphers with
  | [] => ciphers
  | c :: rest =>
      if (enable_private session =? 0) && (fst c =? 0xFF)
      then supported_ciphersuites_loop session version rest ciphers
      else if _gnutls_cipher_suite_get_version c >? version
      then supported_ciphersuites_loop session version rest ciphers
      else if _gnutls_kx_priority session (_gnutls_cipher_suite_get_kx_algo c) <? 0
      then supported_ciphersuites_loop session version rest ciphers
      else if _gnutls_mac_priority session (_gnutls_cipher_suite_get_mac_algo c) <? 0
      then supported_ciphersuites_loop session version rest ciphers
      else if _gnutls_cipher_priority session (_gnutls_cipher_suite_get_cipher_algo c) <? 0
      then supported_ciphersuites_loop session version rest ciphers
      else supported_ciphersuites_loop session version rest (ciphers ++ [c])
  end.

(** Allocation is taken to succeed.  [Success l] stands for the return
    value [length l] with [*_ciphers] pointing to [l]. *)
Definition _gnutls_supported_ciphersuites (session : gnutls_session)
    : gnutls_result GNUTLS_CipherSuite :=
  let count := CIPHER_SUITES_COUNT in
  if (count =? 0)%nat then Success []
  else
    let version := gnutls_protocol_get_version session in
    let tmp_ciphers := map cs_id (take count cs_algorithms) in
    let ciphers := supported_ciphersuites_loop session version tmp_ciphers [] in
    let ret_count := length ciphers in
    if (ret_count =? 0)%nat then Failure GNUTLS_E_NO_CIPHER_SUITES
    else Success ciphers.

Definition _gnutls_supported_ciphersuites_sorted (fuel : nat)
    (session : gnutls_session) : option (gnutls_result GNUTLS_CipherSuite) :=
  match _gnutls_supported_ciphersuites session with
  | Failure e => Some (Failure e)
  | Success ciphers =>
      let count := length ciphers in
      if (count <=? 0)%nat then Some (Success ciphers)
      else
        match _gnutls_qsort (_gnutls_compare_algo session) fuel ciphers count with
        | None => None
        | Some ciphers => Some (Success ciphers)
        end
  end.

(** ** Compression methods of a session *)

Definition MIN_PRIVATE_COMP_ALGO : Z := 0xEF.

(** The loop of [_gnutls_supported_compression_methods]; [comp] holds the
    [j] bytes written so far. *)
Fixpoint supported_compression_loop (session : gnutls_session)
    (priority : list Z) (comp : list Z) : list Z :=
  match priority with
  | [] => comp
  | a :: rest =>
      let tmp := _gnutls_compression_get_num a in
      if (tmp =? -1)
         || ((enable_private session =? 0) && (tmp >=? MIN_PRIVATE_COMP_ALGO))
      then supported_compression_loop session rest comp
      else supported_compression_loop session rest (comp ++ [uint8_of_int tmp])
  end.

(** [gnutls_malloc] is a function pointer the application sets; of the
    pointer it answers, the function below reads only whether it is
    [NULL].  An allocator is given by the request sizes, in bytes, that it
    answers with a pointer other than [NULL]; a request of 0 bytes may be
    answered either way. *)
Definition allocator := Z -> bool.

Definition sizeof_uint8 : Z := 1.

(** [Success l] stands for the return value [length l] with [*comp]
    pointing to [l]. *)
Definition _gnutls_supported_compression_methods (gnutls_malloc : allocator)
    (session : gnutls_session) : gnutls_result Z :=
  let SUPPORTED_COMPRESSION_METHODS :=
    Z.of_nat (length (compression_method_priority session)) in
  if negb (gnutls_malloc (sizeof_uint8 * SUPPORTED_COMPRESSION_METHODS))
  then Failure GNUTLS_E_MEMORY_ERROR
  else
    let comp :=
      supported_compression_loop session (compression_method_priority session) [] in
    let j := length comp in
    if (j =? 0)%nat then Failure GNUTLS_E_NO_COMPRESSION_ALGORITHMS
    else Success comp.

End Supported.

(** ** Reference definitions used in the statements *)

Section Reference.
Context `{gnutls_h}.

(** The entries of a table terminated by [algorithm == 0]: those before
    the first zero algorithm. *)
Fixpoint entries_before_sentinel (table : list gnutls_cred_map)
    : list gnutls_cred_map :=
  match table with
  | [] => []
  | e :: rest =>
      if cred_algorithm e =? 0 then [] else e :: entries_before_sentinel rest
  end.

(** The kx algorithm of the first entry of [cred_mappings] whose server
    credentials type is [type], or the initial [-1] when there is none. *)
Definition kx_of_first_server_entry (type : Z) : Z :=
  match List.find (fun p => server_type p =? type)
          (entries_before_sentinel cred_mappings) with
  | Some p => cred_algorithm p
  | None => -1
  end.

(** Does [_gnutls_supported_compression_methods] keep the priority entry
    [a]: it has a wire number, and the number is below the private range
    unless private algorithms are enabled. *)
Definition compression_entry_kept (session : gnutls_session) (a : Z) : bool :=
  negb (_gnutls_compression_get_num a =? -1)
  && negb ((enable_private session =? 0)
           && (_gnutls_compression_get_num a >=? MIN_PRIVATE_COMP_ALGO)).

(** Did the allocator give [_gnutls_supported_compression_methods] its
    output array: one byte for each entry of the priority list. *)
Definition compression_array_allocated (gnutls_malloc : allocator)
    (session : gnutls_session) : bool :=
  gnutls_malloc (sizeof_uint8 * Z.of_nat (length (compression_method_priority session))).


(** The five tests of the filter loop as one boolean: [true] when the
    suite is copied to the output. *)
Definition suite_kept (session : gnutls_session) (version : Z)
    (c : GNUTLS_CipherSuite) : bool :=
  negb ((enable_private session =? 0) && (fst c =? 0xFF))
  && negb (_gnutls_cipher_suite_get_version c >? version)
  && negb (_gnutls_kx_priority session (_gnutls_cipher_suite_get_kx_algo c) <? 0)
  && negb (_gnutls_mac_priority session (_gnutls_cipher_suite_get_mac_algo c) <? 0)
  && negb (_gnutls_cipher_priority session (_gnutls_cipher_suite_get_cipher_algo c) <? 0).

(** What a suite that passes the tests satisfies. *)
Definition suite_acceptable (session : gnutls_session)
    (c : GNUTLS_CipherSuite) : Prop :=
  0 <= _gnutls_kx_priority session (_gnutls_cipher_suite_get_kx_algo c)
  /\ 0 <= _gnutls_cipher_priority session (_gnutls_cipher_suite_get_cipher_algo c)
  /\ 0 <= _gnutls_mac_priority session (_gnutls_cipher_suite_get_mac_algo c)
  /\ _gnutls_cipher_suite_get_version c <= gnutls_protocol_get_version session
  /\ (enable_private session = 0 -> fst c <> 0xFF).

(** The combined score of a suite as the specification writes it. *)
Definition score (session : gnutls_session) (c : GNUTLS_CipherSuite) : Z :=
  (_gnutls_kx_priority session (_gnutls_cipher_suite_get_kx_algo c) + 1) * 64
  + (_gnutls_cipher_priority session (_gnutls_cipher_suite_get_cipher_algo c) + 1) * 8
  + _gnutls_mac_priority session (_gnutls_cipher_suite_get_mac_algo c).

(** A before B in the list implies score(A) <= score(B). *)
Definition ascending_by_score (session : gnutls_session)
    (l : list GNUTLS_CipherSuite) : Prop :=
  forall (i j : nat) (a b : GNUTLS_CipherSuite),
    (i < j)%nat -> l !! i = Some a -> l !! j = Some b ->
    score session a <= score session b.

(** Suites of equal score keep the relative order they have in
    [cs_algorithms]. *)
Definition ties_in_table_order (session : gnutls_session)
    (l : list GNUTLS_CipherSuite) : Prop :=
  forall (i j : nat) (a b : GNUTLS_CipherSuite),
    (i < j)%nat -> l !! i = Some a -> l !! j = Some b ->
    score session a = score session b ->
    exists i' j' : nat,
      (i' < j')%nat /\ map cs_id cs_algorithms !! i' = Some a
      /\ map cs_id cs_algorithms !! j' = Some b.

(** The entry whose name [gnutls_cipher_suite_get_name] returns: the last
    entry of the table with the three algorithms. *)
Definition cipher_suite_entry_of_algos (kx_algorithm0 cipher_algorithm0
    mac_algorithm0 : Z) : option gnutls_cipher_suite_entry :=
  all_loop
    (fun p => (kx_algorithm0 =? kx_algorithm p)
              && (cipher_algorithm0 =? block_algorithm p)
              && (mac_algorithm0 =? mac_algorithm p))
    Some cs_algorithms None.

(** [r] is the rank of [a] in the priority list [l]: [-1] exactly when [a]
    is not in [l], otherwise the 0-based index of its first occurrence. *)
Definition is_rank_of (l : list Z) (a : Z) (r : Z) : Prop :=
  (r = -1 <-> ~ In a l)
  /\ (In a l ->
      exists n : nat,
        r = Z.of_nat n /\ l !! n = Some a
        /\ forall m : nat, (m < n)%nat -> l !! m <> Some a).

(** The ordering property as the specification states it for one
    session: whenever the sorted enumeration returns a list, the list is
    ascending by score and suites of equal score are in table order. *)
Definition sorted_by_score_and_stable (session : gnutls_session) : Prop :=
  forall (fuel : nat) (l : list GNUTLS_CipherSuite),
    _gnutls_supported_ciphersuites_sorted fuel session = Some (Success l) ->
    ascending_by_score session l /\ ties_in_table_order session l.

End Reference.

(** ** Invariants of the sort *)

Section SortInvariant.
Context {A : Type} `{Inhabited A}.
Variable w : A -> Z.

(** The state of the outer [while] of [_gnutls_partition] at its test:
    the array is a rearrangement of the initial one with the pivot record
    still in front, everything left of [i] weighs at most the pivot,
    everything right of [j] at least the pivot, and once [i] has reached
    [j] the record at [j] is lighter than the pivot unless [j] is 0. *)
Definition partition_invariant (base0 : list A) (ptmp : A) (full : nat)
    (base : list A) (i j : nat) : Prop :=
  length base = S full
  /\ base ≡ₚ base0
  /\ base !!! O = ptmp
  /\ (i <= full)%nat /\ (j <= full)%nat
  /\ (forall m, (m < i)%nat -> w (base !!! m) <= w ptmp)
  /\ (forall m, (j < m <= full)%nat -> w ptmp <= w (base !!! m))
  /\ ((i < j)%nat \/ j = O \/ w (base !!! j) < w ptmp).

(** A bound on the passes of the outer [while] still to come. *)
Definition partition_measure (ptmp : A) (base : list A) (i j : nat) : nat :=
  if (i <? j)%nat
  then (2 * (j - i) + (if (w (base !!! i) <=? w ptmp)%Z then O else 1%nat))%nat
  else O.

(** Ascending by weight: every record weighs at most every later one. *)
Definition ascending (l : list A) : Prop :=
  StronglySorted (fun a b => w a <= w b) l.

End SortInvariant.

(** ** Concrete constants and sessions *)

(** One assignment of the header constants, used to run the code on
    concrete sessions: the constants of an enumeration are numbered from 1
    in the order listed above (so they are pairwise distinct and non-zero),
    [CIPHER_STREAM] is 0 and zlib is compiled in. *)
Definition gnutls_h_sample : gnutls_h := {|
  GNUTLS_KX_RSA := 1; GNUTLS_KX_DHE_DSS := 2; GNUTLS_KX_DHE_RSA := 3;
  GNUTLS_KX_ANON_DH := 4; GNUTLS_KX_SRP := 5; GNUTLS_KX_RSA_EXPORT := 6;
  GNUTLS_KX_SRP_RSA := 7; GNUTLS_KX_SRP_DSS := 8;
  GNUTLS_CRD_CERTIFICATE := 1; GNUTLS_CRD_ANON := 2; GNUTLS_CRD_SRP := 3;
  GNUTLS_CIPHER_NULL := 1; GNUTLS_CIPHER_ARCFOUR_128 := 2;
  GNUTLS_CIPHER_3DES_CBC := 3; GNUTLS_CIPHER_AES_128_CBC := 4;
  GNUTLS_CIPHER_AES_256_CBC := 5; GNUTLS_CIPHER_TWOFISH_128_CBC := 6;
  GNUTLS_CIPHER_ARCFOUR_40 := 7; GNUTLS_CIPHER_RC2_40_CBC := 8;
  GNUTLS_CIPHER_DES_CBC := 9;
  CIPHER_STREAM := 0; CIPHER_BLOCK := 1;
  GNUTLS_MAC_NULL := 1; GNUTLS_MAC_MD5 := 2; GNUTLS_MAC_SHA := 3;
  GNUTLS_COMP_NULL := 1; GNUTLS_COMP_ZLIB := 2;
  GNUTLS_SSL3 := 1; GNUTLS_TLS1 := 2;
  HAVE_LIBZ := true
|}.

Section Sessions.
Context `{gnutls_h}.

(** kx [DHE_RSA, RSA], ciphers [AES_256, AES_128, 3DES], mac [SHA],
    TLS 1.0, no private suites. *)
Definition session_scenario : gnutls_session := {|
  kx_algorithm_priority := [GNUTLS_KX_DHE_RSA; GNUTLS_KX_RSA];
  cipher_algorithm_priority :=
    [GNUTLS_CIPHER_AES_256_CBC; GNUTLS_CIPHER_AES_128_CBC; GNUTLS_CIPHER_3DES_CBC];
  mac_algorithm_priority := [GNUTLS_MAC_SHA];
  compression_method_priority := [GNUTLS_COMP_NULL; GNUTLS_COMP_ZLIB];
  enable_private := 0;
  protocol_version := GNUTLS_TLS1
|}.


(** A session that enables all nine ciphers of [algorithms]: the cipher of
    rank 8 weighs as much as one more step of kx rank, so
    ANON_DH_AES_128_CBC_SHA (kx rank 1, cipher rank 0) and
    DHE_RSA_AES_256_CBC_SHA (kx rank 0, cipher rank 8) both score 136. *)
Definition session_ties : gnutls_session := {|
  kx_algorithm_priority := [GNUTLS_KX_DHE_RSA; GNUTLS_KX_ANON_DH];
  cipher_algorithm_priority :=
    [GNUTLS_CIPHER_AES_128_CBC; GNUTLS_CIPHER_NULL; GNUTLS_CIPHER_ARCFOUR_128;
     GNUTLS_CIPHER_ARCFOUR_40; GNUTLS_CIPHER_3DES_CBC; GNUTLS_CIPHER_RC2_40_CBC;
     GNUTLS_CIPHER_TWOFISH_128_CBC; GNUTLS_CIPHER_DES_CBC; GNUTLS_CIPHER_AES_256_CBC];
  mac_algorithm_priority := [GNUTLS_MAC_SHA];
  compression_method_priority := [GNUTLS_COMP_NULL];
  enable_private := 0;
  protocol_version := GNUTLS_TLS1
|}.

End Sessions.

(** An allocator that answers every request, and one that answers [NULL]
    to a request of 0 bytes, as the C library may. *)
Definition malloc_succeeds : allocator := fun _ => true.


(** * The rest of the file *)

(** ** More constants declared by the headers *)

Class gnutls_int_h := {
  (* gnutls_pk_algorithm *)
  GNUTLS_PK_RSA : Z;
  GNUTLS_PK_DSA : Z;
  (* enum encipher_type *)
  CIPHER_ENCRYPT : Z;
  CIPHER_SIGN : Z;
  CIPHER_IGN : Z;
  (* gnutls_protocol_version *)
  GNUTLS_VERSION_UNKNOWN : Z;
  (* build configuration: is the anonymous key exchange compiled in
     (#ifdef ENABLE_ANON) *)
  ENABLE_ANON : bool
}.

(** One assignment of these constants, as [gnutls_h_sample] is one of the
    others. *)
Definition gnutls_int_h_sample : gnutls_int_h := {|
  GNUTLS_PK_RSA := 1; GNUTLS_PK_DSA := 2;
  CIPHER_ENCRYPT := 0; CIPHER_SIGN := 1; CIPHER_IGN := 2;
  GNUTLS_VERSION_UNKNOWN := 0xff;
  ENABLE_ANON := true
|}.

(** The five authentication modules the key-exchange table points to
    ([extern MOD_AUTH_STRUCT ...]); a pointer to one of them is the name of
    the module, [NULL] is [None]. *)
Inductive MOD_AUTH_STRUCT :=
| rsa_auth_struct
| rsa_export_auth_struct
| dhe_rsa_auth_struct
| dhe_dss_auth_struct
| anon_auth_struct.

Section MoreTables.
Context `{gnutls_h} `{gnutls_int_h}.

(** ** Key exchange to public-key algorithm *)

Record gnutls_pk_map := {
  pk_kx_algorithm : Z;
  pk_algorithm : Z;
  encipher_type : Z
}.

Definition pk_mappings : list gnutls_pk_map := [
  {| pk_kx_algorithm := GNUTLS_KX_RSA; pk_algorithm := GNUTLS_PK_RSA;
     encipher_type := CIPHER_ENCRYPT |};
  {| pk_kx_algorithm := GNUTLS_KX_RSA_EXPORT; pk_algorithm := GNUTLS_PK_RSA;
     encipher_type := CIPHER_SIGN |};
  {| pk_kx_algorithm := GNUTLS_KX_DHE_RSA; pk_algorithm := GNUTLS_PK_RSA;
     encipher_type := CIPHER_SIGN |};
  {| pk_kx_algorithm := GNUTLS_KX_SRP_RSA; pk_algorithm := GNUTLS_PK_RSA;
     encipher_type := CIPHER_SIGN |};
  {| pk_kx_algorithm := GNUTLS_KX_DHE_DSS; pk_algorithm := GNUTLS_PK_DSA;
     encipher_type := CIPHER_SIGN |};
  {| pk_kx_algorithm := GNUTLS_KX_SRP_DSS; pk_algorithm := GNUTLS_PK_DSA;
     encipher_type := CIPHER_SIGN |};
  {| pk_kx_algorithm := 0; pk_algorithm := 0; encipher_type := 0 |}
].

(** [GNUTLS_PK_MAP_LOOP(b)]: terminated by [kx_algorithm == 0], like
    [GNUTLS_KX_MAP_LOOP]. *)
Fixpoint GNUTLS_PK_MAP_LOOP {R : Type} (b : gnutls_pk_map -> R -> R * bool)
    (p : list gnutls_pk_map) (ret : R) : R :=
  match p with
  | [] => ret
  | e :: rest =>
      if pk_kx_algorithm e =? 0 then ret
      else
        let '(ret', brk) := b e ret in
        if brk then ret' else GNUTLS_PK_MAP_LOOP b rest ret'
  end.

(** [GNUTLS_PK_MAP_ALG_LOOP(a)] *)
Definition GNUTLS_PK_MAP_ALG_LOOP {R : Type} (kx_algorithm0 : Z)
    (a : gnutls_pk_map -> R) (ret : R) : R :=
  GNUTLS_PK_MAP_LOOP
    (fun p r => if pk_kx_algorithm p =? kx_algorithm0 then (a p, true) else (r, false))
    pk_mappings ret.

Definition _gnutls_map_pk_get_pk (kx_algorithm0 : Z) : Z :=
  GNUTLS_PK_MAP_ALG_LOOP kx_algorithm0 pk_algorithm (-1).

Definition _gnutls_kx_encipher_type (kx_algorithm0 : Z) : Z :=
  GNUTLS_PK_MAP_ALG_LOOP kx_algorithm0 encipher_type CIPHER_IGN.

(** ** Protocol versions *)

Record gnutls_version_entry := {
  version_name : string;
  version_id : Z;
  major : Z;
  minor : Z;
  supported : Z
}.

Definition sup_versions : list gnutls_version_entry := [
  {| version_name := "SSL 3.0"; version_id := GNUTLS_SSL3;
     major := 3; minor := 0; supported := 1 |};
  {| version_name := "TLS 1.0"; version_id := GNUTLS_TLS1;
     major := 3; minor := 1; supported := 1 |}
].

(** [GNUTLS_VERSION_ALG_LOOP(a)] *)
Definition GNUTLS_VERSION_ALG_LOOP {R : Type} (version : Z)
    (a : gnutls_version_entry -> R) (ret : R) : R :=
  alg_loop (fun p => version_id p =? version) a sup_versions ret.

(** The version functions read [session->internals.protocol_priority]
    only; they take it in place of the session, [None] for a [NULL]
    [priority] pointer and [Some l] for the list of its [algorithms] first
    entries. *)
Definition _gnutls_version_priority (protocol_priority : option (list Z))
    (version : Z) : Z :=
  match protocol_priority with
  | None => -1
  | Some priority => priority_loop priority version 0
  end.

(** [for (...) if (priority[i] < min) min = priority[i];] with [min] an
    [unsigned int]: the comparison is that of the integers for entries
    between 0 and 2^31 - 1, the values of the enumeration. *)
Fixpoint version_lowest_loop (priority : list Z) (min : Z) : Z :=
  match priority with
  | [] => min
  | a :: rest => version_lowest_loop rest (if a <? min then a else min)
  end.

Definition _gnutls_version_lowest (protocol_priority : option (list Z)) : Z :=
  match protocol_priority with
  | None => GNUTLS_VERSION_UNKNOWN
  | Some priority =>
      let min := version_lowest_loop priority 0xff in
      if min =? 0xff then GNUTLS_VERSION_UNKNOWN else min
  end.

(** [for (...) if (priority[i] > max) max = priority[i];] *)
Fixpoint version_max_loop (priority : list Z) (max : Z) : Z :=
  match priority with
  | [] => max
  | a :: rest => version_max_loop rest (if a >? max then a else max)
  end.

Definition _gnutls_version_max (protocol_priority : option (list Z)) : Z :=
  match protocol_priority with
  | None => GNUTLS_VERSION_UNKNOWN
  | Some priority =>
      let max := version_max_loop priority 0x00 in
      if max =? 0x00 then GNUTLS_VERSION_UNKNOWN else max
  end.

Definition gnutls_protocol_get_name (version : Z) : option string :=
  GNUTLS_VERSION_ALG_LOOP version (fun p => Some (version_name p)) None.

Definition _gnutls_version_get_minor (version : Z) : Z :=
  GNUTLS_VERSION_ALG_LOOP version minor (-1).

(** The loop has no [break]: the last entry with the two numbers decides. *)
Definition _gnutls_version_get (major0 minor0 : Z) : Z :=
  all_loop (fun p => (major p =? major0) && (minor p =? minor0))
    version_id sup_versions (-1).

Definition _gnutls_version_get_major (version : Z) : Z :=
  GNUTLS_VERSION_ALG_LOOP version major (-1).

Definition _gnutls_version_is_supported (protocol_priority : option (list Z))
    (version : Z) : Z :=
  let ret := GNUTLS_VERSION_ALG_LOOP version supported 0 in
  if ret =? 0 then 0
  else if _gnutls_version_priority protocol_priority version <? 0 then 0
  else 1.

(** ** Key exchange algorithms *)

(** [gnutls_kx_algo_entry]: the fields the file reads, in the order of
    the initialiser. *)
Record gnutls_kx_algo_entry := {
  kx_name : string;
  kx_entry_algorithm : Z;
  auth_struct : MOD_AUTH_STRUCT
}.

(** The table as the file initialises it; other algorithms are appended
    at run time by another library. *)
Definition _gnutls_kx_algorithms : list gnutls_kx_algo_entry :=
  (if ENABLE_ANON then
     [ {| kx_name := "Anon DH"; kx_entry_algorithm := GNUTLS_KX_ANON_DH;
          auth_struct := anon_auth_struct |} ]
   else [])
  ++ [ {| kx_name := "RSA"; kx_entry_algorithm := GNUTLS_KX_RSA;
          auth_struct := rsa_auth_struct |};
       {| kx_name := "RSA EXPORT"; kx_entry_algorithm := GNUTLS_KX_RSA_EXPORT;
          auth_struct := rsa_export_auth_struct |};
       {| kx_name := "DHE RSA"; kx_entry_algorithm := GNUTLS_KX_DHE_RSA;
          auth_struct := dhe_rsa_auth_struct |};
       {| kx_name := "DHE DSS"; kx_entry_algorithm := GNUTLS_KX_DHE_DSS;
          auth_struct := dhe_dss_auth_struct |} ].

(** [GNUTLS_KX_ALG_LOOP(a)] *)
Definition GNUTLS_KX_ALG_LOOP {R : Type} (algorithm : Z)
    (a : gnutls_kx_algo_entry -> R) (ret : R) : R :=
  alg_loop (fun p => kx_entry_algorithm p =? algorithm) a _gnutls_kx_algorithms ret.

Definition _gnutls_kx_auth_struct (algorithm : Z) : option MOD_AUTH_STRUCT :=
  GNUTLS_KX_ALG_LOOP algorithm (fun p => Some (auth_struct p)) None.

Definition gnutls_kx_get_name (algorithm : Z) : option string :=
  GNUTLS_KX_ALG_LOOP algorithm (fun p => Some (kx_name p)) None.

(** ** The [is_ok] tests: 0 means the algorithm is known *)

(** [if (ret >= 0) ret = 0; else ret = 1;] *)
Definition is_ok_of (ret : Z) : Z := if ret >=? 0 then 0 else 1.

Definition _gnutls_mac_is_ok (algorithm : Z) : Z :=
  is_ok_of (GNUTLS_HASH_ALG_LOOP algorithm hash_id (-1)).

Definition _gnutls_compression_is_ok (algorithm : Z) : Z :=
  is_ok_of (GNUTLS_COMPRESSION_ALG_LOOP algorithm comp_id (-1)).

Definition _gnutls_cipher_is_ok (algorithm : Z) : Z :=
  is_ok_of (GNUTLS_ALG_LOOP algorithm cipher_id (-1)).

Definition _gnutls_kx_is_ok (algorithm : Z) : Z :=
  is_ok_of (GNUTLS_KX_ALG_LOOP algorithm kx_entry_algorithm (-1)).

(** ** Names *)

(** [p->name + sizeof("GNUTLS_COMP_") - 1] *)
Definition gnutls_compression_get_name (algorithm : Z) : option string :=
  GNUTLS_COMPRESSION_ALG_LOOP algorithm
    (fun p => Some (string_skip 12 (comp_name p))) None.

End MoreTables.

(** * Properties *)

(** ** Generic facts about the table scans *)

Lemma alg_loop_absent {E R : Type} (cond : E -> bool) (a : E -> R)
    (table : list E) (ret : R) :
  (forall p, In p table -> cond p = false) ->
  alg_loop cond a table ret = ret.
Proof.
  induction table as [|p rest IH]; intros Hno; simpl; [reflexivity|].
  rewrite (Hno p (or_introl eq_refl)).
  apply IH. intros q Hq. apply Hno. now right.
Qed.

Lemma all_loop_map {E R R' : Type} (cond : E -> bool) (a : E -> R)
    (f : R -> R') (table : list E) (ret : R) :
  all_loop cond (fun p => f (a p)) table (f ret) = f (all_loop cond a table ret).
Proof.
  revert ret. induction table as [|p rest IH]; intros ret; simpl; [reflexivity|].
  destruct (cond p); apply IH.
Qed.

Lemma all_loop_some {E : Type} (cond : E -> bool) (P : E -> Prop)
    (table : list E) (ret : option E) :
  (forall p, In p table -> cond p = true -> P p) ->
  match ret with
  | Some r => P r
  | None => exists p, In p table /\ cond p = true
  end ->
  exists q, all_loop cond Some table ret = Some q /\ P q.
Proof.
  revert ret. induction table as [|p rest IH]; intros ret HP Hret; simpl.
  - destruct ret as [r|]; [now exists r|].
    destruct Hret as [p [[] _]].
  - apply IH.
    + intros q Hq. apply HP. now right.
    + destruct (cond p) eqn:Hp.
      * apply HP; [now left|assumption].
      * destruct ret as [r|]; [assumption|].
        destruct Hret as [q [[->|Hq] Hc]]; [congruence|].
        now exists q.
Qed.

(** ** Ranks *)

Lemma int_of_unsigned_small (u : Z) : u < 2 ^ 31 -> int_of_unsigned u = u.
Proof.
  intros Hu. unfold int_of_unsigned.
  destruct (u <? 2 ^ 31) eqn:E; [reflexivity|].
  apply Z.ltb_ge in E. lia.
Qed.

Lemma priority_loop_absent (l : list Z) (a i : Z) :
  ~ In a l -> priority_loop l a i = -1.
Proof.
  revert i. induction l as [|x l IH]; intros i Hno; simpl; [reflexivity|].
  destruct (x =? a) eqn:E.
  - apply Z.eqb_eq in E. exfalso. apply Hno. now left.
  - apply IH. intros Hin. apply Hno. now right.
Qed.

Lemma priority_loop_present (l : list Z) (a i : Z) :
  0 <= i -> i + Z.of_nat (length l) <= 2 ^ 31 -> In a l ->
  exists n : nat,
    priority_loop l a i = i + Z.of_nat n /\ l !! n = Some a
    /\ forall m : nat, (m < n)%nat -> l !! m <> Some a.
Proof.
  revert i. induction l as [|x l IH]; intros i Hi Hlen Hin; [destruct Hin|].
  simpl in Hlen. simpl priority_loop.
  destruct (x =? a) eqn:E.
  - apply Z.eqb_eq in E. subst x. exists O. split; [|split].
    + rewrite int_of_unsigned_small by lia. lia.
    + reflexivity.
    + intros m Hm. lia.
  - apply Z.eqb_neq in E.
    destruct Hin as [Hx|Hin]; [contradiction|].
    destruct (IH (i + 1)) as [n [Hr [Hn Hfirst]]]; [lia|lia|assumption|].
    exists (S n). split; [|split].
    + rewrite Hr. lia.
    + exact Hn.
    + intros [|m] Hm; simpl.
      * intros Heq. injection Heq as Heq. contradiction.
      * apply Hfirst. lia.
Qed.

Lemma priority_loop_is_rank (l : list Z) (a : Z) :
  Z.of_nat (length l) <= 2 ^ 31 ->
  is_rank_of l a (priority_loop l a 0).
Proof.
  intros Hlen. split.
  - split.
    + intros Hr Hin.
      destruct (priority_loop_present l a 0) as [n [Hn _]]; [lia|lia|assumption|].
      lia.
    + apply priority_loop_absent.
  - intros Hin.
    destruct (priority_loop_present l a 0) as [n [Hn Hrest]]; [lia|lia|assumption|].
    exists n. split; [lia|exact Hrest].
Qed.

(** C3. For each of the three algorithm classes, the priority function of
    a session returns -1 exactly when the algorithm is absent from the
    session's priority list of that class, and otherwise the 0-based index
    of its first occurrence in that list.  The index is an [unsigned int]
    returned as an [int], so each list is taken to have at most 2^31
    entries. *)
Theorem priority_is_rank (session : gnutls_session) (algorithm : Z) :
  (Z.of_nat (length (kx_algorithm_priority session)) <= 2 ^ 31 ->
   is_rank_of (kx_algorithm_priority session) algorithm
     (_gnutls_kx_priority session algorithm))
  /\ (Z.of_nat (length (cipher_algorithm_priority session)) <= 2 ^ 31 ->
      is_rank_of (cipher_algorithm_priority session) algorithm
        (_gnutls_cipher_priority session algorithm))
  /\ (Z.of_nat (length (mac_algorithm_priority session)) <= 2 ^ 31 ->
      is_rank_of (mac_algorithm_priority session) algorithm
        (_gnutls_mac_priority session algorithm)).
Proof.
  repeat split; intros Hlen; apply priority_loop_is_rank; assumption.
Qed.

Section TableProperties.
Context `{gnutls_h}.

(** ** Credentials type to kx algorithm *)

Lemma kx_map_server_loop_is_find (type : Z) (table : list gnutls_cred_map) :
  GNUTLS_KX_MAP_LOOP
    (fun p r => if server_type p =? type then (cred_algorithm p, true) else (r, false))
    table (-1)
  = match List.find (fun p => server_type p =? type)
            (entries_before_sentinel table) with
    | Some p => cred_algorithm p
    | None => -1
    end.
Proof.
  induction table as [|e rest IH]; simpl; [reflexivity|].
  destruct (cred_algorithm e =? 0); [reflexivity|].
  simpl. destruct (server_type e =? type); [reflexivity|exact IH].
Qed.

(** When no kx constant is zero the sentinel is the last entry of the
    initialiser, and the table has the eight entries written before it. *)
Lemma cred_mappings_entries :
  GNUTLS_KX_ANON_DH <> 0 -> GNUTLS_KX_RSA <> 0 -> GNUTLS_KX_RSA_EXPORT <> 0 ->
  GNUTLS_KX_DHE_DSS <> 0 -> GNUTLS_KX_DHE_RSA <> 0 -> GNUTLS_KX_SRP <> 0 ->
  GNUTLS_KX_SRP_RSA <> 0 -> GNUTLS_KX_SRP_DSS <> 0 ->
  entries_before_sentinel cred_mappings = removelast cred_mappings.
Proof.
  intros H1 H2 H3 H4 H5 H6 H7 H8.
  unfold cred_mappings. simpl.
  repeat match goal with
  | Hne : ?x <> 0 |- context [?x =? 0] =>
      rewrite (proj2 (Z.eqb_neq x 0) Hne)
  end.
  reflexivity.
Qed.

(** C7. [_gnutls_map_kx_get_kx] does not depend on the [server] flag: for
    either role it returns the kx algorithm of the first entry of
    [cred_mappings] whose server credentials type is the given type (or
    the initial -1 when no entry has it); the client column is not read. *)
Theorem map_kx_get_kx_ignores_role (type server : Z) :
  _gnutls_map_kx_get_kx type server = kx_of_first_server_entry type
  /\ forall server' : Z,
       _gnutls_map_kx_get_kx type server = _gnutls_map_kx_get_kx type server'.
Proof.
  assert (Hall : forall s, _gnutls_map_kx_get_kx type s = kx_of_first_server_entry type).
  { intros s. unfold _gnutls_map_kx_get_kx, GNUTLS_KX_MAP_ALG_LOOP_SERVER,
      kx_of_first_server_entry.
    destruct (negb (s =? 0)); apply kx_map_server_loop_is_find. }
  split; [apply Hall|].
  intros server'. rewrite !Hall. reflexivity.
Qed.

(** ** Unknown algorithm identifiers *)

(** C8. For a cipher identifier that no entry of [algorithms] carries,
    [_gnutls_cipher_get_block_size] and [gnutls_cipher_get_key_size]
    return 0, and for a MAC identifier that no entry of [hash_algorithms]
    carries, [_gnutls_mac_get_digest_size] returns 0.  The accessors are
    total functions: the scan ends at the end of the table. *)
Theorem unknown_algorithm_sentinels (algorithm : Z) :
  ((forall p, In p algorithms -> cipher_id p <> algorithm) ->
   _gnutls_cipher_get_block_size algorithm = 0
   /\ gnutls_cipher_get_key_size algorithm = 0)
  /\ ((forall p, In p hash_algorithms -> hash_id p <> algorithm) ->
      _gnutls_mac_get_digest_size algorithm = 0).
Proof.
  split.
  - intros Hno.
    unfold _gnutls_cipher_get_block_size, gnutls_cipher_get_key_size,
      GNUTLS_ALG_LOOP.
    split; apply alg_loop_absent; intros p Hp; apply Z.eqb_neq; auto.
  - intros Hno.
    unfold _gnutls_mac_get_digest_size, GNUTLS_HASH_ALG_LOOP.
    apply alg_loop_absent; intros p Hp; apply Z.eqb_neq; auto.
Qed.

(** ** Compression identifiers and wire numbers *)

Lemma compression_get_num_range (algorithm : Z) :
  _gnutls_compression_get_num algorithm = -1
  \/ _gnutls_compression_get_num algorithm = 0
  \/ _gnutls_compression_get_num algorithm = 1.
Proof.
  unfold _gnutls_compression_get_num, GNUTLS_COMPRESSION_ALG_LOOP,
    _gnutls_compression_algorithms.
  destruct HAVE_LIBZ; simpl;
    repeat match goal with |- context [if ?c then _ else _] => destruct c end;
    auto.
Qed.

(** C10. For a compression method identifier carried by an entry of
    [_gnutls_compression_algorithms], the wire number of the identifier
    maps back to the identifier; for an identifier carried by no entry,
    [_gnutls_compression_get_num] returns -1. *)
Theorem compression_num_roundtrip (algorithm : Z) :
  ((exists p, In p _gnutls_compression_algorithms /\ comp_id p = algorithm) ->
   _gnutls_compression_get_id (_gnutls_compression_get_num algorithm) = algorithm)
  /\ ((forall p, In p _gnutls_compression_algorithms -> comp_id p <> algorithm) ->
      _gnutls_compression_get_num algorithm = -1).
Proof.
  split.
  - intros [p [Hin Hid]].
    unfold _gnutls_compression_get_id, _gnutls_compression_get_num,
      GNUTLS_COMPRESSION_ALG_LOOP_NUM, GNUTLS_COMPRESSION_ALG_LOOP,
      _gnutls_compression_algorithms in *.
    destruct HAVE_LIBZ; simpl in *.
    + destruct (GNUTLS_COMP_NULL =? algorithm) eqn:E0; simpl.
      * now apply Z.eqb_eq in E0.
      * destruct (GNUTLS_COMP_ZLIB =? algorithm) eqn:E1; simpl.
        -- now apply Z.eqb_eq in E1.
        -- apply Z.eqb_neq in E0, E1.
           destruct Hin as [<-|[<-|[]]]; simpl in Hid; contradiction.
    + destruct (GNUTLS_COMP_NULL =? algorithm) eqn:E0; simpl.
      * now apply Z.eqb_eq in E0.
      * apply Z.eqb_neq in E0.
        destruct Hin as [<-|[]]; simpl in Hid; contradiction.
  - intros Hno.
    unfold _gnutls_compression_get_num, GNUTLS_COMPRESSION_ALG_LOOP.
    apply alg_loop_absent; intros p Hp; apply Z.eqb_neq; auto.
Qed.

End TableProperties.

(** ** Cipher suites: identifiers, names and algorithms *)

Lemma NoDup_map_injective {E K : Type} (key : E -> K) (table : list E) (p q : E) :
  List.NoDup (map key table) -> In p table -> In q table -> key p = key q -> p = q.
Proof.
  induction table as [|e rest IH]; intros Hnd Hp Hq Hk; [destruct Hp|].
  simpl in Hnd. apply NoDup_cons_iff in Hnd as [Hnotin Hnd].
  destruct Hp as [->|Hp], Hq as [->|Hq].
  - reflexivity.
  - exfalso. apply Hnotin. rewrite Hk. now apply in_map.
  - exfalso. apply Hnotin. rewrite <- Hk. now apply in_map.
  - now apply IH.
Qed.

Lemma alg_loop_unique {E K R : Type} (key : E -> K) (eqb : K -> K -> bool)
    (a : E -> R) (table : list E) (ret : R) (q : E) :
  (forall x y, eqb x y = true <-> x = y) ->
  List.NoDup (map key table) -> In q table ->
  alg_loop (fun p => eqb (key p) (key q)) a table ret = a q.
Proof.
  intros Heqb. induction table as [|e rest IH]; intros Hnd Hq; [destruct Hq|].
  simpl in Hnd. apply NoDup_cons_iff in Hnd as [Hnotin Hnd]. simpl.
  destruct (eqb (key e) (key q)) eqn:Hkey.
  - apply Heqb in Hkey. destruct Hq as [->|Hq]; [reflexivity|].
    exfalso. apply Hnotin. rewrite Hkey. now apply in_map.
  - destruct Hq as [->|Hq].
    + assert (eqb (key q) (key q) = true) by now apply Heqb. congruence.
    + now apply IH.
Qed.

Lemma CipherSuite_eqb_eq (x y : GNUTLS_CipherSuite) :
  CipherSuite_eqb x y = true <-> x = y.
Proof.
  destruct x as [x0 x1], y as [y0 y1]. unfold CipherSuite_eqb. simpl.
  rewrite andb_true_iff, !Z.eqb_eq. split.
  - intros [-> ->]. reflexivity.
  - intros Heq. injection Heq as -> ->. auto.
Qed.

Section SuiteProperties.
Context `{gnutls_h}.

Lemma cs_algorithms_ids_NoDup : List.NoDup (map cs_id cs_algorithms).
Proof.
  apply (NoDup_ListNoDup (map cs_id cs_algorithms)).
  apply (bool_decide_unpack _). vm_compute. reflexivity.
Qed.

Lemma cs_algorithms_names_NoDup :
  List.NoDup (map (fun p => string_skip 7 (cs_name p)) cs_algorithms).
Proof.
  apply (NoDup_ListNoDup (map (fun p => string_skip 7 (cs_name p)) cs_algorithms)).
  apply (bool_decide_unpack _). vm_compute. reflexivity.
Qed.

(** A scan by identifier stops on the entry that carries the identifier. *)
Lemma suite_alg_loop_entry {R : Type} (a : gnutls_cipher_suite_entry -> R)
    (ret : R) (q : gnutls_cipher_suite_entry) :
  In q cs_algorithms ->
  GNUTLS_CIPHER_SUITE_ALG_LOOP (cs_id q) a ret = a q.
Proof.
  intros Hq. unfold GNUTLS_CIPHER_SUITE_ALG_LOOP.
  apply (alg_loop_unique cs_id CipherSuite_eqb a cs_algorithms ret q
           CipherSuite_eqb_eq cs_algorithms_ids_NoDup Hq).
Qed.

Lemma cipher_suite_get_name_of_entry (kx cipher mac : Z) :
  gnutls_cipher_suite_get_name kx cipher mac
  = option_map (fun p => string_skip 7 (cs_name p))
      (cipher_suite_entry_of_algos kx cipher mac).
Proof.
  unfold gnutls_cipher_suite_get_name, cipher_suite_entry_of_algos.
  exact (all_loop_map _ Some (option_map (fun p => string_skip 7 (cs_name p)))
           cs_algorithms None).
Qed.

(** C5. For every entry of [cs_algorithms], the name that
    [gnutls_cipher_suite_get_name] finds for the entry's (kx, cipher, mac)
    triple is the name of exactly one suite of the table, and the
    accessors applied to that suite's identifier give back the triple. *)
Theorem suite_by_algorithms_decomposes (p : gnutls_cipher_suite_entry) :
  In p cs_algorithms ->
  exists q : gnutls_cipher_suite_entry,
    In q cs_algorithms
    /\ gnutls_cipher_suite_get_name (kx_algorithm p) (block_algorithm p)
         (mac_algorithm p) = Some (string_skip 7 (cs_name q))
    /\ _gnutls_cipher_suite_get_name (cs_id q) = Some (string_skip 7 (cs_name q))
    /\ (forall q', In q' cs_algorithms ->
          string_skip 7 (cs_name q') = string_skip 7 (cs_name q) -> q' = q)
    /\ _gnutls_cipher_suite_get_kx_algo (cs_id q) = kx_algorithm p
    /\ _gnutls_cipher_suite_get_cipher_algo (cs_id q) = block_algorithm p
    /\ _gnutls_cipher_suite_get_mac_algo (cs_id q) = mac_algorithm p.
Proof.
  intros Hp.
  set (cond := fun e : gnutls_cipher_suite_entry =>
    (kx_algorithm p =? kx_algorithm e)
    && (block_algorithm p =? block_algorithm e)
    && (mac_algorithm p =? mac_algorithm e)).
  destruct (all_loop_some cond (fun e => In e cs_algorithms /\ cond e = true)
              cs_algorithms None) as [q [Hq [Hin Hc]]].
  { intros e He Hc. auto. }
  { exists p. split; [assumption|]. unfold cond. now rewrite !Z.eqb_refl. }
  unfold cond in Hc. apply andb_true_iff in Hc as [Hc Hm].
  apply andb_true_iff in Hc as [Hk Hb].
  apply Z.eqb_eq in Hk, Hb, Hm.
  exists q. split; [assumption|]. split; [|split; [|split]].
  - rewrite cipher_suite_get_name_of_entry.
    unfold cipher_suite_entry_of_algos. fold cond. rewrite Hq. reflexivity.
  - exact (suite_alg_loop_entry (fun e => Some (string_skip 7 (cs_name e)))
             None q Hin).
  - intros q' Hq' Hname.
    exact (NoDup_map_injective _ cs_algorithms q' q cs_algorithms_names_NoDup
             Hq' Hin Hname).
  - unfold _gnutls_cipher_suite_get_kx_algo, _gnutls_cipher_suite_get_cipher_algo,
      _gnutls_cipher_suite_get_mac_algo.
    rewrite !suite_alg_loop_entry by assumption. auto.
Qed.

End SuiteProperties.

(** ** The suites offered by a session *)

Lemma sublist_count_occ (l k : list GNUTLS_CipherSuite) (c : GNUTLS_CipherSuite) :
  sublist l k ->
  (count_occ CipherSuite_eq_dec l c <= count_occ CipherSuite_eq_dec k c)%nat.
Proof.
  induction 1 as [|x l k _ IH|x l k _ IH]; simpl.
  - lia.
  - destruct (CipherSuite_eq_dec x c); lia.
  - destruct (CipherSuite_eq_dec x c); lia.
Qed.

Lemma sublist_filter {T : Type} (f : T -> bool) (l : list T) :
  sublist (List.filter f l) l.
Proof.
  induction l as [|x l IH]; simpl; [constructor|].
  destruct (f x); now constructor.
Qed.

Section SupportedProperties.
Context `{gnutls_h}.

Lemma supported_ciphersuites_loop_filter (session : gnutls_session) (version : Z)
    (tmp_ciphers ciphers : list GNUTLS_CipherSuite) :
  supported_ciphersuites_loop session version tmp_ciphers ciphers
  = ciphers ++ List.filter (suite_kept session version) tmp_ciphers.
Proof.
  revert ciphers.
  induction tmp_ciphers as [|c rest IH]; intros ciphers;
    cbn [supported_ciphersuites_loop List.filter].
  - now rewrite app_nil_r.
  - unfold suite_kept.
    destruct ((enable_private session =? 0) && (fst c =? 0xFF));
      cbn [negb andb]; [apply IH|].
    destruct (_gnutls_cipher_suite_get_version c >? version);
      cbn [negb andb]; [apply IH|].
    destruct (_gnutls_kx_priority session _ <? 0); cbn [negb andb]; [apply IH|].
    destruct (_gnutls_mac_priority session _ <? 0); cbn [negb andb]; [apply IH|].
    destruct (_gnutls_cipher_priority session _ <? 0); cbn [negb andb]; [apply IH|].
    rewrite IH, <- app_assoc. reflexivity.
Qed.

Lemma suite_kept_acceptable (session : gnutls_session) (c : GNUTLS_CipherSuite) :
  suite_kept session (gnutls_protocol_get_version session) c = true
  <-> suite_acceptable session c.
Proof.
  unfold suite_kept, suite_acceptable.
  rewrite !andb_true_iff, !negb_true_iff, andb_false_iff.
  rewrite !Z.ltb_ge, Z.gtb_ltb, Z.ltb_ge, !Z.eqb_neq.
  split.
  - intros [[[[Hp Hv] Hk] Hm] Hc]. repeat split; try assumption.
    intros Hpriv. destruct Hp as [Hp|Hp]; [contradiction|assumption].
  - intros [Hk [Hc [Hm [Hv Hp]]]]. repeat split; try assumption.
    destruct (Z.eq_dec (enable_private session) 0) as [E|E]; [right; auto|left; auto].
Qed.

Lemma CIPHER_SUITES_COUNT_value : CIPHER_SUITES_COUNT = 31%nat.
Proof. reflexivity. Qed.

(** What [_gnutls_supported_ciphersuites] computes: the identifiers of the
    table that pass the tests, in table order; an error when none does. *)
Lemma supported_ciphersuites_unfold (session : gnutls_session) :
  _gnutls_supported_ciphersuites session
  = match List.filter (suite_kept session (gnutls_protocol_get_version session))
            (map cs_id cs_algorithms) with
    | [] => Failure GNUTLS_E_NO_CIPHER_SUITES
    | c :: l => Success (c :: l)
    end.
Proof.
  unfold _gnutls_supported_ciphersuites.
  rewrite supported_ciphersuites_loop_filter.
  assert (Htake : take CIPHER_SUITES_COUNT cs_algorithms = cs_algorithms)
    by apply firstn_all.
  rewrite Htake, CIPHER_SUITES_COUNT_value.
  cbn [Nat.eqb app].
  generalize (List.filter (suite_kept session (gnutls_protocol_get_version session))
                (map cs_id cs_algorithms)).
  intros [|c l]; reflexivity.
Qed.

(** C1. Every suite in the list returned by
    [_gnutls_supported_ciphersuites] has a kx, a cipher and a mac
    algorithm of rank at least 0 in the session's priority lists, a
    minimum protocol version not above the session's version, and, when
    [enable_private] is 0, a first identifier byte other than 0xFF. *)
Theorem supported_ciphersuites_acceptable (session : gnutls_session)
    (ciphers : list GNUTLS_CipherSuite) :
  _gnutls_supported_ciphersuites session = Success ciphers ->
  forall c, In c ciphers -> suite_acceptable session c.
Proof.
  rewrite supported_ciphersuites_unfold.
  remember (List.filter (suite_kept session (gnutls_protocol_get_version session))
              (map cs_id cs_algorithms)) as kept eqn:Hf.
  destruct kept as [|c0 l]; [discriminate|].
  intros Heq c Hc. injection Heq as <-.
  rewrite Hf in Hc. apply filter_In in Hc as [_ Hc].
  now apply suite_kept_acceptable.
Qed.

(** C9. The list returned by [_gnutls_supported_ciphersuites] is a
    subsequence of the identifiers of [cs_algorithms]: the surviving
    suites keep their relative table order, and no identifier occurs more
    often than in the table. *)
Theorem supported_ciphersuites_subsequence (session : gnutls_session)
    (ciphers : list GNUTLS_CipherSuite) :
  _gnutls_supported_ciphersuites session = Success ciphers ->
  sublist ciphers (map cs_id cs_algorithms)
  /\ forall c,
       (count_occ CipherSuite_eq_dec ciphers c
        <= count_occ CipherSuite_eq_dec (map cs_id cs_algorithms) c)%nat.
Proof.
  rewrite supported_ciphersuites_unfold.
  remember (List.filter (suite_kept session (gnutls_protocol_get_version session))
              (map cs_id cs_algorithms)) as kept eqn:Hf.
  destruct kept as [|c0 l]; [discriminate|].
  intros Heq. injection Heq as <-. rewrite Hf.
  split; [apply sublist_filter|].
  intros c. apply sublist_count_occ, sublist_filter.
Qed.


Lemma supported_compression_loop_filter (session : gnutls_session)
    (priority comp : list Z) :
  supported_compression_loop session priority comp
  = comp ++ map (fun a => uint8_of_int (_gnutls_compression_get_num a))
              (List.filter (compression_entry_kept session) priority).
Proof.
  revert comp.
  induction priority as [|a rest IH]; intros comp;
    cbn [supported_compression_loop List.filter map].
  - now rewrite app_nil_r.
  - unfold compression_entry_kept.
    destruct (_gnutls_compression_get_num a =? -1); cbn [negb andb orb]; [apply IH|].
    destruct ((enable_private session =? 0)
              && (_gnutls_compression_get_num a >=? MIN_PRIVATE_COMP_ALGO));
      cbn [negb map]; [apply IH|].
    rewrite IH, <- app_assoc. reflexivity.
Qed.

(** A kept entry has wire number 0 or 1, which the store into the
    [uint8] array leaves unchanged. *)
Lemma kept_compression_num_is_byte (session : gnutls_session) (a : Z) :
  compression_entry_kept session a = true ->
  uint8_of_int (_gnutls_compression_get_num a) = _gnutls_compression_get_num a.
Proof.
  unfold compression_entry_kept. intros Hk.
  apply andb_true_iff in Hk as [Hk _]. apply negb_true_iff, Z.eqb_neq in Hk.
  destruct (compression_get_num_range a) as [Hn|[Hn|Hn]];
    [contradiction|rewrite Hn; reflexivity|rewrite Hn; reflexivity].
Qed.

Lemma supported_compression_methods_unfold (gnutls_malloc : allocator)
    (session : gnutls_session) :
  _gnutls_supported_compression_methods gnutls_malloc session
  = if compression_array_allocated gnutls_malloc session
    then match List.filter (compression_entry_kept session)
                 (compression_method_priority session) with
         | [] => Failure GNUTLS_E_NO_COMPRESSION_ALGORITHMS
         | a :: l => Success (map _gnutls_compression_get_num (a :: l))
         end
    else Failure GNUTLS_E_MEMORY_ERROR.
Proof.
  unfold _gnutls_supported_compression_methods, compression_array_allocated.
  cbv zeta.
  destruct (gnutls_malloc
              (sizeof_uint8 * Z.of_nat (length (compression_method_priority session))));
    cbn [negb]; [|reflexivity].
  rewrite supported_compression_loop_filter. cbn [app].
  assert (Hmap : forall l,
    (forall a, In a l -> compression_entry_kept session a = true) ->
    map (fun a => uint8_of_int (_gnutls_compression_get_num a)) l
    = map _gnutls_compression_get_num l).
  { intros l Hl. apply map_ext_in. intros a Ha.
    apply (kept_compression_num_is_byte session), Hl, Ha. }
  rewrite Hmap by (intros a Ha; apply filter_In in Ha; tauto).
  generalize (List.filter (compression_entry_kept session)
                (compression_method_priority session)).
  intros [|a l]; reflexivity.
Qed.



(** C6. [_gnutls_supported_compression_methods] outputs the wire numbers
    of the entries of the compression priority list, in list order,
    leaving out exactly the entries whose wire number is -1 and, when
    [enable_private] is 0, those whose wire number is at least 0xEF.  It
    outputs them whenever the allocator gave it the output array and some
    entry is left; otherwise it returns an error: [GNUTLS_E_MEMORY_ERROR]
    when the allocator answered [NULL], and
    [GNUTLS_E_NO_COMPRESSION_ALGORITHMS] when nothing is left. *)
Theorem supported_compression_methods_output (gnutls_malloc : allocator)
    (session : gnutls_session) :
  let kept := List.filter (compression_entry_kept session)
                (compression_method_priority session) in
  (forall a, compression_entry_kept session a = true <->
     _gnutls_compression_get_num a <> -1
     /\ ~ (enable_private session = 0
           /\ _gnutls_compression_get_num a >= 0xEF))
  /\ match _gnutls_supported_compression_methods gnutls_malloc session with
     | Success comp =>
         comp = map _gnutls_compression_get_num kept /\ kept <> []
         /\ compression_array_allocated gnutls_malloc session = true
     | Failure e =>
         (e = GNUTLS_E_MEMORY_ERROR
          /\ compression_array_allocated gnutls_malloc session = false)
         \/ (e = GNUTLS_E_NO_COMPRESSION_ALGORITHMS /\ kept = []
             /\ compression_array_allocated gnutls_malloc session = true)
     end
  /\ (compression_array_allocated gnutls_malloc session = true -> kept <> [] ->
      _gnutls_supported_compression_methods gnutls_malloc session
      = Success (map _gnutls_compression_get_num kept)).
Proof.
  intros kept. split; [|split].
  - intros a. unfold compression_entry_kept, MIN_PRIVATE_COMP_ALGO.
    rewrite andb_true_iff, !negb_true_iff, andb_false_iff.
    rewrite !Z.eqb_neq, Z.geb_leb, Z.leb_gt. split.
    + intros [Hn Hp]. split; [assumption|]. intros [Hz Hge].
      destruct Hp; [contradiction|lia].
    + intros [Hn Hp]. split; [assumption|].
      destruct (Z.eq_dec (enable_private session) 0); [right|left; assumption].
      destruct (Z_lt_ge_dec (_gnutls_compression_get_num a) 0xEF); [assumption|].
      exfalso. apply Hp. auto.
  - rewrite supported_compression_methods_unfold. fold kept.
    destruct (compression_array_allocated gnutls_malloc session); [|auto].
    destruct kept as [|a l]; [auto|].
    split; [reflexivity|]. split; [discriminate|reflexivity].
  - intros Halloc Hkept. rewrite supported_compression_methods_unfold, Halloc.
    fold kept. destruct kept as [|a l]; [contradiction|reflexivity].
Qed.

End SupportedProperties.

(** ** The sort utility orders by weight *)

Section SortProperties.
Context {A : Type} `{Inhabited A}.
Variable compar : A -> A -> Z.
Variable w : A -> Z.
Hypothesis compar_le : forall a b, (compar a b <=? 0) = (w a <=? w b).
Hypothesis compar_ge : forall a b, (compar a b >=? 0) = (w a >=? w b).

Lemma SWAP_length (base : list A) (x y : nat) :
  length (SWAP base x y) = length base.
Proof. unfold SWAP. now rewrite !length_insert. Qed.

Lemma SWAP_Permutation (base : list A) (x y : nat) :
  (x < length base)%nat -> (y < length base)%nat -> SWAP base x y ≡ₚ base.
Proof.
  intros Hx Hy. unfold SWAP.
  apply Permutation_insert_swap; now apply list_lookup_lookup_total_lt.
Qed.

Lemma SWAP_lookup_other (base : list A) (x y m : nat) :
  m <> x -> m <> y -> SWAP base x y !!! m = base !!! m.
Proof.
  intros Hx Hy. unfold SWAP.
  rewrite !list_lookup_total_insert_ne by auto. reflexivity.
Qed.

Lemma SWAP_lookup_r (base : list A) (x y : nat) :
  (y < length base)%nat -> SWAP base x y !!! y = base !!! x.
Proof.
  intros Hy. unfold SWAP.
  rewrite list_lookup_total_insert_eq by now rewrite length_insert.
  reflexivity.
Qed.

Lemma SWAP_lookup_l (base : list A) (x y : nat) :
  (x < length base)%nat -> (y < length base)%nat ->
  SWAP base x y !!! x = base !!! y.
Proof.
  intros Hx Hy. unfold SWAP.
  destruct (decide (x = y)) as [->|Hne].
  - rewrite list_lookup_total_insert_eq by now rewrite length_insert.
    reflexivity.
  - rewrite list_lookup_total_insert_ne by auto.
    now rewrite list_lookup_total_insert_eq.
Qed.

Lemma partition_up_spec (k : nat) (base : list A) (ptmp : A) (full i : nat) :
  (full - i <= k)%nat ->
  let i' := partition_up compar k base ptmp full i in
  (i <= i')%nat
  /\ ((i <= full)%nat -> (i' <= full)%nat)
  /\ (forall m, (i <= m < i')%nat -> w (base !!! m) <= w ptmp)
  /\ ((i' < full)%nat -> w ptmp < w (base !!! i'))
  /\ ((i < full)%nat -> w (base !!! i) <= w ptmp -> (i < i')%nat).
Proof.
  revert i. induction k as [|k IH]; intros i Hk; cbn [partition_up].
  - split; [lia|]. split; [lia|]. split; [lia|]. split; lia.
  - rewrite compar_le.
    destruct (w (base !!! i) <=? w ptmp) eqn:Hw; cbn [andb].
    + apply Z.leb_le in Hw.
      destruct (i <? full)%nat eqn:Hi.
      * apply Nat.ltb_lt in Hi.
        destruct (IH (i + 1)%nat) as [H1 [H2 [H3 [H4 H5]]]]; [lia|].
        split; [lia|]. split; [lia|]. split; [|split; [exact H4|lia]].
        intros m Hm. destruct (decide (m = i)) as [->|Hne]; [assumption|].
        apply H3. lia.
      * apply Nat.ltb_ge in Hi.
        split; [lia|]. split; [lia|]. split; [lia|]. split; lia.
    + apply Z.leb_gt in Hw.
      split; [lia|]. split; [lia|]. split; [lia|]. split; [intros _; lia|lia].
Qed.

Lemma partition_down_spec (base : list A) (ptmp : A) (j : nat) :
  let j' := partition_down compar base ptmp j in
  (j' <= j)%nat
  /\ (forall m, (j' < m <= j)%nat -> w ptmp <= w (base !!! m))
  /\ ((0 < j')%nat -> w (base !!! j') < w ptmp)
  /\ ((0 < j)%nat -> w ptmp <= w (base !!! j) -> (j' < j)%nat).
Proof.
  induction j as [|j IH]; cbn [partition_down].
  - split; [lia|]. split; [lia|]. split; lia.
  - rewrite compar_ge, Z.geb_leb.
    destruct (w ptmp <=? w (base !!! S j)) eqn:Hw.
    + apply Z.leb_le in Hw.
      destruct IH as [H1 [H2 [H3 H4]]].
      split; [lia|]. split; [|split; [exact H3|lia]].
      intros m Hm. destruct (decide (m = S j)) as [->|Hne]; [assumption|].
      apply H2. lia.
    + apply Z.leb_gt in Hw.
      split; [lia|]. split; [lia|]. split; [intros _; lia|lia].
Qed.

Lemma partition_while_unfold (fuel : nat) (base : list A) (ptmp : A)
    (full i j : nat) :
  partition_while compar fuel base ptmp full i j
  = if (i <? j)%nat then
      match fuel with
      | O => None
      | S fuel' =>
          let i1 := partition_up compar (full - i) base ptmp full i in
          let j1 := partition_down compar base ptmp j in
          if (i1 <? j1)%nat
          then partition_while compar fuel' (SWAP base j1 i1) ptmp full i1 j1
          else partition_while compar fuel' base ptmp full i1 j1
      end
    else Some (base, i, j).
Proof. destruct fuel; reflexivity. Qed.

(** One pass of the outer [while] keeps the invariant, does not move [j]
    up, and lowers the measure. *)
Lemma partition_pass (base0 : list A) (ptmp : A) (full : nat)
    (base : list A) (i j : nat) :
  partition_invariant w base0 ptmp full base i j -> (i < j)%nat ->
  let i1 := partition_up compar (full - i) base ptmp full i in
  let j1 := partition_down compar base ptmp j in
  let base1 := if (i1 <? j1)%nat then SWAP base j1 i1 else base in
  partition_invariant w base0 ptmp full base1 i1 j1
  /\ (j1 <= j)%nat
  /\ (w ptmp <= w (base !!! j) -> (j1 < j)%nat)
  /\ (partition_measure w ptmp base1 i1 j1 < partition_measure w ptmp base i j)%nat.
Proof.
  intros (Hlen & Hperm & Hpiv & Hi & Hj & Hleft & Hright & Hstop) Hij.
  destruct (partition_up_spec (full - i) base ptmp full i) as (U1 & U2 & U3 & U4 & U5);
    [lia|].
  destruct (partition_down_spec base ptmp j) as (D1 & D2 & D3 & D4).
  intros i1 j1 base1. fold i1 in U1, U2, U3, U4, U5. fold j1 in D1, D2, D3, D4.
  assert (Hi1 : (0 < i1)%nat).
  { destruct (decide (i = O)) as [->|Hne]; [|lia].
    apply U5; [lia|]. rewrite Hpiv. lia. }
  assert (Hmeasure : (partition_measure w ptmp base i j
                      = 2 * (j - i)
                        + (if (w (base !!! i) <=? w ptmp)%Z then O else 1%nat))%nat).
  { unfold partition_measure. now rewrite (proj2 (Nat.ltb_lt i j) Hij). }
  assert (Hadvance : (i < i1)%nat \/ (w (base !!! i) <=? w ptmp) = false).
  { destruct (w (base !!! i) <=? w ptmp) eqn:Hw; [left|now right].
    apply Z.leb_le in Hw. apply U5; [lia|assumption]. }
  split; [|split; [exact D1|split; [intros Hge; apply D4; [lia|assumption]|]]].
  - (* invariant *)
    subst base1. destruct (i1 <? j1)%nat eqn:Hlt.
    + apply Nat.ltb_lt in Hlt.
      assert (Hj1 : (j1 < length base)%nat) by lia.
      assert (Hi1' : (i1 < length base)%nat) by lia.
      split; [now rewrite SWAP_length|].
      split; [now rewrite SWAP_Permutation|].
      split; [rewrite SWAP_lookup_other by lia; exact Hpiv|].
      split; [lia|]. split; [lia|].
      split; [|split; [|now left]].
      * intros m Hm. rewrite SWAP_lookup_other by lia.
        destruct (decide (m < i)%nat); [now apply Hleft|apply U3; lia].
      * intros m Hm. rewrite SWAP_lookup_other by lia.
        destruct (decide (j < m)%nat); [apply Hright; lia|apply D2; lia].
    + apply Nat.ltb_ge in Hlt.
      split; [assumption|]. split; [assumption|]. split; [assumption|].
      split; [lia|]. split; [lia|].
      split; [|split].
      * intros m Hm.
        destruct (decide (m < i)%nat); [now apply Hleft|apply U3; lia].
      * intros m Hm.
        destruct (decide (j < m)%nat); [apply Hright; lia|apply D2; lia].
      * right. destruct (decide (j1 = O)); [now left|right; apply D3; lia].
  - (* measure *)
    rewrite Hmeasure. unfold partition_measure. subst base1.
    destruct (i1 <? j1)%nat eqn:Hlt.
    + apply Nat.ltb_lt in Hlt.
      rewrite SWAP_lookup_r by lia.
      assert (Hlight : w (base !!! j1) < w ptmp) by (apply D3; lia).
      rewrite (proj2 (Z.leb_le _ _)) by lia.
      destruct Hadvance as [Hadv|Hadv]; [|rewrite Hadv]; [|lia].
      destruct (w (base !!! i) <=? w ptmp); lia.
    + destruct (w (base !!! i) <=? w ptmp); lia.
Qed.

Lemma partition_while_spec (base0 : list A) (ptmp : A) (full : nat) (fuel : nat) :
  forall (base : list A) (i j : nat),
  partition_invariant w base0 ptmp full base i j ->
  (partition_measure w ptmp base i j <= fuel)%nat ->
  exists (base' : list A) (i' j' : nat),
    partition_while compar fuel base ptmp full i j = Some (base', i', j')
    /\ partition_invariant w base0 ptmp full base' i' j'
    /\ (j' <= i')%nat /\ (j' <= j)%nat
    /\ ((i < j)%nat -> w ptmp <= w (base !!! j) -> (j' < j)%nat).
Proof.
  induction fuel as [|fuel IH]; intros base i j Hinv Hfuel;
    rewrite partition_while_unfold.
  - destruct (i <? j)%nat eqn:Hij.
    + apply Nat.ltb_lt in Hij.
      destruct (partition_pass base0 ptmp full base i j Hinv Hij) as (_ & _ & _ & Hm).
      lia.
    + apply Nat.ltb_ge in Hij. exists base, i, j.
      split; [reflexivity|]. split; [assumption|]. split; [lia|]. split; lia.
  - destruct (i <? j)%nat eqn:Hij.
    + apply Nat.ltb_lt in Hij.
      destruct (partition_pass base0 ptmp full base i j Hinv Hij)
        as (Hinv1 & Hj1 & Hstrict & Hm).
      cbv zeta.
      set (i1 := partition_up compar (full - i) base ptmp full i) in *.
      set (j1 := partition_down compar base ptmp j) in *.
      destruct (i1 <? j1)%nat eqn:Hlt.
      * destruct (IH (SWAP base j1 i1) i1 j1 Hinv1) as (b & i' & j' & He & Hinv' & H1 & H2 & _);
          [lia|].
        exists b, i', j'. split; [exact He|]. split; [exact Hinv'|].
        split; [lia|]. split; [lia|]. intros _ Hge. specialize (Hstrict Hge). lia.
      * destruct (IH base i1 j1 Hinv1) as (b & i' & j' & He & Hinv' & H1 & H2 & _);
          [lia|].
        exists b, i', j'. split; [exact He|]. split; [exact Hinv'|].
        split; [lia|]. split; [lia|]. intros _ Hge. specialize (Hstrict Hge). lia.
    + apply Nat.ltb_ge in Hij. exists base, i, j.
      split; [reflexivity|]. split; [assumption|]. split; [lia|]. split; lia.
Qed.

(** [_gnutls_partition] returns within [2 * (nmemb - 1)] passes; the
    record it reports as pivot has nothing heavier before it and nothing
    lighter after it, and it is not the last record when the last record
    of the input weighs at least the first. *)
Lemma gnutls_partition_spec (fuel : nat) (base : list A) (nmemb : nat) :
  length base = nmemb -> (1 <= nmemb)%nat -> (2 * (nmemb - 1) <= fuel)%nat ->
  exists (base' : list A) (pivot : nat),
    _gnutls_partition compar fuel base nmemb = Some (base', pivot)
    /\ base' ≡ₚ base /\ length base' = nmemb /\ (pivot < nmemb)%nat
    /\ (forall m, (m < pivot)%nat -> w (base' !!! m) <= w (base' !!! pivot))
    /\ (forall m, (pivot < m < nmemb)%nat -> w (base' !!! pivot) <= w (base' !!! m))
    /\ ((2 <= nmemb)%nat -> w (base !!! O) <= w (base !!! (nmemb - 1)%nat) ->
        (pivot < nmemb - 1)%nat).
Proof.
  intros Hlen Hn Hfuel. unfold _gnutls_partition.
  set (ptmp := base !!! O). set (full := (nmemb - 1)%nat).
  assert (Hinv : partition_invariant w base ptmp full base O full).
  { split; [lia|]. split; [reflexivity|]. split; [reflexivity|].
    split; [lia|]. split; [lia|]. split; [intros m Hm; lia|].
    split; [intros m Hm; lia|]. lia. }
  destruct (partition_while_spec base ptmp full fuel base O full Hinv)
    as (b & i & j & He & Hinv' & Hji & Hjfull & Hstrict).
  { unfold partition_measure. destruct (0 <? full)%nat; [|lia].
    fold ptmp. rewrite Z.leb_refl. lia. }
  rewrite He.
  destruct Hinv' as (Hlen' & Hperm & Hpiv & Hi & Hj & Hleft & Hright & Hstop).
  destruct (0 <? j)%nat eqn:Hj0.
  - apply Nat.ltb_lt in Hj0.
    assert (Hlight : w (b !!! j) < w ptmp) by (destruct Hstop as [|[|]]; lia).
    exists (SWAP b O j), j.
    split; [reflexivity|].
    split; [rewrite SWAP_Permutation by lia; exact Hperm|].
    split; [rewrite SWAP_length; lia|].
    split; [lia|].
    rewrite SWAP_lookup_r by lia. rewrite Hpiv.
    split; [|split].
    + intros m Hm. destruct (decide (m = O)) as [->|Hne].
      * rewrite SWAP_lookup_l by lia. lia.
      * rewrite SWAP_lookup_other by lia. apply Hleft. lia.
    + intros m Hm. rewrite SWAP_lookup_other by lia. apply Hright. lia.
    + intros Hn2 Hlast. apply Hstrict; [lia|exact Hlast].
  - apply Nat.ltb_ge in Hj0.
    replace (i <? 0)%nat with false by (symmetry; apply Nat.ltb_ge; lia).
    exists b, O.
    split; [reflexivity|]. split; [exact Hperm|]. split; [lia|]. split; [lia|].
    rewrite Hpiv.
    split; [intros m Hm; lia|]. split; [intros m Hm; apply Hright; lia|].
    intros Hn2 _. lia.
Qed.

Lemma ascending_short (l : list A) : (length l <= 1)%nat -> ascending w l.
Proof.
  destruct l as [|a [|b l]]; simpl; intros Hl; [constructor| |lia].
  constructor; constructor.
Qed.

(** [_gnutls_qsort] returns with fuel [2 * nmemb + 2] (one unit less is
    enough when the last record weighs at least the first), and its
    result is the input rearranged in ascending order of weight. *)
Lemma gnutls_qsort_spec (fuel : nat) :
  forall (base : list A) (nmemb : nat),
  length base = nmemb ->
  (2 * nmemb + 2 <= fuel)%nat
  \/ ((2 <= nmemb)%nat /\ (2 * nmemb + 1 <= fuel)%nat
      /\ w (base !!! O) <= w (base !!! (nmemb - 1)%nat)) ->
  exists sorted : list A,
    _gnutls_qsort compar fuel base nmemb = Some sorted
    /\ sorted ≡ₚ base /\ ascending w sorted.
Proof.
  induction fuel as [|fuel IH]; intros base nmemb Hlen Hfuel; [lia|].
  cbn [_gnutls_qsort].
  destruct (nmemb <=? 1)%nat eqn:Hsmall.
  { apply Nat.leb_le in Hsmall. exists base.
    split; [reflexivity|]. split; [reflexivity|]. apply ascending_short. lia. }
  apply Nat.leb_gt in Hsmall.
  destruct (gnutls_partition_spec fuel base nmemb Hlen) as
    (b & pivot & He & Hperm & Hlenb & Hpivot & Hbefore & Hafter & Hnotlast);
    [lia|lia|].
  rewrite He.
  replace (pivot <? nmemb)%nat with true by (symmetry; apply Nat.ltb_lt; lia).
  unfold sub_array at 1. rewrite drop_0.
  (* the first recursive call *)
  destruct (IH (take (pivot + 1) b) (pivot + 1)%nat) as (part1 & He1 & Hperm1 & Hasc1).
  { rewrite length_take. lia. }
  { destruct (decide (pivot = nmemb - 1)%nat) as [Hlast|Hlast].
    - right. split; [lia|]. split.
      + destruct Hfuel as [Hfuel|(_ & _ & Hw)]; [lia|].
        specialize (Hnotlast ltac:(lia) Hw). lia.
      + rewrite !lookup_total_take_lt by lia.
        replace (pivot + 1 - 1)%nat with pivot by lia. apply Hbefore. lia.
    - left. lia. }
  rewrite He1.
  assert (Hlen1 : length part1 = (pivot + 1)%nat).
  { rewrite (Permutation_length Hperm1), length_take. lia. }
  assert (Hbase1 : set_sub_array b 0 part1 = part1 ++ drop (pivot + 1) b).
  { unfold set_sub_array. rewrite take_0, Hlen1. reflexivity. }
  rewrite Hbase1.
  assert (Hsub2 : sub_array (part1 ++ drop (pivot + 1) b) (pivot + 1)
                    (nmemb - pivot - 1) = drop (pivot + 1) b).
  { unfold sub_array. rewrite drop_app_length' by lia.
    apply take_ge. rewrite length_drop. lia. }
  rewrite Hsub2.
  (* the second recursive call *)
  destruct (IH (drop (pivot + 1) b) (nmemb - pivot - 1)%nat) as
    (part2 & He2 & Hperm2 & Hasc2).
  { rewrite length_drop. lia. }
  { left. lia. }
  rewrite He2.
  assert (Hlen2 : length part2 = (nmemb - pivot - 1)%nat).
  { rewrite (Permutation_length Hperm2), length_drop. lia. }
  assert (Hres : set_sub_array (part1 ++ drop (pivot + 1) b) (pivot + 1) part2
                 = part1 ++ part2).
  { unfold set_sub_array. rewrite take_app_length' by lia.
    rewrite drop_ge; [now rewrite app_nil_r|].
    rewrite length_app, length_drop. lia. }
  rewrite Hres. exists (part1 ++ part2).
  split; [reflexivity|]. split.
  - rewrite Hperm1, Hperm2, take_drop. exact Hperm.
  - apply StronglySorted_app_2; [|exact Hasc1|exact Hasc2].
    intros x1 x2 Hx1 Hx2.
    rewrite Hperm1 in Hx1. rewrite Hperm2 in Hx2.
    apply list_elem_of_lookup_total in Hx1 as (m1 & Hm1 & <-).
    apply list_elem_of_lookup_total in Hx2 as (m2 & Hm2 & <-).
    rewrite length_take in Hm1. rewrite length_drop in Hm2.
    rewrite lookup_total_take_lt by lia. rewrite lookup_total_drop.
    transitivity (w (b !!! pivot)).
    + destruct (decide (m1 = pivot)) as [->|Hne]; [lia|]. apply Hbefore. lia.
    + apply Hafter. lia.
Qed.

(** In an ascending list an earlier record weighs at most a later one. *)
Lemma ascending_lookup (l : list A) (i j : nat) (a b : A) :
  ascending w l -> (i < j)%nat -> l !! i = Some a -> l !! j = Some b ->
  w a <= w b.
Proof.
  intros Hasc. revert i j a b.
  induction Hasc as [|x l Hasc IH Hall]; intros i j a b Hij Hi Hj; [discriminate|].
  destruct j as [|j]; [lia|]. cbn in Hj.
  destruct i as [|i]; cbn in Hi.
  - injection Hi as <-. rewrite Forall_forall in Hall. apply Hall.
    eapply list_elem_of_lookup_2. exact Hj.
  - apply (IH i j); [lia|assumption|assumption].
Qed.

End SortProperties.

(** ** The sort commutes with a relabelling of the records *)

Section SortRelabel.
Context {A B : Type} `{HA : Inhabited A} `{HB : Inhabited B}.
Variable f : A -> B.
Variable compar : A -> A -> Z.
Variable compar' : B -> B -> Z.
Hypothesis compar_f : forall a b, compar a b = compar' (f a) (f b).
Hypothesis inhabitant_f : f inhabitant = inhabitant.

Lemma relabel_lookup_total (base : list A) (i : nat) :
  (f <$> base) !!! i = f (base !!! i).
Proof.
  revert i. induction base as [|a base IH]; intros [|i];
    try reflexivity; try (symmetry; exact inhabitant_f).
  apply IH.
Qed.

Lemma relabel_SWAP (base : list A) (x y : nat) :
  f <$> SWAP base x y = SWAP (f <$> base) x y.
Proof.
  unfold SWAP. rewrite !list_fmap_insert, !relabel_lookup_total. reflexivity.
Qed.

Lemma relabel_partition_up (k : nat) (base : list A) (ptmp : A) (full i : nat) :
  partition_up compar k base ptmp full i
  = partition_up compar' k (f <$> base) (f ptmp) full i.
Proof.
  revert i. induction k as [|k IH]; intros i; cbn [partition_up]; [reflexivity|].
  rewrite relabel_lookup_total, <- compar_f, IH. reflexivity.
Qed.

Lemma relabel_partition_down (base : list A) (ptmp : A) (j : nat) :
  partition_down compar base ptmp j
  = partition_down compar' (f <$> base) (f ptmp) j.
Proof.
  induction j as [|j IH]; cbn [partition_down]; [reflexivity|].
  rewrite relabel_lookup_total, <- compar_f, IH. reflexivity.
Qed.

Lemma relabel_partition_while (fuel : nat) (base : list A) (ptmp : A)
    (full i j : nat) :
  partition_while compar' fuel (f <$> base) (f ptmp) full i j
  = match partition_while compar fuel base ptmp full i j with
    | Some (base', i', j') => Some (f <$> base', i', j')
    | None => None
    end.
Proof.
  revert base i j. induction fuel as [|fuel IH]; intros base i j;
    cbn [partition_while]; destruct (i <? j)%nat; try reflexivity.
  rewrite <- relabel_partition_up, <- relabel_partition_down.
  destruct (_ <? _)%nat; [rewrite <- relabel_SWAP|]; apply IH.
Qed.

Lemma relabel_partition (fuel : nat) (base : list A) (nmemb : nat) :
  _gnutls_partition compar' fuel (f <$> base) nmemb
  = match _gnutls_partition compar fuel base nmemb with
    | Some (base', pivot) => Some (f <$> base', pivot)
    | None => None
    end.
Proof.
  unfold _gnutls_partition.
  rewrite relabel_lookup_total, relabel_partition_while.
  destruct (partition_while compar fuel base (base !!! O) (nmemb - 1) 0 (nmemb - 1))
    as [[[b i] j]|]; [|reflexivity].
  destruct (0 <? j)%nat; [now rewrite relabel_SWAP|].
  destruct (i <? 0)%nat; [now rewrite relabel_SWAP|reflexivity].
Qed.

Lemma relabel_qsort (fuel : nat) (base : list A) (nmemb : nat) :
  _gnutls_qsort compar' fuel (f <$> base) nmemb
  = match _gnutls_qsort compar fuel base nmemb with
    | Some sorted => Some (f <$> sorted)
    | None => None
    end.
Proof.
  revert base nmemb. induction fuel as [|fuel IH]; intros base nmemb;
    cbn [_gnutls_qsort]; [reflexivity|].
  destruct (nmemb <=? 1)%nat; [reflexivity|].
  rewrite relabel_partition.
  destruct (_gnutls_partition compar fuel base nmemb) as [[b pivot]|];
    [|reflexivity].
  unfold sub_array, set_sub_array.
  repeat first [rewrite <- fmap_drop | rewrite <- fmap_take | rewrite <- fmap_app].
  rewrite IH.
  destruct (_gnutls_qsort compar fuel (take _ (drop 0 b)) _) as [part1|];
    [|reflexivity].
  rewrite length_fmap.
  repeat first [rewrite <- fmap_drop | rewrite <- fmap_take | rewrite <- fmap_app].
  rewrite IH.
  destruct (_gnutls_qsort compar fuel _ _) as [part2|]; [|reflexivity].
  rewrite length_fmap.
  repeat first [rewrite <- fmap_drop | rewrite <- fmap_take | rewrite <- fmap_app].
  reflexivity.
Qed.

End SortRelabel.

(** ** The order of the offered suites *)

Lemma compare_sign_le (p1 p2 : Z) :
  ((if p1 >? p2 then 1 else if p1 =? p2 then 0 else -1) <=? 0) = (p1 <=? p2).
Proof.
  rewrite Z.gtb_ltb.
  destruct (p2 <? p1) eqn:Hgt; [|destruct (p1 =? p2) eqn:Heq].
  - apply Z.ltb_lt in Hgt. symmetry. apply Z.leb_gt. lia.
  - apply Z.eqb_eq in Heq. symmetry. apply Z.leb_le. lia.
  - apply Z.ltb_ge in Hgt. symmetry. apply Z.leb_le. lia.
Qed.

Lemma compare_sign_ge (p1 p2 : Z) :
  ((if p1 >? p2 then 1 else if p1 =? p2 then 0 else -1) >=? 0) = (p1 >=? p2).
Proof.
  rewrite Z.gtb_ltb, (Z.geb_leb p1 p2).
  destruct (p2 <? p1) eqn:Hgt; [|destruct (p1 =? p2) eqn:Heq].
  - apply Z.ltb_lt in Hgt. symmetry. apply Z.leb_le. lia.
  - apply Z.eqb_eq in Heq. symmetry. apply Z.leb_le. lia.
  - apply Z.ltb_ge in Hgt. apply Z.eqb_neq in Heq. symmetry. apply Z.leb_gt. lia.
Qed.

Section SortedSuites.
Context `{gnutls_h}.

Lemma compare_algo_weight_score (session : gnutls_session) (c : GNUTLS_CipherSuite) :
  compare_algo_weight session c = score session c.
Proof. reflexivity. Qed.

Lemma compare_algo_le (session : gnutls_session) (a b : GNUTLS_CipherSuite) :
  (_gnutls_compare_algo session a b <=? 0) = (score session a <=? score session b).
Proof.
  exact (compare_sign_le (score session a) (score session b)).
Qed.

Lemma compare_algo_ge (session : gnutls_session) (a b : GNUTLS_CipherSuite) :
  (_gnutls_compare_algo session a b >=? 0) = (score session a >=? score session b).
Proof.
  exact (compare_sign_ge (score session a) (score session b)).
Qed.

Lemma supported_ciphersuites_length (session : gnutls_session)
    (ciphers : list GNUTLS_CipherSuite) :
  _gnutls_supported_ciphersuites session = Success ciphers ->
  (length ciphers <= 31)%nat.
Proof.
  rewrite supported_ciphersuites_unfold.
  remember (List.filter (suite_kept session (gnutls_protocol_get_version session))
              (map cs_id cs_algorithms)) as kept eqn:Hf.
  destruct kept as [|c0 l]; [discriminate|].
  intros Heq. injection Heq as <-. rewrite Hf.
  apply (sublist_length _ (map cs_id cs_algorithms)), sublist_filter.
Qed.

(** C2, as the code has it.  With fuel 64 or more
    [_gnutls_supported_ciphersuites_sorted] returns; an error of
    [_gnutls_supported_ciphersuites] is passed on, and otherwise the
    result is the list of [_gnutls_supported_ciphersuites] rearranged so
    that for any two suites A before B, score(A) <= score(B), with score
    (rank(kx)+1)*64 + (rank(cipher)+1)*8 + rank(mac).  Nothing is said
    about the order of suites of equal score. *)
Theorem supported_ciphersuites_sorted_ascending (session : gnutls_session)
    (fuel : nat) :
  (64 <= fuel)%nat ->
  exists res : gnutls_result GNUTLS_CipherSuite,
    _gnutls_supported_ciphersuites_sorted fuel session = Some res
    /\ match res with
       | Success l =>
           exists l0, _gnutls_supported_ciphersuites session = Success l0
                      /\ l ≡ₚ l0 /\ ascending_by_score session l
       | Failure e => _gnutls_supported_ciphersuites session = Failure e
       end.
Proof.
  intros Hfuel. unfold _gnutls_supported_ciphersuites_sorted.
  destruct (_gnutls_supported_ciphersuites session) as [e|ciphers] eqn:Hs.
  - exists (Failure e). split; reflexivity.
  - pose proof (supported_ciphersuites_length session ciphers Hs) as Hlen.
    destruct (length ciphers <=? 0)%nat eqn:Hcount.
    + apply Nat.leb_le in Hcount. exists (Success ciphers).
      split; [reflexivity|]. exists ciphers.
      split; [reflexivity|]. split; [reflexivity|].
      destruct ciphers; [|simpl in Hcount; lia].
      intros i j a b _ Hi. discriminate.
    + destruct (gnutls_qsort_spec (_gnutls_compare_algo session) (score session)
                  (compare_algo_le session) (compare_algo_ge session)
                  fuel ciphers (length ciphers) eq_refl)
        as (sorted & He & Hperm & Hasc); [left; lia|].
      rewrite He. exists (Success sorted). split; [reflexivity|].
      exists ciphers. split; [reflexivity|]. split; [exact Hperm|].
      intros i j a b Hij Hi Hj.
      exact (ascending_lookup (score session) sorted i j a b Hasc Hij Hi Hj).
Qed.

End SortedSuites.

(** ** The reordered tie does not depend on the values of the constants *)

Lemma NoDup_eqb_false (l : list Z) (i j : nat) (a b : Z) :
  List.NoDup l -> l !! i = Some a -> l !! j = Some b -> i <> j -> (a =? b) = false.
Proof.
  intros Hd Hi Hj Hne. apply Z.eqb_neq. intros ->. apply Hne.
  apply NoDup_ListNoDup in Hd. exact (NoDup_lookup l i j b Hd Hi Hj).
Qed.

Lemma filter_cons_true {T : Type} (f : T -> bool) (x : T) (l : list T) :
  f x = true -> List.filter f (x :: l) = x :: List.filter f l.
Proof. intros Hx. simpl. now rewrite Hx. Qed.

Lemma filter_cons_false {T : Type} (f : T -> bool) (x : T) (l : list T) :
  f x = false -> List.filter f (x :: l) = List.filter f l.
Proof. intros Hx. simpl. now rewrite Hx. Qed.

(** The sort of the six suites of [session_ties], each labelled with its
    score and compared by the label. *)
Lemma ties_sorted_labelled (HB : Inhabited (Z * GNUTLS_CipherSuite)) :
  @_gnutls_qsort _ HB
    (fun x y => if fst x >? fst y then 1 else if fst x =? fst y then 0 else -1)
    64
    [(168, GNUTLS_ANON_DH_3DES_EDE_CBC_SHA); (136, GNUTLS_ANON_DH_AES_128_CBC_SHA);
     (200, GNUTLS_ANON_DH_AES_256_CBC_SHA); (104, GNUTLS_DHE_RSA_3DES_EDE_CBC_SHA);
     (72, GNUTLS_DHE_RSA_AES_128_CBC_SHA); (136, GNUTLS_DHE_RSA_AES_256_CBC_SHA)]
    6
  = Some [(72, GNUTLS_DHE_RSA_AES_128_CBC_SHA); (104, GNUTLS_DHE_RSA_3DES_EDE_CBC_SHA);
          (136, GNUTLS_DHE_RSA_AES_256_CBC_SHA); (136, GNUTLS_ANON_DH_AES_128_CBC_SHA);
          (168, GNUTLS_ANON_DH_3DES_EDE_CBC_SHA); (200, GNUTLS_ANON_DH_AES_256_CBC_SHA)].
Proof. vm_compute. reflexivity. Qed.

Section TiesAnyConstants.
Context `{gnutls_h}.
Hypothesis kx_distinct :
  List.NoDup [GNUTLS_KX_RSA; GNUTLS_KX_DHE_DSS; GNUTLS_KX_DHE_RSA; GNUTLS_KX_ANON_DH;
              GNUTLS_KX_SRP; GNUTLS_KX_RSA_EXPORT; GNUTLS_KX_SRP_RSA; GNUTLS_KX_SRP_DSS].
Hypothesis cipher_distinct :
  List.NoDup [GNUTLS_CIPHER_NULL; GNUTLS_CIPHER_ARCFOUR_128; GNUTLS_CIPHER_3DES_CBC;
              GNUTLS_CIPHER_AES_128_CBC; GNUTLS_CIPHER_AES_256_CBC;
              GNUTLS_CIPHER_TWOFISH_128_CBC; GNUTLS_CIPHER_ARCFOUR_40;
              GNUTLS_CIPHER_RC2_40_CBC; GNUTLS_CIPHER_DES_CBC].
Hypothesis mac_distinct : List.NoDup [GNUTLS_MAC_NULL; GNUTLS_MAC_MD5; GNUTLS_MAC_SHA].
Hypothesis version_order : GNUTLS_SSL3 <= GNUTLS_TLS1.

(** The position of a constant in a list of constants, by syntax. *)
Ltac index_in a l :=
  lazymatch l with
  | a :: _ => constr:(O)
  | _ :: ?l' => let n := index_in a l' in constr:(S n)
  end.

(** Decide one test [a =? b] between two constants of the list [Hd] is
    about. *)
Ltac eqb_by Hd :=
  lazymatch type of Hd with
  | List.NoDup ?l =>
      match goal with
      | |- context [?a =? ?b] =>
          let i := index_in a l in
          let j := index_in b l in
          first [ rewrite (Z.eqb_refl a)
                | rewrite (NoDup_eqb_false l i j a b Hd eq_refl eq_refl
                             ltac:(discriminate)) ]
      end
  end.

Ltac decide_constants :=
  repeat first
    [ eqb_by kx_distinct | eqb_by cipher_distinct | eqb_by mac_distinct
    | rewrite (proj2 (Z.ltb_ge GNUTLS_TLS1 GNUTLS_SSL3) version_order)
    | rewrite (Z.ltb_irrefl GNUTLS_TLS1) ].

Ltac solve_kept :=
  unfold suite_kept; cbn; rewrite ?Z.gtb_ltb; decide_constants;
  vm_compute; reflexivity.

Ltac solve_score :=
  unfold score; cbn; decide_constants; vm_compute; reflexivity.

Lemma ties_supported :
  _gnutls_supported_ciphersuites session_ties
  = Success [GNUTLS_ANON_DH_3DES_EDE_CBC_SHA; GNUTLS_ANON_DH_AES_128_CBC_SHA;
             GNUTLS_ANON_DH_AES_256_CBC_SHA; GNUTLS_DHE_RSA_3DES_EDE_CBC_SHA;
             GNUTLS_DHE_RSA_AES_128_CBC_SHA; GNUTLS_DHE_RSA_AES_256_CBC_SHA].
Proof using All.
  rewrite supported_ciphersuites_unfold.
  cbn [map cs_id cs_algorithms GNUTLS_CIPHER_SUITE_ENTRY].
  repeat first [ rewrite filter_cons_false by solve_kept
               | rewrite filter_cons_true by solve_kept ].
  reflexivity.
Qed.

Lemma ties_score_values :
  score session_ties GNUTLS_ANON_DH_3DES_EDE_CBC_SHA = 168
  /\ score session_ties GNUTLS_ANON_DH_AES_128_CBC_SHA = 136
  /\ score session_ties GNUTLS_ANON_DH_AES_256_CBC_SHA = 200
  /\ score session_ties GNUTLS_DHE_RSA_3DES_EDE_CBC_SHA = 104
  /\ score session_ties GNUTLS_DHE_RSA_AES_128_CBC_SHA = 72
  /\ score session_ties GNUTLS_DHE_RSA_AES_256_CBC_SHA = 136.
Proof using All.
  repeat split; solve_score.
Qed.

Lemma ties_sorted :
  _gnutls_supported_ciphersuites_sorted 64 session_ties
  = Some (Success [GNUTLS_DHE_RSA_AES_128_CBC_SHA; GNUTLS_DHE_RSA_3DES_EDE_CBC_SHA;
                   GNUTLS_DHE_RSA_AES_256_CBC_SHA; GNUTLS_ANON_DH_AES_128_CBC_SHA;
                   GNUTLS_ANON_DH_3DES_EDE_CBC_SHA; GNUTLS_ANON_DH_AES_256_CBC_SHA]).
Proof using All.
  unfold _gnutls_supported_ciphersuites_sorted. rewrite ties_supported.
  cbn [length Nat.leb].
  destruct ties_score_values as (S1 & S2 & S3 & S4 & S5 & S6).
  set (f := fun c : GNUTLS_CipherSuite => (score session_ties c, c)).
  pose proof (relabel_qsort (HB := populate (f inhabitant)) f
                (_gnutls_compare_algo session_ties)
                (fun x y => if fst x >? fst y then 1
                            else if fst x =? fst y then 0 else -1)
                (fun a b => eq_refl) eq_refl 64
                [GNUTLS_ANON_DH_3DES_EDE_CBC_SHA; GNUTLS_ANON_DH_AES_128_CBC_SHA;
                 GNUTLS_ANON_DH_AES_256_CBC_SHA; GNUTLS_DHE_RSA_3DES_EDE_CBC_SHA;
                 GNUTLS_DHE_RSA_AES_128_CBC_SHA; GNUTLS_DHE_RSA_AES_256_CBC_SHA] 6)
    as Hr.
  cbn [fmap list_fmap] in Hr. unfold f at 2 3 4 5 6 7 in Hr.
  rewrite S1, S2, S3, S4, S5, S6, ties_sorted_labelled in Hr.
  destruct (_gnutls_qsort _ _ _ _) as [sorted|]; [|discriminate Hr].
  injection Hr as Hr.
  assert (Hid : snd <$> (f <$> sorted) = sorted).
  { clear Hr. induction sorted as [|c l IH]; [reflexivity|].
    cbn [fmap list_fmap] in *. now rewrite IH. }
  rewrite <- Hid, <- Hr. reflexivity.
Qed.

(** For every assignment of the constants that keeps the kx, cipher and
    mac constants apart and SSL 3.0 not above TLS 1.0, [session_ties]
    gets its two suites of score 136 in the reverse of table order. *)
Lemma ties_reordered_for_distinct_constants :
  ~ sorted_by_score_and_stable session_ties.
Proof using All.
  intros Hclaim.
  destruct (Hclaim 64%nat _ ties_sorted) as [_ Hties].
  destruct ties_score_values as (_ & S2 & _ & _ & _ & S6).
  destruct (Hties 2%nat 3%nat GNUTLS_DHE_RSA_AES_256_CBC_SHA
              GNUTLS_ANON_DH_AES_128_CBC_SHA)
    as (i' & j' & Hlt & Hi' & Hj'); [lia|reflexivity|reflexivity|congruence|].
  pose proof (proj2 (NoDup_ListNoDup _) cs_algorithms_ids_NoDup) as Hnd.
  assert (i' = 22%nat) by (eapply (NoDup_lookup _ _ _ _ Hnd); [exact Hi'|reflexivity]).
  assert (j' = 2%nat) by (eapply (NoDup_lookup _ _ _ _ Hnd); [exact Hj'|reflexivity]).
  lia.
Qed.

End TiesAnyConstants.

(** C2, as stated, fails: for [session_ties] the suites
    DHE_RSA_AES_256_CBC_SHA (0x00,0x39) and ANON_DH_AES_128_CBC_SHA
    (0x00,0x34) both score 136 and come out in this order, while the
    table lists the ANON_DH suite first. *)
Lemma sorted_suites_ties_reordered :
  ~ @sorted_by_score_and_stable gnutls_h_sample (@session_ties gnutls_h_sample).
Proof.
  intros Hclaim.
  destruct (Hclaim 64%nat
              [(0x00, 0x33); (0x00, 0x16); (0x00, 0x39);
               (0x00, 0x34); (0x00, 0x1B); (0x00, 0x3A)])
    as [_ Hties]; [vm_compute; reflexivity|].
  destruct (Hties 2%nat 3%nat (0x00, 0x39) (0x00, 0x34))
    as (i' & j' & Hlt & Hi' & Hj'); [lia|reflexivity|reflexivity|reflexivity|].
  pose proof (proj2 (NoDup_ListNoDup _) (@cs_algorithms_ids_NoDup gnutls_h_sample))
    as Hnd.
  assert (i' = 22%nat) by (eapply (NoDup_lookup _ _ _ _ Hnd); [exact Hi'|reflexivity]).
  assert (j' = 2%nat) by (eapply (NoDup_lookup _ _ _ _ Hnd); [exact Hj'|reflexivity]).
  lia.
Qed.

(** ** The code on concrete inputs *)

(** The scenario of the specification: DHE_RSA_AES_256_CBC_SHA comes
    before DHE_RSA_AES_128_CBC_SHA, both before every RSA suite, and no
    ANON_DH, SRP or private suite is offered. *)
Example scenario_sorted_suites :
  @_gnutls_supported_ciphersuites_sorted gnutls_h_sample 64
    (@session_scenario gnutls_h_sample)
  = Some (Success [GNUTLS_DHE_RSA_AES_256_CBC_SHA; GNUTLS_DHE_RSA_AES_128_CBC_SHA;
                   GNUTLS_DHE_RSA_3DES_EDE_CBC_SHA; GNUTLS_RSA_AES_256_CBC_SHA;
                   GNUTLS_RSA_AES_128_CBC_SHA; GNUTLS_RSA_3DES_EDE_CBC_SHA]).
Proof. vm_compute. reflexivity. Qed.

(** [session_ties] before and after the sort, with the scores. *)
Example ties_unsorted_suites :
  @_gnutls_supported_ciphersuites gnutls_h_sample (@session_ties gnutls_h_sample)
  = Success [GNUTLS_ANON_DH_3DES_EDE_CBC_SHA; GNUTLS_ANON_DH_AES_128_CBC_SHA;
             GNUTLS_ANON_DH_AES_256_CBC_SHA; GNUTLS_DHE_RSA_3DES_EDE_CBC_SHA;
             GNUTLS_DHE_RSA_AES_128_CBC_SHA; GNUTLS_DHE_RSA_AES_256_CBC_SHA].
Proof. vm_compute. reflexivity. Qed.

Example ties_sorted_suites :
  @_gnutls_supported_ciphersuites_sorted gnutls_h_sample 64
    (@session_ties gnutls_h_sample)
  = Some (Success [GNUTLS_DHE_RSA_AES_128_CBC_SHA; GNUTLS_DHE_RSA_3DES_EDE_CBC_SHA;
                   GNUTLS_DHE_RSA_AES_256_CBC_SHA; GNUTLS_ANON_DH_AES_128_CBC_SHA;
                   GNUTLS_ANON_DH_3DES_EDE_CBC_SHA; GNUTLS_ANON_DH_AES_256_CBC_SHA]).
Proof. vm_compute. reflexivity. Qed.

Example ties_scores :
  map (@score gnutls_h_sample (@session_ties gnutls_h_sample))
    [GNUTLS_DHE_RSA_AES_128_CBC_SHA; GNUTLS_DHE_RSA_3DES_EDE_CBC_SHA;
     GNUTLS_DHE_RSA_AES_256_CBC_SHA; GNUTLS_ANON_DH_AES_128_CBC_SHA;
     GNUTLS_ANON_DH_3DES_EDE_CBC_SHA; GNUTLS_ANON_DH_AES_256_CBC_SHA]
  = [72; 104; 136; 136; 168; 200].
Proof. vm_compute. reflexivity. Qed.

(** One call of [_gnutls_partition] on integers compared by value: the
    pivot 5 ends at index 3 with the smaller records before it. *)
Example partition_of_integers :
  _gnutls_partition (fun a b : Z => if a >? b then 1 else if a =? b then 0 else -1)
    10 [5; 3; 8; 1; 9; 2] 6
  = Some ([1; 3; 2; 5; 9; 8], 3%nat).
Proof. vm_compute. reflexivity. Qed.

(** With too little fuel the model gives no result. *)
Example qsort_out_of_fuel :
  _gnutls_qsort (fun a b : Z => if a >? b then 1 else if a =? b then 0 else -1)
    3 [3; 2; 1] 3 = None.
Proof. vm_compute. reflexivity. Qed.

(** ** The theorems at concrete sessions *)

(** C1 at [session_scenario]: the six suites returned, among them
    DHE_RSA_AES_256_CBC_SHA, are acceptable. *)
Lemma supported_ciphersuites_acceptable_witness :
  @_gnutls_supported_ciphersuites gnutls_h_sample (@session_scenario gnutls_h_sample)
  = Success [(0x00, 0x16); (0x00, 0x33); (0x00, 0x39);
             (0x00, 0x0A); (0x00, 0x2F); (0x00, 0x35)]
  /\ @suite_acceptable gnutls_h_sample (@session_scenario gnutls_h_sample) (0x00, 0x39).
Proof.
  split; [vm_compute; reflexivity|].
  apply (@supported_ciphersuites_acceptable gnutls_h_sample
           (@session_scenario gnutls_h_sample)
           [(0x00, 0x16); (0x00, 0x33); (0x00, 0x39);
            (0x00, 0x0A); (0x00, 0x2F); (0x00, 0x35)]).
  - vm_compute; reflexivity.
  - simpl. auto.
Defined.

(** C2 (amended) at [session_scenario] with fuel 64. *)
Lemma supported_ciphersuites_sorted_ascending_witness :
  (64 <= 64)%nat
  /\ exists res : gnutls_result GNUTLS_CipherSuite,
       @_gnutls_supported_ciphersuites_sorted gnutls_h_sample 64
         (@session_scenario gnutls_h_sample) = Some res
       /\ match res with
          | Success l =>
              exists l0,
                @_gnutls_supported_ciphersuites gnutls_h_sample
                  (@session_scenario gnutls_h_sample) = Success l0
                /\ l ≡ₚ l0
                /\ @ascending_by_score gnutls_h_sample
                     (@session_scenario gnutls_h_sample) l
          | Failure e =>
              @_gnutls_supported_ciphersuites gnutls_h_sample
                (@session_scenario gnutls_h_sample) = Failure e
          end.
Proof.
  split; [lia|].
  apply (@supported_ciphersuites_sorted_ascending gnutls_h_sample
           (@session_scenario gnutls_h_sample) 64%nat).
  lia.
Defined.

(** C3 at [session_scenario] for the identifier 3 (DHE_RSA, 3DES_CBC and
    SHA in [gnutls_h_sample]). *)
Lemma priority_is_rank_witness :
  let session := @session_scenario gnutls_h_sample in
  (Z.of_nat (length (kx_algorithm_priority session)) <= 2 ^ 31
   /\ is_rank_of (kx_algorithm_priority session) 3 (_gnutls_kx_priority session 3))
  /\ (Z.of_nat (length (cipher_algorithm_priority session)) <= 2 ^ 31
      /\ is_rank_of (cipher_algorithm_priority session) 3
           (_gnutls_cipher_priority session 3))
  /\ (Z.of_nat (length (mac_algorithm_priority session)) <= 2 ^ 31
      /\ is_rank_of (mac_algorithm_priority session) 3
           (_gnutls_mac_priority session 3)).
Proof.
  intros session.
  destruct (priority_is_rank session 3) as (Hkx & Hcipher & Hmac).
  assert (Hk : Z.of_nat (length (kx_algorithm_priority session)) <= 2 ^ 31)
    by (vm_compute; discriminate).
  assert (Hc : Z.of_nat (length (cipher_algorithm_priority session)) <= 2 ^ 31)
    by (vm_compute; discriminate).
  assert (Hm : Z.of_nat (length (mac_algorithm_priority session)) <= 2 ^ 31)
    by (vm_compute; discriminate).
  exact (conj (conj Hk (Hkx Hk)) (conj (conj Hc (Hcipher Hc)) (conj Hm (Hmac Hm)))).
Defined.


(** C6 at [session_scenario] with an allocator that answers every
    request: the wire numbers of NULL and zlib, in list order. *)
Lemma supported_compression_methods_output_witness :
  let session := @session_scenario gnutls_h_sample in
  let kept := List.filter (@compression_entry_kept gnutls_h_sample session)
                (compression_method_priority session) in
  compression_array_allocated malloc_succeeds session = true
  /\ kept <> []
  /\ @_gnutls_supported_compression_methods gnutls_h_sample malloc_succeeds session
     = Success (map (@_gnutls_compression_get_num gnutls_h_sample) kept)
  /\ map (@_gnutls_compression_get_num gnutls_h_sample) kept = [0; 1].
Proof.
  intros session kept.
  assert (Hyes : compression_array_allocated malloc_succeeds session = true)
    by reflexivity.
  assert (Hkept : kept <> []) by (vm_compute; discriminate).
  split; [exact Hyes|]. split; [exact Hkept|].
  split; [|vm_compute; reflexivity].
  exact (proj2 (proj2 (@supported_compression_methods_output gnutls_h_sample
                         malloc_succeeds session)) Hyes Hkept).
Defined.

(** C5 at the first entry of the table, ANON_DH_ARCFOUR_MD5. *)
Lemma suite_by_algorithms_decomposes_witness :
  let p := GNUTLS_CIPHER_SUITE_ENTRY "GNUTLS_ANON_DH_ARCFOUR_MD5"
             GNUTLS_ANON_DH_ARCFOUR_MD5 2 4 2 1 in
  In p (@cs_algorithms gnutls_h_sample)
  /\ exists q : gnutls_cipher_suite_entry,
       In q (@cs_algorithms gnutls_h_sample)
       /\ @gnutls_cipher_suite_get_name gnutls_h_sample 4 2 2
          = Some (string_skip 7 (cs_name q))
       /\ @_gnutls_cipher_suite_get_name gnutls_h_sample (cs_id q)
          = Some (string_skip 7 (cs_name q))
       /\ (forall q', In q' (@cs_algorithms gnutls_h_sample) ->
             string_skip 7 (cs_name q') = string_skip 7 (cs_name q) -> q' = q)
       /\ @_gnutls_cipher_suite_get_kx_algo gnutls_h_sample (cs_id q) = 4
       /\ @_gnutls_cipher_suite_get_cipher_algo gnutls_h_sample (cs_id q) = 2
       /\ @_gnutls_cipher_suite_get_mac_algo gnutls_h_sample (cs_id q) = 2.
Proof.
  intros p.
  assert (Hp : In p (@cs_algorithms gnutls_h_sample)) by (left; reflexivity).
  split; [exact Hp|].
  exact (@suite_by_algorithms_decomposes gnutls_h_sample p Hp).
Defined.

(** C8 at the identifier 1000, which no table carries. *)
Lemma unknown_algorithm_sentinels_witness :
  (forall p, In p (@algorithms gnutls_h_sample) -> cipher_id p <> 1000)
  /\ (forall p, In p (@hash_algorithms gnutls_h_sample) -> hash_id p <> 1000)
  /\ @_gnutls_cipher_get_block_size gnutls_h_sample 1000 = 0
  /\ @gnutls_cipher_get_key_size gnutls_h_sample 1000 = 0
  /\ @_gnutls_mac_get_digest_size gnutls_h_sample 1000 = 0.
Proof.
  assert (Hc : forall p, In p (@algorithms gnutls_h_sample) -> cipher_id p <> 1000).
  { intros p Hp. simpl in Hp.
    repeat (destruct Hp as [<-|Hp]; [simpl; discriminate|]). destruct Hp. }
  assert (Hm : forall p, In p (@hash_algorithms gnutls_h_sample) -> hash_id p <> 1000).
  { intros p Hp. simpl in Hp.
    repeat (destruct Hp as [<-|Hp]; [simpl; discriminate|]). destruct Hp. }
  destruct (@unknown_algorithm_sentinels gnutls_h_sample 1000) as (Hcipher & Hmac).
  destruct (Hcipher Hc) as (Hblock & Hkey).
  exact (conj Hc (conj Hm (conj Hblock (conj Hkey (Hmac Hm))))).
Defined.

(** C9 at [session_scenario]. *)
Lemma supported_ciphersuites_subsequence_witness :
  let ciphers := [(0x00, 0x16); (0x00, 0x33); (0x00, 0x39);
                  (0x00, 0x0A); (0x00, 0x2F); (0x00, 0x35)] in
  @_gnutls_supported_ciphersuites gnutls_h_sample (@session_scenario gnutls_h_sample)
  = Success ciphers
  /\ sublist ciphers (map cs_id (@cs_algorithms gnutls_h_sample))
  /\ forall c,
       (count_occ CipherSuite_eq_dec ciphers c
        <= count_occ CipherSuite_eq_dec (map cs_id (@cs_algorithms gnutls_h_sample)) c)%nat.
Proof.
  intros ciphers.
  assert (Hs : @_gnutls_supported_ciphersuites gnutls_h_sample
                 (@session_scenario gnutls_h_sample) = Success ciphers)
    by (vm_compute; reflexivity).
  split; [exact Hs|].
  exact (@supported_ciphersuites_subsequence gnutls_h_sample
           (@session_scenario gnutls_h_sample) ciphers Hs).
Defined.

(** C10 at the identifier 2 (zlib in [gnutls_h_sample]) and at the
    identifier 77, which the table does not carry. *)
Lemma compression_num_roundtrip_witness :
  (exists p, In p (@_gnutls_compression_algorithms gnutls_h_sample) /\ comp_id p = 2)
  /\ @_gnutls_compression_get_id gnutls_h_sample
       (@_gnutls_compression_get_num gnutls_h_sample 2) = 2
  /\ (forall p, In p (@_gnutls_compression_algorithms gnutls_h_sample) ->
        comp_id p <> 77)
  /\ @_gnutls_compression_get_num gnutls_h_sample 77 = -1.
Proof.
  assert (Hin : exists p, In p (@_gnutls_compression_algorithms gnutls_h_sample)
                          /\ comp_id p = 2).
  { eexists. split; [right; left; reflexivity|reflexivity]. }
  assert (Hout : forall p, In p (@_gnutls_compression_algorithms gnutls_h_sample) ->
                   comp_id p <> 77).
  { intros p Hp. simpl in Hp.
    repeat (destruct Hp as [<-|Hp]; [simpl; discriminate|]). destruct Hp. }
  split; [exact Hin|].
  split; [exact (proj1 (@compression_num_roundtrip gnutls_h_sample 2) Hin)|].
  split; [exact Hout|].
  exact (proj2 (@compression_num_roundtrip gnutls_h_sample 77) Hout).
Defined.

(** * Properties of the rest of the file *)

(** ** Known and unknown identifiers *)

Lemma alg_loop_cases {E R : Type} (cond : E -> bool) (a : E -> R)
    (table : list E) (ret : R) :
  (alg_loop cond a table ret = ret /\ forall p, In p table -> cond p = false)
  \/ exists p, In p table /\ cond p = true /\ alg_loop cond a table ret = a p.
Proof.
  induction table as [|e rest IH]; simpl.
  - left. split; [reflexivity|]. intros p [].
  - destruct (cond e) eqn:He.
    + right. exists e. auto.
    + destruct IH as [[Hr Hno]|(p & Hin & Hc & Hr)].
      * left. split; [exact Hr|]. intros p [<-|Hp]; auto.
      * right. exists p. auto.
Qed.

Lemma is_ok_of_scan {E : Type} (key : E -> Z) (table : list E) (algorithm : Z) :
  (is_ok_of (alg_loop (fun p => key p =? algorithm) key table (-1)) = 0
   <-> 0 <= algorithm /\ exists p, In p table /\ key p = algorithm)
  /\ (is_ok_of (alg_loop (fun p => key p =? algorithm) key table (-1)) = 0
      \/ is_ok_of (alg_loop (fun p => key p =? algorithm) key table (-1)) = 1).
Proof.
  unfold is_ok_of.
  destruct (alg_loop_cases (fun p => key p =? algorithm) key table (-1))
    as [[Hr Hno]|(p & Hin & Hc & Hr)]; rewrite Hr.
  - split; [|right; reflexivity]. split; [discriminate|].
    intros (_ & q & Hq & Hk). specialize (Hno q Hq). cbv beta in Hno.
    apply Z.eqb_neq in Hno. contradiction.
  - apply Z.eqb_eq in Hc. rewrite Hc.
    destruct (algorithm >=? 0) eqn:Hge.
    + split; [|left; reflexivity]. split; [|reflexivity]. intros _.
      rewrite Z.geb_leb in Hge. apply Z.leb_le in Hge. split; [assumption|].
      exists p. auto.
    + split; [|right; reflexivity]. split; [discriminate|].
      rewrite Z.geb_leb in Hge. apply Z.leb_gt in Hge. intros [Hpos _]. lia.
Qed.

Section MoreTableProperties.
Context `{gnutls_h} `{gnutls_int_h}.

(** X1. Each [is_ok] test returns 0 or 1, and 0 exactly for a
    non-negative identifier that an entry of its table carries. *)
Theorem is_ok_zero_iff_known (algorithm : Z) :
  (_gnutls_cipher_is_ok algorithm = 0
   <-> 0 <= algorithm /\ exists p, In p algorithms /\ cipher_id p = algorithm)
  /\ (_gnutls_mac_is_ok algorithm = 0
      <-> 0 <= algorithm /\ exists p, In p hash_algorithms /\ hash_id p = algorithm)
  /\ (_gnutls_compression_is_ok algorithm = 0
      <-> 0 <= algorithm
          /\ exists p, In p _gnutls_compression_algorithms /\ comp_id p = algorithm)
  /\ (_gnutls_kx_is_ok algorithm = 0
      <-> 0 <= algorithm
          /\ exists p, In p _gnutls_kx_algorithms /\ kx_entry_algorithm p = algorithm)
  /\ (_gnutls_cipher_is_ok algorithm = 0 \/ _gnutls_cipher_is_ok algorithm = 1)
  /\ (_gnutls_mac_is_ok algorithm = 0 \/ _gnutls_mac_is_ok algorithm = 1)
  /\ (_gnutls_compression_is_ok algorithm = 0 \/ _gnutls_compression_is_ok algorithm = 1)
  /\ (_gnutls_kx_is_ok algorithm = 0 \/ _gnutls_kx_is_ok algorithm = 1).
Proof.
  pose proof (is_ok_of_scan cipher_id algorithms algorithm) as [Hc Hc'].
  pose proof (is_ok_of_scan hash_id hash_algorithms algorithm) as [Hm Hm'].
  pose proof (is_ok_of_scan comp_id _gnutls_compression_algorithms algorithm)
    as [Hz Hz'].
  pose proof (is_ok_of_scan kx_entry_algorithm _gnutls_kx_algorithms algorithm)
    as [Hk Hk'].
  exact (conj Hc (conj Hm (conj Hz (conj Hk (conj Hc' (conj Hm' (conj Hz' Hk'))))))).
Qed.

(** X2. [_gnutls_cipher_get_block_size] returns 0 exactly for the
    identifiers that no entry of [algorithms] carries: every cipher of the
    table, stream ciphers included, has a block size of at least 1. *)
Theorem block_size_zero_iff_unknown (algorithm : Z) :
  _gnutls_cipher_get_block_size algorithm = 0
  <-> forall p, In p algorithms -> cipher_id p <> algorithm.
Proof.
  unfold _gnutls_cipher_get_block_size, GNUTLS_ALG_LOOP.
  destruct (alg_loop_cases (fun p => cipher_id p =? algorithm) blocksize algorithms 0)
    as [[Hr Hno]|(p & Hin & Hc & Hr)]; rewrite Hr.
  - split; [|reflexivity]. intros _ p Hp. apply Z.eqb_neq. exact (Hno p Hp).
  - apply Z.eqb_eq in Hc. split.
    + intros Hz. exfalso. simpl in Hin.
      repeat (destruct Hin as [<-|Hin]; [simpl in Hz; discriminate|]).
      destruct Hin.
    + intros Hno. exfalso. exact (Hno p Hin Hc).
Qed.

End MoreTableProperties.

(** ** Cipher suites by identifier *)

Section MoreSuiteProperties.
Context `{gnutls_h}.

Lemma suite_alg_loop_unknown {R : Type} (a : gnutls_cipher_suite_entry -> R)
    (ret : R) (suite : GNUTLS_CipherSuite) :
  (forall p, In p cs_algorithms -> cs_id p <> suite) ->
  GNUTLS_CIPHER_SUITE_ALG_LOOP suite a ret = ret.
Proof.
  intros Hno. unfold GNUTLS_CIPHER_SUITE_ALG_LOOP. apply alg_loop_absent.
  intros p Hp. apply not_true_is_false. intros Hc.
  apply (Hno p Hp). now apply CipherSuite_eqb_eq.
Qed.

(** X3. On the identifier of an entry of [cs_algorithms] the accessors
    return the fields of that very entry (no other entry shares the
    identifier), the name accessor returns its name without the
    ["GNUTLS_"] prefix, and [_gnutls_cipher_suite_is_ok] returns 0. *)
Theorem suite_accessors_on_entry (q : gnutls_cipher_suite_entry) :
  In q cs_algorithms ->
  _gnutls_cipher_suite_get_kx_algo (cs_id q) = kx_algorithm q
  /\ _gnutls_cipher_suite_get_cipher_algo (cs_id q) = block_algorithm q
  /\ _gnutls_cipher_suite_get_mac_algo (cs_id q) = mac_algorithm q
  /\ _gnutls_cipher_suite_get_version (cs_id q) = cs_version q
  /\ _gnutls_cipher_suite_get_name (cs_id q) = Some (string_skip 7 (cs_name q))
  /\ _gnutls_cipher_suite_is_ok (cs_id q) = 0.
Proof.
  intros Hq.
  unfold _gnutls_cipher_suite_get_kx_algo, _gnutls_cipher_suite_get_cipher_algo,
    _gnutls_cipher_suite_get_mac_algo, _gnutls_cipher_suite_get_version,
    _gnutls_cipher_suite_get_name, _gnutls_cipher_suite_is_ok.
  rewrite !suite_alg_loop_entry by assumption. auto 10.
Qed.

(** X4. [_gnutls_cipher_suite_is_ok] returns 0 exactly for the
    identifiers of the table and 1 otherwise; for an identifier outside
    the table the four algorithm accessors return 0 and the name accessor
    [NULL]. *)
Theorem suite_unknown_identifier (suite : GNUTLS_CipherSuite) :
  (_gnutls_cipher_suite_is_ok suite = 0 <-> In suite (map cs_id cs_algorithms))
  /\ (~ In suite (map cs_id cs_algorithms) ->
      _gnutls_cipher_suite_is_ok suite = 1
      /\ _gnutls_cipher_suite_get_kx_algo suite = 0
      /\ _gnutls_cipher_suite_get_cipher_algo suite = 0
      /\ _gnutls_cipher_suite_get_mac_algo suite = 0
      /\ _gnutls_cipher_suite_get_version suite = 0
      /\ _gnutls_cipher_suite_get_name suite = None).
Proof.
  assert (Hunknown : ~ In suite (map cs_id cs_algorithms) ->
            forall p, In p cs_algorithms -> cs_id p <> suite).
  { intros Hno p Hp Heq. apply Hno. rewrite <- Heq. now apply in_map. }
  assert (Hsentinels : ~ In suite (map cs_id cs_algorithms) ->
      _gnutls_cipher_suite_is_ok suite = 1
      /\ _gnutls_cipher_suite_get_kx_algo suite = 0
      /\ _gnutls_cipher_suite_get_cipher_algo suite = 0
      /\ _gnutls_cipher_suite_get_mac_algo suite = 0
      /\ _gnutls_cipher_suite_get_version suite = 0
      /\ _gnutls_cipher_suite_get_name suite = None).
  { intros Hno. specialize (Hunknown Hno).
    unfold _gnutls_cipher_suite_get_kx_algo, _gnutls_cipher_suite_get_cipher_algo,
      _gnutls_cipher_suite_get_mac_algo, _gnutls_cipher_suite_get_version,
      _gnutls_cipher_suite_get_name, _gnutls_cipher_suite_is_ok.
    rewrite !suite_alg_loop_unknown by assumption. auto 10. }
  split; [|exact Hsentinels]. split.
  - intros Hok. destruct (in_dec CipherSuite_eq_dec suite (map cs_id cs_algorithms))
      as [Hin|Hno]; [assumption|].
    destruct (Hsentinels Hno) as [H1 _]. rewrite H1 in Hok. discriminate.
  - intros Hin. apply in_map_iff in Hin as (q & <- & Hq).
    unfold _gnutls_cipher_suite_is_ok. now rewrite suite_alg_loop_entry.
Qed.

(** X5. The names identify the suites: two identifiers for which
    [_gnutls_cipher_suite_get_name] returns the same name are equal. *)
Theorem suite_name_identifies_suite (s1 s2 : GNUTLS_CipherSuite) (name : string) :
  _gnutls_cipher_suite_get_name s1 = Some name ->
  _gnutls_cipher_suite_get_name s2 = Some name ->
  s1 = s2.
Proof.
  assert (Hentry : forall s, _gnutls_cipher_suite_get_name s = Some name ->
            exists p, In p cs_algorithms /\ cs_id p = s
                      /\ string_skip 7 (cs_name p) = name).
  { intros s Hs. unfold _gnutls_cipher_suite_get_name, GNUTLS_CIPHER_SUITE_ALG_LOOP in Hs.
    destruct (alg_loop_cases
                (fun p => (fst (cs_id p) =? fst s) && (snd (cs_id p) =? snd s))
                (fun p => Some (string_skip 7 (cs_name p))) cs_algorithms None)
      as [[Hr _]|(p & Hin & Hc & Hr)]; rewrite Hr in Hs; [discriminate|].
    injection Hs as Hs. exists p. split; [assumption|]. split; [|assumption].
    now apply CipherSuite_eqb_eq. }
  intros H1 H2.
  destruct (Hentry s1 H1) as (p1 & Hp1 & <- & Hn1).
  destruct (Hentry s2 H2) as (p2 & Hp2 & <- & Hn2).
  f_equal.
  apply (NoDup_map_injective (fun p => string_skip 7 (cs_name p)) cs_algorithms p1 p2
           cs_algorithms_names_NoDup Hp1 Hp2).
  congruence.
Qed.

End MoreSuiteProperties.

(** ** Compression methods *)

Section MoreCompressionProperties.
Context `{gnutls_h}.

(** X6. A wire number carried by an entry of
    [_gnutls_compression_algorithms] maps to an identifier that maps back
    to the number, provided the two identifiers of the table differ; a
    number that no entry carries maps to -1. *)
Theorem compression_id_roundtrip (num : Z) :
  (GNUTLS_COMP_NULL <> GNUTLS_COMP_ZLIB ->
   (exists p, In p _gnutls_compression_algorithms /\ comp_num p = num) ->
   _gnutls_compression_get_num (_gnutls_compression_get_id num) = num)
  /\ ((forall p, In p _gnutls_compression_algorithms -> comp_num p <> num) ->
      _gnutls_compression_get_id num = -1).
Proof.
  split.
  - intros Hne (p & Hin & Hnum).
    unfold _gnutls_compression_get_id, _gnutls_compression_get_num,
      GNUTLS_COMPRESSION_ALG_LOOP_NUM, GNUTLS_COMPRESSION_ALG_LOOP,
      _gnutls_compression_algorithms in *.
    destruct HAVE_LIBZ; simpl in *.
    + destruct Hin as [<-|[<-|[]]]; simpl in Hnum; subst num; simpl.
      * now rewrite Z.eqb_refl.
      * rewrite Z.eqb_refl.
        rewrite (proj2 (Z.eqb_neq GNUTLS_COMP_NULL GNUTLS_COMP_ZLIB) Hne).
        reflexivity.
    + destruct Hin as [<-|[]]; simpl in Hnum; subst num; simpl.
      now rewrite Z.eqb_refl.
  - intros Hno. unfold _gnutls_compression_get_id, GNUTLS_COMPRESSION_ALG_LOOP_NUM.
    apply alg_loop_absent. intros p Hp. apply Z.eqb_neq. auto.
Qed.

(** X7. The compression accessors agree on whether a method exists: the
    wire number, the window bits, the memory level and the compression
    level are -1, and the name is [NULL], exactly when no entry carries
    the identifier. *)
Theorem compression_accessors_agree (algorithm : Z) :
  let unknown := forall p, In p _gnutls_compression_algorithms ->
                   comp_id p <> algorithm in
  (_gnutls_compression_get_num algorithm = -1 <-> unknown)
  /\ (_gnutls_compression_get_wbits algorithm = -1 <-> unknown)
  /\ (_gnutls_compression_get_mem_level algorithm = -1 <-> unknown)
  /\ (_gnutls_compression_get_comp_level algorithm = -1 <-> unknown)
  /\ (gnutls_compression_get_name algorithm = None <-> unknown).
Proof.
  intros unknown.
  assert (Hscan : forall (R : Type) (a : gnutls_compression_entry -> R) (ret : R),
            (forall p, In p _gnutls_compression_algorithms -> a p <> ret) ->
            (GNUTLS_COMPRESSION_ALG_LOOP algorithm a ret = ret <-> unknown)).
  { intros R a ret Hval. unfold GNUTLS_COMPRESSION_ALG_LOOP.
    destruct (alg_loop_cases (fun p => comp_id p =? algorithm) a
                _gnutls_compression_algorithms ret)
      as [[Hr Hno]|(p & Hin & Hc & Hr)]; rewrite Hr.
    - split; [|reflexivity]. intros _ p Hp. apply Z.eqb_neq. exact (Hno p Hp).
    - apply Z.eqb_eq in Hc. split.
      + intros Heq. exfalso. exact (Hval p Hin Heq).
      + intros Hun. exfalso. exact (Hun p Hin Hc). }
  assert (Hvalues : forall p, In p _gnutls_compression_algorithms ->
            comp_num p <> -1 /\ window_bits p <> -1 /\ mem_level p <> -1
            /\ comp_level p <> -1).
  { intros p Hp. unfold _gnutls_compression_algorithms in Hp.
    destruct HAVE_LIBZ; simpl in Hp.
    - destruct Hp as [<-|[<-|[]]]; simpl; repeat split; discriminate.
    - destruct Hp as [<-|[]]; simpl; repeat split; discriminate. }
  split; [apply Hscan; intros p Hp; apply (Hvalues p Hp)|].
  split; [apply Hscan; intros p Hp; apply (Hvalues p Hp)|].
  split; [apply Hscan; intros p Hp; apply (Hvalues p Hp)|].
  split; [apply Hscan; intros p Hp; apply (Hvalues p Hp)|].
  apply (Hscan _ (fun p => Some (string_skip 12 (comp_name p))) None).
  intros p _. discriminate.
Qed.

End MoreCompressionProperties.

(** ** Protocol versions *)

Lemma version_lowest_loop_spec (l : list Z) (m : Z) :
  version_lowest_loop l m <= m
  /\ (forall x, In x l -> version_lowest_loop l m <= x)
  /\ (version_lowest_loop l m = m \/ In (version_lowest_loop l m) l).
Proof.
  revert m. induction l as [|a l IH]; intros m; simpl.
  - split; [lia|]. split; [intros x []|now left].
  - destruct (IH (if a <? m then a else m)) as (H1 & H2 & H3).
    destruct (a <? m) eqn:Ha.
    + apply Z.ltb_lt in Ha. split; [lia|]. split.
      * intros x [<-|Hx]; [assumption|now apply H2].
      * right. destruct H3 as [->|H3]; [now left|now right].
    + apply Z.ltb_ge in Ha. split; [assumption|]. split.
      * intros x [<-|Hx]; [lia|now apply H2].
      * destruct H3 as [H3|H3]; [now left|right; now right].
Qed.

Lemma version_max_loop_spec (l : list Z) (m : Z) :
  m <= version_max_loop l m
  /\ (forall x, In x l -> x <= version_max_loop l m)
  /\ (version_max_loop l m = m \/ In (version_max_loop l m) l).
Proof.
  revert m. induction l as [|a l IH]; intros m; simpl.
  - split; [lia|]. split; [intros x []|now left].
  - destruct (IH (if a >? m then a else m)) as (H1 & H2 & H3).
    rewrite Z.gtb_ltb in *.
    destruct (m <? a) eqn:Ha.
    + apply Z.ltb_lt in Ha. split; [lia|]. split.
      * intros x [<-|Hx]; [assumption|now apply H2].
      * right. destruct H3 as [->|H3]; [now left|now right].
    + apply Z.ltb_ge in Ha. split; [assumption|]. split.
      * intros x [<-|Hx]; [lia|now apply H2].
      * destruct H3 as [H3|H3]; [now left|right; now right].
Qed.

Section VersionProperties.
Context `{gnutls_h} `{gnutls_int_h}.

(** X8. The two numbers of a version of [sup_versions] map back to the
    version; two numbers of the table map to a version that has them,
    provided the two version constants differ; an unknown version has
    major and minor -1 and no name, and unknown numbers map to -1. *)
Theorem version_numbers_roundtrip :
  (forall version,
     (exists p, In p sup_versions /\ version_id p = version) ->
     _gnutls_version_get (_gnutls_version_get_major version)
       (_gnutls_version_get_minor version) = version)
  /\ (GNUTLS_SSL3 <> GNUTLS_TLS1 ->
      forall major0 minor0,
        (exists p, In p sup_versions /\ major p = major0 /\ minor p = minor0) ->
        _gnutls_version_get_major (_gnutls_version_get major0 minor0) = major0
        /\ _gnutls_version_get_minor (_gnutls_version_get major0 minor0) = minor0)
  /\ (forall version,
        (forall p, In p sup_versions -> version_id p <> version) ->
        _gnutls_version_get_major version = -1
        /\ _gnutls_version_get_minor version = -1
        /\ gnutls_protocol_get_name version = None)
  /\ (forall major0 minor0,
        (forall p, In p sup_versions -> ~ (major p = major0 /\ minor p = minor0)) ->
        _gnutls_version_get major0 minor0 = -1).
Proof.
  split; [|split; [|split]].
  - intros version (p & Hin & Hid).
    unfold _gnutls_version_get, _gnutls_version_get_major, _gnutls_version_get_minor,
      GNUTLS_VERSION_ALG_LOOP, sup_versions in *. simpl in *.
    destruct (GNUTLS_SSL3 =? version) eqn:E0; simpl.
    + now apply Z.eqb_eq in E0.
    + destruct (GNUTLS_TLS1 =? version) eqn:E1; simpl.
      * now apply Z.eqb_eq in E1.
      * apply Z.eqb_neq in E0, E1.
        destruct Hin as [<-|[<-|[]]]; simpl in Hid; contradiction.
  - intros Hne major0 minor0 (p & Hin & Hmaj & Hmin).
    unfold _gnutls_version_get, _gnutls_version_get_major, _gnutls_version_get_minor,
      GNUTLS_VERSION_ALG_LOOP, sup_versions in *. simpl in *.
    destruct Hin as [<-|[<-|[]]]; simpl in Hmaj, Hmin; subst major0 minor0; simpl.
    + rewrite Z.eqb_refl. auto.
    + rewrite Z.eqb_refl.
      rewrite (proj2 (Z.eqb_neq GNUTLS_SSL3 GNUTLS_TLS1) Hne). auto.
  - intros version Hno.
    unfold _gnutls_version_get_major, _gnutls_version_get_minor,
      gnutls_protocol_get_name, GNUTLS_VERSION_ALG_LOOP.
    rewrite !alg_loop_absent; auto; intros p Hp; apply Z.eqb_neq; auto.
  - intros major0 minor0 Hno.
    assert (E0 : (3 =? major0) && (0 =? minor0) = false).
    { apply not_true_is_false. intros E.
      apply andb_true_iff in E as [Ea Eb]. apply Z.eqb_eq in Ea, Eb.
      apply (Hno _ (or_introl eq_refl)). simpl. auto. }
    assert (E1 : (3 =? major0) && (1 =? minor0) = false).
    { apply not_true_is_false. intros E.
      apply andb_true_iff in E as [Ea Eb]. apply Z.eqb_eq in Ea, Eb.
      apply (Hno _ (or_intror (or_introl eq_refl))). simpl. auto. }
    unfold _gnutls_version_get, sup_versions.
    cbn [all_loop major minor version_id]. rewrite E0, E1. reflexivity.
Qed.

(** X9. [_gnutls_version_is_supported] returns 1 exactly when the version
    is SSL 3.0 or TLS 1.0 and occurs in the session's protocol priority
    list, and 0 otherwise, in particular when the list pointer is [NULL].
    The list is taken to have at most 2^31 entries. *)
Theorem version_is_supported_iff (protocol_priority : option (list Z))
    (version : Z) :
  (forall l, protocol_priority = Some l -> Z.of_nat (length l) <= 2 ^ 31) ->
  (_gnutls_version_is_supported protocol_priority version = 1
   <-> (version = GNUTLS_SSL3 \/ version = GNUTLS_TLS1)
       /\ exists l, protocol_priority = Some l /\ In version l)
  /\ (_gnutls_version_is_supported protocol_priority version = 1
      \/ _gnutls_version_is_supported protocol_priority version = 0).
Proof.
  intros Hlen. unfold _gnutls_version_is_supported.
  assert (Hflag : (GNUTLS_VERSION_ALG_LOOP version supported 0 = 1
                   /\ (version = GNUTLS_SSL3 \/ version = GNUTLS_TLS1))
                  \/ (GNUTLS_VERSION_ALG_LOOP version supported 0 = 0
                      /\ version <> GNUTLS_SSL3 /\ version <> GNUTLS_TLS1)).
  { unfold GNUTLS_VERSION_ALG_LOOP, sup_versions. simpl.
    destruct (GNUTLS_SSL3 =? version) eqn:E0; simpl.
    - apply Z.eqb_eq in E0. left. auto.
    - destruct (GNUTLS_TLS1 =? version) eqn:E1; simpl.
      + apply Z.eqb_eq in E1. left. auto.
      + apply Z.eqb_neq in E0, E1. right. auto. }
  destruct Hflag as [[-> Hv]|(-> & Hn0 & Hn1)]; simpl.
  - destruct protocol_priority as [l|]; simpl.
    + destruct (priority_loop_is_rank l version (Hlen l eq_refl)) as [Habs Hpres].
      destruct (priority_loop l version 0 <? 0) eqn:Hneg.
      * apply Z.ltb_lt in Hneg. split; [|now right]. split; [discriminate|].
        intros (_ & l' & Heq & Hin). injection Heq as <-.
        destruct (Hpres Hin) as (n & Hn & _). lia.
      * apply Z.ltb_ge in Hneg. split; [|now left]. split; [|reflexivity].
        intros _. split; [assumption|]. exists l. split; [reflexivity|].
        destruct (in_dec Z.eq_dec version l) as [Hin|Hno]; [assumption|].
        apply Habs in Hno. lia.
    + split; [|now right]. split; [discriminate|].
      intros (_ & l & Heq & _). discriminate.
  - split; [|now right]. split; [discriminate|].
    intros ([Hv|Hv] & _); congruence.
Qed.

(** X10. [_gnutls_version_lowest] returns the least entry of the protocol
    priority list when some entry is below 0xff, and
    [GNUTLS_VERSION_UNKNOWN] when the pointer is [NULL] or no entry is
    below 0xff (an empty list included); [_gnutls_version_max] returns the
    greatest entry when some entry is above 0, and
    [GNUTLS_VERSION_UNKNOWN] otherwise.  The entries are taken between 0
    and 2^31 - 1, where the comparison with the [unsigned int] bound and
    the conversion of the result to the enumeration change no value. *)
Theorem version_lowest_and_max (l : list Z) :
  (forall x, In x l -> 0 <= x < 2 ^ 31) ->
  _gnutls_version_lowest None = GNUTLS_VERSION_UNKNOWN
  /\ _gnutls_version_max None = GNUTLS_VERSION_UNKNOWN
  /\ ((forall x, In x l -> 0xff <= x) ->
      _gnutls_version_lowest (Some l) = GNUTLS_VERSION_UNKNOWN)
  /\ ((exists x, In x l /\ x < 0xff) ->
      In (_gnutls_version_lowest (Some l)) l
      /\ forall x, In x l -> _gnutls_version_lowest (Some l) <= x)
  /\ ((forall x, In x l -> x <= 0) ->
      _gnutls_version_max (Some l) = GNUTLS_VERSION_UNKNOWN)
  /\ ((exists x, In x l /\ 0 < x) ->
      In (_gnutls_version_max (Some l)) l
      /\ forall x, In x l -> x <= _gnutls_version_max (Some l)).
Proof.
  intros _. split; [reflexivity|]. split; [reflexivity|].
  destruct (version_lowest_loop_spec l 0xff) as (L1 & L2 & L3).
  destruct (version_max_loop_spec l 0) as (M1 & M2 & M3).
  unfold _gnutls_version_lowest, _gnutls_version_max. cbv zeta.
  split; [|split; [|split]].
  - intros Hall. destruct L3 as [->|L3]; [reflexivity|].
    specialize (Hall _ L3).
    replace (version_lowest_loop l 255) with 255 by lia. reflexivity.
  - intros (x & Hx & Hlt). specialize (L2 x Hx).
    destruct (version_lowest_loop l 255 =? 255) eqn:E.
    + apply Z.eqb_eq in E. lia.
    + apply Z.eqb_neq in E. destruct L3 as [L3|L3]; [contradiction|].
      split; [assumption|]. intros y Hy. now apply (proj1 (proj2 (version_lowest_loop_spec l 255))).
  - intros Hall. destruct M3 as [->|M3]; [reflexivity|].
    specialize (Hall _ M3).
    replace (version_max_loop l 0) with 0 by lia. reflexivity.
  - intros (x & Hx & Hlt). specialize (M2 x Hx).
    destruct (version_max_loop l 0 =? 0) eqn:E.
    + apply Z.eqb_eq in E. lia.
    + apply Z.eqb_neq in E. destruct M3 as [M3|M3]; [contradiction|].
      split; [assumption|]. intros y Hy. now apply (proj1 (proj2 (version_max_loop_spec l 0))).
Qed.

(** X11. [_gnutls_version_priority] returns -1 when the priority pointer
    is [NULL] and otherwise the rank of the version in the list;
    [_gnutls_compression_priority] returns the rank of the method in the
    session's compression list (lists of at most 2^31 entries). *)
Theorem version_and_compression_rank (session : gnutls_session)
    (l : list Z) (a : Z) :
  _gnutls_version_priority None a = -1
  /\ (Z.of_nat (length l) <= 2 ^ 31 ->
      is_rank_of l a (_gnutls_version_priority (Some l) a))
  /\ (Z.of_nat (length (compression_method_priority session)) <= 2 ^ 31 ->
      is_rank_of (compression_method_priority session) a
        (_gnutls_compression_priority session a)).
Proof.
  split; [reflexivity|].
  split; intros Hlen; apply priority_loop_is_rank; assumption.
Qed.

End VersionProperties.

(** ** Credentials types and public-key algorithms *)

Section CredentialProperties.
Context `{gnutls_h} `{gnutls_int_h}.

(** X12. On [cred_mappings] the lookup by the client column finds the
    same kx algorithm as the lookup by the server column, for every
    credentials type: [_gnutls_map_kx_get_kx], which uses the server
    column for both roles, returns what the client column would give. *)
Theorem map_kx_get_kx_matches_client_column (type server : Z) :
  _gnutls_map_kx_get_kx type server
  = GNUTLS_KX_MAP_ALG_LOOP_CLIENT type cred_algorithm (-1).
Proof.
  unfold _gnutls_map_kx_get_kx, GNUTLS_KX_MAP_ALG_LOOP_SERVER,
    GNUTLS_KX_MAP_ALG_LOOP_CLIENT, cred_mappings.
  cbn [GNUTLS_KX_MAP_LOOP cred_algorithm client_type server_type].
  destruct (negb (server =? 0));
    repeat match goal with
    | |- context [if ?c then _ else _] => destruct c
    end; reflexivity.
Qed.

(** The entry a scan of [pk_mappings] for a kx algorithm stops on, if
    any: the same for every accessor. *)
Lemma pk_map_alg_loop_entry (kx : Z) (table : list gnutls_pk_map) :
  exists o : option gnutls_pk_map,
    (forall (R : Type) (a : gnutls_pk_map -> R) (ret : R),
       GNUTLS_PK_MAP_LOOP
         (fun p r => if pk_kx_algorithm p =? kx then (a p, true) else (r, false))
         table ret
       = match o with Some p => a p | None => ret end)
    /\ (forall p, o = Some p ->
          In p table /\ pk_kx_algorithm p <> 0 /\ pk_kx_algorithm p = kx).
Proof.
  induction table as [|e rest (o & Hscan & Hentry)].
  - exists None. split; [reflexivity|discriminate].
  - destruct (pk_kx_algorithm e =? 0) eqn:Hz.
    + exists None. split; [|discriminate]. intros R a ret. simpl. now rewrite Hz.
    + destruct (pk_kx_algorithm e =? kx) eqn:Hk.
      * exists (Some e). split.
        -- intros R a ret. simpl. now rewrite Hz, Hk.
        -- intros p Hp. injection Hp as <-. apply Z.eqb_neq in Hz.
           apply Z.eqb_eq in Hk. split; [now left|auto].
      * exists o. split.
        -- intros R a ret. simpl. rewrite Hz, Hk. apply Hscan.
        -- intros p Hp. destruct (Hentry p Hp) as (Hin & Hnz & Hkx).
           split; [now right|auto].
Qed.

(** X13. [_gnutls_map_pk_get_pk] and [_gnutls_kx_encipher_type] agree on
    which kx algorithms have a certificate: one returns -1 exactly when
    the other returns [CIPHER_IGN]; and [CIPHER_ENCRYPT] is returned for
    [GNUTLS_KX_RSA] only.  The constants are taken non-negative for the
    public-key algorithms and pairwise distinct for the encipher types. *)
Theorem pk_and_encipher_type_agree (kx : Z) :
  GNUTLS_PK_RSA <> -1 -> GNUTLS_PK_DSA <> -1 ->
  CIPHER_ENCRYPT <> CIPHER_IGN -> CIPHER_SIGN <> CIPHER_IGN ->
  CIPHER_ENCRYPT <> CIPHER_SIGN ->
  (_gnutls_map_pk_get_pk kx = -1 <-> _gnutls_kx_encipher_type kx = CIPHER_IGN)
  /\ (_gnutls_kx_encipher_type kx = CIPHER_ENCRYPT -> kx = GNUTLS_KX_RSA).
Proof.
  intros Hrsa Hdsa Henc Hsign Hes.
  unfold _gnutls_map_pk_get_pk, _gnutls_kx_encipher_type, GNUTLS_PK_MAP_ALG_LOOP.
  destruct (pk_map_alg_loop_entry kx pk_mappings) as (o & Hscan & Hentry).
  rewrite !Hscan. destruct o as [p|].
  - destruct (Hentry p eq_refl) as (Hin & Hnz & Hkx).
    unfold pk_mappings in Hin. simpl in Hin.
    destruct Hin as [<-|[<-|[<-|[<-|[<-|[<-|[<-|[]]]]]]]]; simpl in *;
      try (exfalso; apply Hnz; reflexivity);
      (split; [split; intros Heq; exfalso; auto|]);
      intros Heq; auto; exfalso; auto.
  - split; [split; reflexivity|]. intros Heq. exfalso. auto.
Qed.

End CredentialProperties.

(** ** Key exchange algorithms *)

Lemma alg_loop_none {E R : Type} (cond : E -> bool) (a : E -> R) (table : list E) :
  alg_loop cond (fun p => Some (a p)) table None = None
  <-> forall p, In p table -> cond p = false.
Proof.
  destruct (alg_loop_cases cond (fun p => Some (a p)) table None)
    as [[Hr Hno]|(p & Hin & Hc & Hr)]; rewrite Hr.
  - split; [intros _; exact Hno|reflexivity].
  - split; [discriminate|]. intros Hno. rewrite (Hno p Hin) in Hc. discriminate.
Qed.

Section KxProperties.
Context `{gnutls_h} `{gnutls_int_h}.

(** X14. The three key-exchange accessors agree on which algorithms
    exist: [gnutls_kx_get_name] and [_gnutls_kx_auth_struct] return [NULL]
    for the same algorithms, those that no entry of
    [_gnutls_kx_algorithms] carries, and for a non-negative algorithm
    [_gnutls_kx_is_ok] returns 0 exactly when there is an auth struct. *)
Theorem kx_accessors_agree (algorithm : Z) :
  (gnutls_kx_get_name algorithm = None <-> _gnutls_kx_auth_struct algorithm = None)
  /\ (_gnutls_kx_auth_struct algorithm = None
      <-> forall p, In p _gnutls_kx_algorithms -> kx_entry_algorithm p <> algorithm)
  /\ (0 <= algorithm ->
      (_gnutls_kx_is_ok algorithm = 0 <-> _gnutls_kx_auth_struct algorithm <> None)).
Proof.
  unfold gnutls_kx_get_name, _gnutls_kx_auth_struct, _gnutls_kx_is_ok,
    GNUTLS_KX_ALG_LOOP.
  pose proof (alg_loop_none (fun p => kx_entry_algorithm p =? algorithm) kx_name
                _gnutls_kx_algorithms) as Hname.
  pose proof (alg_loop_none (fun p => kx_entry_algorithm p =? algorithm) auth_struct
                _gnutls_kx_algorithms) as Hauth.
  pose proof (proj1 (is_ok_of_scan kx_entry_algorithm _gnutls_kx_algorithms algorithm))
    as Hok.
  assert (Habsent :
    (forall p, In p _gnutls_kx_algorithms -> (kx_entry_algorithm p =? algorithm) = false)
    <-> (forall p, In p _gnutls_kx_algorithms -> kx_entry_algorithm p <> algorithm)).
  { split; intros Hno p Hp; apply Z.eqb_neq, Hno, Hp. }
  split; [rewrite Hname, Hauth; reflexivity|].
  split; [rewrite Hauth; exact Habsent|].
  intros Hpos. rewrite Hok, Hauth, Habsent. split.
  - intros (_ & p & Hp & Hid) Hno. exact (Hno p Hp Hid).
  - intros Hsome. split; [assumption|].
    destruct (alg_loop_cases (fun p => kx_entry_algorithm p =? algorithm)
                kx_entry_algorithm _gnutls_kx_algorithms (-1))
      as [[_ Hno]|(p & Hp & Hc & _)].
    + exfalso. apply Hsome. intros p Hp. apply Z.eqb_neq. exact (Hno p Hp).
    + exists p. split; [assumption|]. now apply Z.eqb_eq.
Qed.

End KxProperties.

Section CredentialRoundTrip.
Context `{gnutls_h}.
Hypothesis kx_distinct_nonzero :
  List.NoDup [0; GNUTLS_KX_ANON_DH; GNUTLS_KX_RSA; GNUTLS_KX_RSA_EXPORT;
              GNUTLS_KX_DHE_DSS; GNUTLS_KX_DHE_RSA; GNUTLS_KX_SRP;
              GNUTLS_KX_SRP_RSA; GNUTLS_KX_SRP_DSS].

Ltac position_in a l :=
  lazymatch l with
  | a :: _ => constr:(O)
  | _ :: ?l' => let n := position_in a l' in constr:(S n)
  end.

Ltac decide_kx_tests :=
  repeat match goal with
  | |- context [?a =? ?b] =>
      lazymatch type of kx_distinct_nonzero with
      | List.NoDup ?l =>
          let i := position_in a l in
          let j := position_in b l in
          first [ rewrite (Z.eqb_refl a)
                | rewrite (NoDup_eqb_false l i j a b kx_distinct_nonzero
                             eq_refl eq_refl ltac:(discriminate)) ]
      end
  end.

Lemma map_kx_get_cred_of_first_entries (server : Z) :
  _gnutls_map_kx_get_cred GNUTLS_KX_ANON_DH server = GNUTLS_CRD_ANON
  /\ _gnutls_map_kx_get_cred GNUTLS_KX_RSA server = GNUTLS_CRD_CERTIFICATE
  /\ _gnutls_map_kx_get_cred GNUTLS_KX_SRP server = GNUTLS_CRD_SRP.
Proof using kx_distinct_nonzero.
  unfold _gnutls_map_kx_get_cred, cred_mappings.
  destruct (negb (server =? 0));
    cbn [GNUTLS_KX_MAP_LOOP cred_algorithm client_type server_type];
    repeat split; decide_kx_tests; reflexivity.
Qed.

(** X15. When 0 and the eight kx constants are pairwise distinct, the kx
    algorithm that [_gnutls_map_kx_get_kx] returns for one of the three
    credentials types maps back to that type through
    [_gnutls_map_kx_get_cred], whatever the two role flags. *)
Theorem map_kx_cred_roundtrip (type role server : Z) :
  type = GNUTLS_CRD_ANON \/ type = GNUTLS_CRD_CERTIFICATE \/ type = GNUTLS_CRD_SRP ->
  _gnutls_map_kx_get_cred (_gnutls_map_kx_get_kx type role) server = type.
Proof using kx_distinct_nonzero.
  intros Htype.
  destruct (map_kx_get_cred_of_first_entries server) as (Hanon & Hcert & Hsrp).
  assert (Hkx : (_gnutls_map_kx_get_kx type role = GNUTLS_KX_ANON_DH
                 /\ type = GNUTLS_CRD_ANON)
                \/ (_gnutls_map_kx_get_kx type role = GNUTLS_KX_RSA
                    /\ type = GNUTLS_CRD_CERTIFICATE)
                \/ (_gnutls_map_kx_get_kx type role = GNUTLS_KX_SRP
                    /\ type = GNUTLS_CRD_SRP)).
  { unfold _gnutls_map_kx_get_kx, GNUTLS_KX_MAP_ALG_LOOP_SERVER, cred_mappings.
    cbn [GNUTLS_KX_MAP_LOOP cred_algorithm client_type server_type].
    assert (Hz : forall k, In k [GNUTLS_KX_ANON_DH; GNUTLS_KX_RSA; GNUTLS_KX_RSA_EXPORT;
                                 GNUTLS_KX_DHE_DSS; GNUTLS_KX_DHE_RSA; GNUTLS_KX_SRP;
                                 GNUTLS_KX_SRP_RSA; GNUTLS_KX_SRP_DSS] ->
                     (k =? 0) = false).
    { intros k Hk. apply Z.eqb_neq. intros ->.
      apply NoDup_cons_iff in kx_distinct_nonzero as [Hnotin _]. contradiction. }
    repeat match goal with
    | |- context [?k =? 0] => rewrite (Hz k) by (cbn [In]; tauto)
    end.
    destruct (GNUTLS_CRD_ANON =? type) eqn:Ea.
    { apply Z.eqb_eq in Ea. destruct (negb (role =? 0)); auto. }
    destruct (GNUTLS_CRD_CERTIFICATE =? type) eqn:Ec.
    { apply Z.eqb_eq in Ec. destruct (negb (role =? 0)); auto. }
    destruct (GNUTLS_CRD_SRP =? type) eqn:Es.
    { apply Z.eqb_eq in Es. destruct (negb (role =? 0)); auto. }
    apply Z.eqb_neq in Ea, Ec, Es. exfalso.
    destruct Htype as [ -> | [ -> | -> ] ]; contradiction. }
  destruct Hkx as [[-> ->]|[[-> ->]|[-> ->]]]; assumption.
Qed.

Lemma map_kx_get_cred_table (server : Z) :
  _gnutls_map_kx_get_cred GNUTLS_KX_ANON_DH server = GNUTLS_CRD_ANON
  /\ _gnutls_map_kx_get_cred GNUTLS_KX_RSA server = GNUTLS_CRD_CERTIFICATE
  /\ _gnutls_map_kx_get_cred GNUTLS_KX_RSA_EXPORT server = GNUTLS_CRD_CERTIFICATE
  /\ _gnutls_map_kx_get_cred GNUTLS_KX_DHE_DSS server = GNUTLS_CRD_CERTIFICATE
  /\ _gnutls_map_kx_get_cred GNUTLS_KX_DHE_RSA server = GNUTLS_CRD_CERTIFICATE
  /\ _gnutls_map_kx_get_cred GNUTLS_KX_SRP server = GNUTLS_CRD_SRP
  /\ _gnutls_map_kx_get_cred GNUTLS_KX_SRP_RSA server
     = (if server =? 0 then GNUTLS_CRD_SRP else GNUTLS_CRD_CERTIFICATE)
  /\ _gnutls_map_kx_get_cred GNUTLS_KX_SRP_DSS server
     = (if server =? 0 then GNUTLS_CRD_SRP else GNUTLS_CRD_CERTIFICATE).
Proof using kx_distinct_nonzero.
  unfold _gnutls_map_kx_get_cred, cred_mappings.
  destruct (server =? 0);
    cbn [negb GNUTLS_KX_MAP_LOOP cred_algorithm client_type server_type];
    repeat split; decide_kx_tests; reflexivity.
Qed.

Lemma suite_kx_in_cred_mappings (q : gnutls_cipher_suite_entry) :
  In q cs_algorithms ->
  In (kx_algorithm q)
    [GNUTLS_KX_ANON_DH; GNUTLS_KX_RSA; GNUTLS_KX_RSA_EXPORT; GNUTLS_KX_DHE_DSS;
     GNUTLS_KX_DHE_RSA; GNUTLS_KX_SRP; GNUTLS_KX_SRP_RSA; GNUTLS_KX_SRP_DSS].
Proof using Type.
  intros Hq. unfold cs_algorithms in Hq. cbn [In] in Hq.
  repeat (destruct Hq as [<-|Hq];
          [cbn [In kx_algorithm GNUTLS_CIPHER_SUITE_ENTRY]; auto 10|]).
  destruct Hq.
Qed.

Lemma suite_cipher_in_algorithms (q : gnutls_cipher_suite_entry) :
  In q cs_algorithms ->
  exists p, In p algorithms /\ cipher_id p = block_algorithm q.
Proof using Type.
  intros Hq.
  assert (Hid : In (block_algorithm q) (map cipher_id algorithms)).
  { unfold cs_algorithms in Hq. cbn [In] in Hq. unfold algorithms.
    cbn [map cipher_id].
    repeat (destruct Hq as [<-|Hq];
            [cbn [In block_algorithm GNUTLS_CIPHER_SUITE_ENTRY]; auto 12|]).
    destruct Hq. }
  apply in_map_iff in Hid as (p & Hp & Hin). eauto.
Qed.

(** X16. The tables fit together: the kx algorithm of every cipher suite
    of [cs_algorithms] has a credentials type in [cred_mappings], the same
    for both roles unless it is SRP_RSA or SRP_DSS (certificate for the
    server, SRP for the client), and its cipher has a block size of at
    least 1 in [algorithms].  0 and the eight kx constants are taken
    pairwise distinct. *)
Theorem suite_algorithms_are_known (q : gnutls_cipher_suite_entry) (server : Z) :
  In q cs_algorithms ->
  In (_gnutls_map_kx_get_cred (kx_algorithm q) server)
    [GNUTLS_CRD_ANON; GNUTLS_CRD_CERTIFICATE; GNUTLS_CRD_SRP]
  /\ (kx_algorithm q <> GNUTLS_KX_SRP_RSA -> kx_algorithm q <> GNUTLS_KX_SRP_DSS ->
      _gnutls_map_kx_get_cred (kx_algorithm q) server
      = _gnutls_map_kx_get_cred (kx_algorithm q) 0)
  /\ (kx_algorithm q = GNUTLS_KX_SRP_RSA \/ kx_algorithm q = GNUTLS_KX_SRP_DSS ->
      _gnutls_map_kx_get_cred (kx_algorithm q) 0 = GNUTLS_CRD_SRP
      /\ (server <> 0 ->
          _gnutls_map_kx_get_cred (kx_algorithm q) server = GNUTLS_CRD_CERTIFICATE))
  /\ 1 <= _gnutls_cipher_get_block_size (block_algorithm q).
Proof using kx_distinct_nonzero.
  intros Hq.
  pose proof (map_kx_get_cred_table server)
    as (Hs1 & Hs2 & Hs3 & Hs4 & Hs5 & Hs6 & Hs7 & Hs8).
  pose proof (map_kx_get_cred_table 0)
    as (Hc1 & Hc2 & Hc3 & Hc4 & Hc5 & Hc6 & Hc7 & Hc8).
  change (0 =? 0) with true in Hc7, Hc8.
  assert (Hdistinct :
    GNUTLS_KX_ANON_DH <> GNUTLS_KX_SRP_RSA /\ GNUTLS_KX_ANON_DH <> GNUTLS_KX_SRP_DSS
    /\ GNUTLS_KX_RSA <> GNUTLS_KX_SRP_RSA /\ GNUTLS_KX_RSA <> GNUTLS_KX_SRP_DSS
    /\ GNUTLS_KX_RSA_EXPORT <> GNUTLS_KX_SRP_RSA
    /\ GNUTLS_KX_RSA_EXPORT <> GNUTLS_KX_SRP_DSS
    /\ GNUTLS_KX_DHE_DSS <> GNUTLS_KX_SRP_RSA /\ GNUTLS_KX_DHE_DSS <> GNUTLS_KX_SRP_DSS
    /\ GNUTLS_KX_DHE_RSA <> GNUTLS_KX_SRP_RSA /\ GNUTLS_KX_DHE_RSA <> GNUTLS_KX_SRP_DSS
    /\ GNUTLS_KX_SRP <> GNUTLS_KX_SRP_RSA /\ GNUTLS_KX_SRP <> GNUTLS_KX_SRP_DSS).
  { repeat split; apply Z.eqb_neq; decide_kx_tests; reflexivity. }
  destruct Hdistinct as (D1 & D2 & D3 & D4 & D5 & D6 & D7 & D8 & D9 & D10 & D11 & D12).
  split; [|split; [|split]].
  - destruct (suite_kx_in_cred_mappings q Hq)
      as [<-|[<-|[<-|[<-|[<-|[<-|[<-|[<-|[]]]]]]]]];
      rewrite ?Hs1, ?Hs2, ?Hs3, ?Hs4, ?Hs5, ?Hs6, ?Hs7, ?Hs8;
      try destruct (server =? 0); cbn [In]; auto.
  - intros Hn1 Hn2.
    destruct (suite_kx_in_cred_mappings q Hq)
      as [E|[E|[E|[E|[E|[E|[E|[E|[]]]]]]]]]; rewrite <- E in Hn1, Hn2 |- *;
      congruence.
  - intros Hsrp.
    destruct (suite_kx_in_cred_mappings q Hq)
      as [E|[E|[E|[E|[E|[E|[E|[E|[]]]]]]]]]; rewrite <- E in Hsrp |- *;
      try (destruct Hsrp; contradiction).
    + split; [exact Hc7|]. intros Hne. rewrite Hs7.
      now rewrite (proj2 (Z.eqb_neq server 0) Hne).
    + split; [exact Hc8|]. intros Hne. rewrite Hs8.
      now rewrite (proj2 (Z.eqb_neq server 0) Hne).
  - destruct (suite_cipher_in_algorithms q Hq) as (p0 & Hp0 & Hid0).
    unfold _gnutls_cipher_get_block_size, GNUTLS_ALG_LOOP.
    destruct (alg_loop_cases (fun p => cipher_id p =? block_algorithm q) blocksize
                algorithms 0) as [[_ Hno]|(p & Hin & _ & ->)].
    + specialize (Hno p0 Hp0). cbv beta in Hno. rewrite Hid0, Z.eqb_refl in Hno.
      discriminate.
    + simpl in Hin.
      repeat (destruct Hin as [<-|Hin]; [simpl; lia|]). destruct Hin.
Qed.

End CredentialRoundTrip.

(** ** More about the suites offered by a session *)

Lemma rank_lookup (l : list Z) (a : Z) :
  Z.of_nat (length l) <= 2 ^ 31 -> 0 <= priority_loop l a 0 ->
  l !! Z.to_nat (priority_loop l a 0) = Some a
  /\ priority_loop l a 0 < Z.of_nat (length l).
Proof.
  intros Hlen Hr.
  destruct (in_dec Z.eq_dec a l) as [Hin|Hno].
  - destruct (priority_loop_present l a 0) as (n & Hn & Hl & _); [lia|lia|assumption|].
    rewrite Hn. replace (Z.to_nat (0 + Z.of_nat n)) with n by lia.
    split; [assumption|]. apply lookup_lt_Some in Hl. lia.
  - rewrite (priority_loop_absent l a 0 Hno) in Hr. lia.
Qed.

Lemma rank_injective (l : list Z) (a b : Z) :
  Z.of_nat (length l) <= 2 ^ 31 -> 0 <= priority_loop l a 0 ->
  priority_loop l a 0 = priority_loop l b 0 -> a = b.
Proof.
  intros Hlen Hr Heq.
  destruct (rank_lookup l a Hlen Hr) as [Ha _].
  destruct (rank_lookup l b Hlen) as [Hb _]; [lia|].
  rewrite <- Heq in Hb. congruence.
Qed.

Lemma sublist_filter_implies {T : Type} (f g : T -> bool) (l : list T) :
  (forall x, In x l -> f x = true -> g x = true) ->
  sublist (List.filter f l) (List.filter g l).
Proof.
  induction l as [|x l IH]; intros Hfg; simpl; [constructor|].
  assert (IH' : sublist (List.filter f l) (List.filter g l)).
  { apply IH. intros y Hy. apply Hfg. now right. }
  destruct (f x) eqn:Hf.
  - rewrite (Hfg x (or_introl eq_refl) Hf). now constructor.
  - destruct (g x); [now constructor|assumption].
Qed.

Section MoreSupportedProperties.
Context `{gnutls_h}.

Lemma supported_ciphersuites_is_filter (session : gnutls_session)
    (ciphers : list GNUTLS_CipherSuite) :
  _gnutls_supported_ciphersuites session = Success ciphers ->
  ciphers = List.filter (suite_kept session (gnutls_protocol_get_version session))
              (map cs_id cs_algorithms).
Proof.
  rewrite supported_ciphersuites_unfold.
  generalize (List.filter (suite_kept session (gnutls_protocol_get_version session))
                (map cs_id cs_algorithms)).
  intros [|c l] Heq; [discriminate|]. now injection Heq as <-.
Qed.

Lemma supported_ciphersuites_member (session : gnutls_session)
    (ciphers : list GNUTLS_CipherSuite) (c : GNUTLS_CipherSuite) :
  _gnutls_supported_ciphersuites session = Success ciphers ->
  (In c ciphers <-> In c (map cs_id cs_algorithms) /\ suite_acceptable session c).
Proof.
  intros Hs. rewrite (supported_ciphersuites_is_filter session ciphers Hs).
  rewrite filter_In, suite_kept_acceptable. reflexivity.
Qed.


(** X18. No suite is offered twice: the list returned by
    [_gnutls_supported_ciphersuites] has no duplicates, and it has at most
    as many entries as the table (31). *)
Theorem supported_ciphersuites_no_duplicates (session : gnutls_session)
    (ciphers : list GNUTLS_CipherSuite) :
  _gnutls_supported_ciphersuites session = Success ciphers ->
  List.NoDup ciphers /\ (1 <= length ciphers <= 31)%nat.
Proof.
  intros Hs. split.
  - rewrite (supported_ciphersuites_is_filter session ciphers Hs).
    apply List.NoDup_filter, cs_algorithms_ids_NoDup.
  - split; [|now apply (supported_ciphersuites_length session)].
    rewrite supported_ciphersuites_unfold in Hs.
    destruct (List.filter _ _); [discriminate|].
    injection Hs as <-. simpl. lia.
Qed.

(** X19. Enabling private suites or raising the protocol version never
    removes a suite from the offer: for two sessions with the same
    priority lists, the list of the more restricted one is a subsequence
    of the list of the other. *)
Theorem supported_ciphersuites_monotone (session session' : gnutls_session)
    (ciphers : list GNUTLS_CipherSuite) :
  kx_algorithm_priority session' = kx_algorithm_priority session ->
  cipher_algorithm_priority session' = cipher_algorithm_priority session ->
  mac_algorithm_priority session' = mac_algorithm_priority session ->
  protocol_version session <= protocol_version session' ->
  (enable_private session' = 0 -> enable_private session = 0) ->
  _gnutls_supported_ciphersuites session = Success ciphers ->
  exists ciphers',
    _gnutls_supported_ciphersuites session' = Success ciphers'
    /\ sublist ciphers ciphers'.
Proof.
  intros Hkx Hcipher Hmac Hversion Hprivate Hs.
  pose proof (supported_ciphersuites_is_filter session ciphers Hs) as Hf.
  assert (Hsub : sublist ciphers
            (List.filter (suite_kept session' (gnutls_protocol_get_version session'))
               (map cs_id cs_algorithms))).
  { rewrite Hf. apply sublist_filter_implies. intros c _.
    rewrite !suite_kept_acceptable. unfold suite_acceptable.
    unfold _gnutls_kx_priority, _gnutls_cipher_priority, _gnutls_mac_priority,
      gnutls_protocol_get_version.
    rewrite Hkx, Hcipher, Hmac. intros (Hk & Hc & Hm & Hv & Hp).
    repeat split; try assumption; [lia|]. intros Hz. now apply Hp, Hprivate. }
  rewrite supported_ciphersuites_unfold.
  destruct (List.filter (suite_kept session' _) _) as [|c0 l].
  - apply sublist_nil_r in Hsub. subst ciphers.
    rewrite supported_ciphersuites_unfold in Hs.
    destruct (List.filter (suite_kept session _) _); discriminate.
  - exists (c0 :: l). split; [reflexivity|assumption].
Qed.

Lemma score_determines_algorithms (session : gnutls_session)
    (a b : GNUTLS_CipherSuite) :
  Z.of_nat (length (kx_algorithm_priority session)) <= 2 ^ 31 ->
  (length (cipher_algorithm_priority session) <= 8)%nat ->
  (length (mac_algorithm_priority session) <= 8)%nat ->
  suite_acceptable session a -> suite_acceptable session b ->
  score session a = score session b ->
  _gnutls_cipher_suite_get_kx_algo a = _gnutls_cipher_suite_get_kx_algo b
  /\ _gnutls_cipher_suite_get_cipher_algo a = _gnutls_cipher_suite_get_cipher_algo b
  /\ _gnutls_cipher_suite_get_mac_algo a = _gnutls_cipher_suite_get_mac_algo b.
Proof.
  intros Hkx Hcipher Hmac (Ka & Ca & Ma & _) (Kb & Cb & Mb & _) Hscore.
  unfold score in Hscore.
  unfold _gnutls_kx_priority, _gnutls_cipher_priority, _gnutls_mac_priority in *.
  assert (Hc31 : Z.of_nat (length (cipher_algorithm_priority session)) <= 2 ^ 31) by lia.
  assert (Hm31 : Z.of_nat (length (mac_algorithm_priority session)) <= 2 ^ 31) by lia.
  destruct (rank_lookup _ _ Hc31 Ca) as [_ Ca'].
  destruct (rank_lookup _ _ Hc31 Cb) as [_ Cb'].
  destruct (rank_lookup _ _ Hm31 Ma) as [_ Ma'].
  destruct (rank_lookup _ _ Hm31 Mb) as [_ Mb'].
  split; [|split].
  - apply (rank_injective _ _ _ Hkx Ka). lia.
  - apply (rank_injective _ _ _ Hc31 Ca). lia.
  - apply (rank_injective _ _ _ Hm31 Ma). lia.
Qed.

(** X20. With at most eight ciphers and eight MACs enabled the score
    tells the algorithms apart: two acceptable suites of equal score have
    the same kx, the same cipher and the same MAC algorithm. *)
Theorem equal_score_equal_algorithms (session : gnutls_session)
    (a b : GNUTLS_CipherSuite) :
  Z.of_nat (length (kx_algorithm_priority session)) <= 2 ^ 31 ->
  (length (cipher_algorithm_priority session) <= 8)%nat ->
  (length (mac_algorithm_priority session) <= 8)%nat ->
  suite_acceptable session a -> suite_acceptable session b ->
  score session a = score session b ->
  _gnutls_cipher_suite_get_kx_algo a = _gnutls_cipher_suite_get_kx_algo b
  /\ _gnutls_cipher_suite_get_cipher_algo a = _gnutls_cipher_suite_get_cipher_algo b
  /\ _gnutls_cipher_suite_get_mac_algo a = _gnutls_cipher_suite_get_mac_algo b.
Proof. exact (score_determines_algorithms session a b). Qed.

Lemma sorted_suites_spec (session : gnutls_session) (fuel : nat)
    (l : list GNUTLS_CipherSuite) :
  (64 <= fuel)%nat ->
  _gnutls_supported_ciphersuites_sorted fuel session = Some (Success l) ->
  exists l0, _gnutls_supported_ciphersuites session = Success l0
             /\ l ≡ₚ l0 /\ ascending (score session) l.
Proof.
  intros Hfuel. unfold _gnutls_supported_ciphersuites_sorted.
  destruct (_gnutls_supported_ciphersuites session) as [e|ciphers] eqn:Hs;
    [discriminate|].
  pose proof (supported_ciphersuites_length session ciphers Hs) as Hlen.
  destruct (length ciphers <=? 0)%nat eqn:Hcount.
  - intros Heq. injection Heq as <-. exists ciphers.
    split; [reflexivity|]. split; [reflexivity|].
    apply ascending_short. apply Nat.leb_le in Hcount. lia.
  - destruct (gnutls_qsort_spec (_gnutls_compare_algo session) (score session)
                (compare_algo_le session) (compare_algo_ge session)
                fuel ciphers (length ciphers) eq_refl)
      as (sorted & He & Hperm & Hasc); [left; lia|].
    rewrite He. intros Heq. injection Heq as <-.
    exists ciphers. auto.
Qed.

(** X21. With at most eight ciphers and eight MACs enabled, and a table
    whose entries differ in their (kx, cipher, mac) triple, the sorted
    list is strictly ascending by score: no two offered suites tie, so
    the order of the offer is determined by the scores alone. *)
Theorem sorted_strictly_with_few_algorithms (session : gnutls_session)
    (fuel : nat) (l : list GNUTLS_CipherSuite) :
  Z.of_nat (length (kx_algorithm_priority session)) <= 2 ^ 31 ->
  (length (cipher_algorithm_priority session) <= 8)%nat ->
  (length (mac_algorithm_priority session) <= 8)%nat ->
  List.NoDup (map (fun p => (kx_algorithm p, block_algorithm p, mac_algorithm p))
                cs_algorithms) ->
  (64 <= fuel)%nat ->
  _gnutls_supported_ciphersuites_sorted fuel session = Some (Success l) ->
  (forall (i j : nat) (a b : GNUTLS_CipherSuite),
     (i < j)%nat -> l !! i = Some a -> l !! j = Some b ->
     score session a < score session b)
  /\ ties_in_table_order session l.
Proof.
  intros Hkx Hcipher Hmac Htriples Hfuel Hsorted.
  destruct (sorted_suites_spec session fuel l Hfuel Hsorted)
    as (l0 & Hs & Hperm & Hasc).
  assert (Hnd : List.NoDup l).
  { apply (Permutation_NoDup (l := l0)); [now symmetry|].
    rewrite (supported_ciphersuites_is_filter session l0 Hs).
    apply List.NoDup_filter, cs_algorithms_ids_NoDup. }
  assert (Hmem : forall c, In c l ->
            In c (map cs_id cs_algorithms) /\ suite_acceptable session c).
  { intros c Hc. apply (supported_ciphersuites_member session l0 c Hs).
    apply (Permutation_in c Hperm Hc). }
  assert (Hstrict : forall (i j : nat) (a b : GNUTLS_CipherSuite),
            (i < j)%nat -> l !! i = Some a -> l !! j = Some b ->
            score session a < score session b).
  { intros i j a b Hij Hi Hj.
    pose proof (ascending_lookup (score session) l i j a b Hasc Hij Hi Hj) as Hle.
    destruct (Z.eq_dec (score session a) (score session b)) as [Heq|Hne]; [|lia].
    exfalso.
    destruct (Hmem a) as [Ha Hacca];
      [apply list_elem_of_In; eapply list_elem_of_lookup_2; exact Hi|].
    destruct (Hmem b) as [Hb Haccb];
      [apply list_elem_of_In; eapply list_elem_of_lookup_2; exact Hj|].
    destruct (score_determines_algorithms session a b Hkx Hcipher Hmac
                Hacca Haccb Heq) as (Ek & Ec & Em).
    apply in_map_iff in Ha as (p & <- & Hp).
    apply in_map_iff in Hb as (q & <- & Hq).
    unfold _gnutls_cipher_suite_get_kx_algo, _gnutls_cipher_suite_get_cipher_algo,
      _gnutls_cipher_suite_get_mac_algo in Ek, Ec, Em.
    rewrite !suite_alg_loop_entry in Ek, Ec, Em by assumption.
    assert (p = q).
    { apply (NoDup_map_injective
               (fun p => (kx_algorithm p, block_algorithm p, mac_algorithm p))
               cs_algorithms p q Htriples Hp Hq).
      cbv beta. congruence. }
    subst q. apply NoDup_ListNoDup in Hnd.
    pose proof (NoDup_lookup l i j (cs_id p) Hnd Hi Hj). lia. }
  split; [exact Hstrict|].
  intros i j a b Hij Hi Hj Heq.
  specialize (Hstrict i j a b Hij Hi Hj). lia.
Qed.

(** X22. The suite sent first is the best one: the head of the sorted
    list is acceptable and no acceptable suite of the table has a smaller
    score. *)
Theorem sorted_head_has_least_score (session : gnutls_session) (fuel : nat)
    (c0 : GNUTLS_CipherSuite) (rest : list GNUTLS_CipherSuite) :
  (64 <= fuel)%nat ->
  _gnutls_supported_ciphersuites_sorted fuel session = Some (Success (c0 :: rest)) ->
  suite_acceptable session c0
  /\ forall c, In c (map cs_id cs_algorithms) -> suite_acceptable session c ->
       score session c0 <= score session c.
Proof.
  intros Hfuel Hsorted.
  destruct (sorted_suites_spec session fuel (c0 :: rest) Hfuel Hsorted)
    as (l0 & Hs & Hperm & Hasc).
  split.
  - apply (supported_ciphersuites_member session l0 c0 Hs).
    apply (Permutation_in c0 Hperm). now left.
  - intros c Hc Hacc.
    assert (Hin : In c (c0 :: rest)).
    { apply (Permutation_in c (Permutation_sym Hperm)).
      apply (supported_ciphersuites_member session l0 c Hs). auto. }
    destruct Hin as [<-|Hin]; [lia|].
    apply StronglySorted_inv in Hasc as [_ Hall].
    rewrite List.Forall_forall in Hall. now apply Hall.
Qed.

End MoreSupportedProperties.

(** ** More about the sort utility *)

Lemma ltb_zero_r (n : nat) : (n <? 0)%nat = false.
Proof. destruct n; reflexivity. Qed.

Section MoreSortProperties.
Context {A : Type} `{Inhabited A}.
Variable compar : A -> A -> Z.
Variable w : A -> Z.
Hypothesis compar_le : forall a b, (compar a b <=? 0) = (w a <=? w b).
Hypothesis compar_ge : forall a b, (compar a b >=? 0) = (w a >=? w b).

(** X24. For a comparator that orders by a weight, [_gnutls_partition] on
    an array of at least one record returns within [2 * (nmemb - 1)]
    passes of its outer loop; it rearranges the array and reports an index
    below [nmemb] such that no record before it is heavier and no record
    after it is lighter than the record at it. *)
Theorem partition_splits_at_pivot (fuel : nat) (base : list A) (nmemb : nat) :
  length base = nmemb -> (1 <= nmemb)%nat -> (2 * (nmemb - 1) <= fuel)%nat ->
  exists (base' : list A) (pivot : nat),
    _gnutls_partition compar fuel base nmemb = Some (base', pivot)
    /\ base' ≡ₚ base /\ length base' = nmemb /\ (pivot < nmemb)%nat
    /\ (forall m, (m < pivot)%nat -> w (base' !!! m) <= w (base' !!! pivot))
    /\ (forall m, (pivot < m < nmemb)%nat -> w (base' !!! pivot) <= w (base' !!! m)).
Proof using compar_le compar_ge.
  intros Hlen Hn Hfuel.
  destruct (gnutls_partition_spec compar w compar_le compar_ge fuel base nmemb
              Hlen Hn Hfuel)
    as (b & p & He & Hperm & Hlenb & Hp & Hbefore & Hafter & _).
  exists b, p. auto 10.
Qed.

(** X25. For a comparator that orders by a weight, [_gnutls_qsort]
    returns with fuel [2 * nmemb + 2], and its result is the array
    rearranged so that every record weighs at most every later one. *)
Theorem qsort_sorts_by_weight (fuel : nat) (base : list A) (nmemb : nat) :
  length base = nmemb -> (2 * nmemb + 2 <= fuel)%nat ->
  exists sorted : list A,
    _gnutls_qsort compar fuel base nmemb = Some sorted
    /\ sorted ≡ₚ base
    /\ forall (i j : nat) (a b : A),
         (i < j)%nat -> sorted !! i = Some a -> sorted !! j = Some b -> w a <= w b.
Proof using compar_le compar_ge.
  intros Hlen Hfuel.
  destruct (gnutls_qsort_spec compar w compar_le compar_ge fuel base nmemb Hlen)
    as (sorted & He & Hperm & Hasc); [left; assumption|].
  exists sorted. split; [assumption|]. split; [assumption|].
  intros i j a b. now apply (ascending_lookup w).
Qed.

Lemma partition_down_to_zero (base : list A) (ptmp : A) (j : nat) :
  (forall m, (0 < m <= j)%nat -> w ptmp <= w (base !!! m)) ->
  partition_down compar base ptmp j = O.
Proof using compar_ge.
  induction j as [|j IH]; intros Hall; cbn [partition_down]; [reflexivity|].
  rewrite compar_ge, Z.geb_leb.
  rewrite (proj2 (Z.leb_le _ _)) by (apply Hall; lia).
  apply IH. intros m Hm. apply Hall. lia.
Qed.

Lemma partition_of_ascending (fuel : nat) (x y : A) (rest : list A) :
  ascending w (x :: y :: rest) -> (1 <= fuel)%nat ->
  _gnutls_partition compar fuel (x :: y :: rest) (length (x :: y :: rest))
  = Some (x :: y :: rest, O).
Proof using compar_ge.
  intros Hasc Hfuel. unfold _gnutls_partition.
  assert (Hdown : partition_down compar (x :: y :: rest) x (length (y :: rest)) = O).
  { apply partition_down_to_zero. intros m Hm.
    apply (ascending_lookup w (x :: y :: rest) 0 m x ((x :: y :: rest) !!! m) Hasc);
      [lia|reflexivity|].
    apply list_lookup_lookup_total_lt. simpl in *. lia. }
  destruct fuel as [|fuel]; [lia|].
  cbn [length Nat.sub].
  change ((x :: y :: rest) !!! O) with x.
  rewrite partition_while_unfold. cbn [Nat.ltb Nat.leb]. cbv zeta.
  cbn [length] in Hdown. rewrite Hdown.
  rewrite partition_while_unfold, ltb_zero_r.
  reflexivity.
Qed.

Lemma qsort_of_ascending (fuel : nat) :
  forall (base : list A),
  ascending w base -> (length base + 1 <= fuel)%nat ->
  _gnutls_qsort compar fuel base (length base) = Some base.
Proof using compar_ge.
  induction fuel as [|fuel IH]; intros base Hasc Hfuel; [lia|].
  cbn [_gnutls_qsort].
  destruct base as [|x [|y rest]]; [reflexivity|reflexivity|].
  replace (length (x :: y :: rest) <=? 1)%nat with false by reflexivity.
  rewrite partition_of_ascending by (assumption || (simpl in Hfuel; lia)).
  cbn [length Nat.ltb Nat.leb Nat.add Nat.sub].
  unfold sub_array, set_sub_array. cbn [drop take length Nat.add app].
  pose proof (IH [x]) as IHhead. cbn [length] in IHhead.
  rewrite IHhead; [|apply ascending_short; simpl; lia|simpl in *; lia].
  cbn [drop take length Nat.add app].
  rewrite firstn_all.
  pose proof (IH (y :: rest)) as IHtail. cbn [length] in IHtail.
  rewrite IHtail.
  - cbn [length drop app]. now rewrite skipn_all, app_nil_r.
  - now apply StronglySorted_inv in Hasc as [Htail _].
  - simpl in Hfuel. lia.
Qed.

(** X26. An array that is already in ascending order of weight comes
    back from [_gnutls_qsort] exactly as it was, ties included; so
    sorting a second time changes nothing. *)
Theorem qsort_keeps_ascending_array (fuel : nat) (base : list A) :
  (2 * length base + 2 <= fuel)%nat ->
  (ascending w base ->
   _gnutls_qsort compar fuel base (length base) = Some base)
  /\ exists sorted : list A,
       _gnutls_qsort compar fuel base (length base) = Some sorted
       /\ _gnutls_qsort compar fuel sorted (length sorted) = Some sorted.
Proof using compar_le compar_ge.
  intros Hfuel. split.
  - intros Hasc. apply qsort_of_ascending; [assumption|lia].
  - destruct (gnutls_qsort_spec compar w compar_le compar_ge fuel base
                (length base) eq_refl)
      as (sorted & He & Hperm & Hasc); [left; assumption|].
    exists sorted. split; [assumption|].
    apply qsort_of_ascending; [assumption|].
    rewrite (Permutation_length Hperm). lia.
Qed.

End MoreSortProperties.

(** ** More about the compression methods of a session *)

Section MoreCompressionEnumeration.
Context `{gnutls_h}.

Lemma compression_get_id_of_num (algorithm : Z) :
  _gnutls_compression_get_num algorithm <> -1 ->
  _gnutls_compression_get_id (_gnutls_compression_get_num algorithm) = algorithm.
Proof.
  unfold _gnutls_compression_get_id, _gnutls_compression_get_num,
    GNUTLS_COMPRESSION_ALG_LOOP_NUM, GNUTLS_COMPRESSION_ALG_LOOP,
    _gnutls_compression_algorithms.
  destruct HAVE_LIBZ; simpl.
  - destruct (GNUTLS_COMP_NULL =? algorithm) eqn:E0; simpl.
    + intros _. now apply Z.eqb_eq in E0.
    + destruct (GNUTLS_COMP_ZLIB =? algorithm) eqn:E1; simpl.
      * intros _. now apply Z.eqb_eq in E1.
      * intros Hne. contradiction.
  - destruct (GNUTLS_COMP_NULL =? algorithm) eqn:E0; simpl.
    + intros _. now apply Z.eqb_eq in E0.
    + intros Hne. contradiction.
Qed.

(** X27. Every wire number that [_gnutls_supported_compression_methods]
    offers is 0 or 1 and decodes, through [_gnutls_compression_get_id], to
    a method of the session's compression priority list; the offer is
    never longer than the list. *)
Theorem offered_compression_decodes (gnutls_malloc : allocator)
    (session : gnutls_session) (comp : list Z) :
  _gnutls_supported_compression_methods gnutls_malloc session = Success comp ->
  (1 <= length comp <= length (compression_method_priority session))%nat
  /\ forall num, In num comp ->
       (num = 0 \/ num = 1)
       /\ In (_gnutls_compression_get_id num) (compression_method_priority session).
Proof.
  rewrite supported_compression_methods_unfold.
  destruct (compression_array_allocated gnutls_malloc session); [|discriminate].
  pose proof (sublist_length _ _
    (sublist_filter (compression_entry_kept session)
       (compression_method_priority session))) as Hlen.
  assert (Hall : forall a,
    In a (List.filter (compression_entry_kept session)
            (compression_method_priority session)) ->
    In a (compression_method_priority session)
    /\ compression_entry_kept session a = true)
    by (intros a Ha; apply filter_In in Ha; exact Ha).
  revert Hlen Hall.
  generalize (List.filter (compression_entry_kept session)
                (compression_method_priority session)).
  intros [|a0 kept] Hlen Hall; [discriminate|].
  intros Heq.
  assert (Hcomp : comp = map _gnutls_compression_get_num (a0 :: kept))
    by congruence.
  subst comp. split.
  - rewrite length_map. split; [simpl; lia|exact Hlen].
  - intros num Hnum. apply in_map_iff in Hnum as (a & <- & Ha).
    apply Hall in Ha as [Hin Hkept].
    unfold compression_entry_kept in Hkept.
    apply andb_true_iff in Hkept as [Hne _].
    apply negb_true_iff, Z.eqb_neq in Hne.
    split.
    + destruct (compression_get_num_range a) as [Hr|Hr]; [contradiction|exact Hr].
    + rewrite compression_get_id_of_num by assumption. exact Hin.
Qed.

End MoreCompressionEnumeration.

(** ** The further properties at concrete inputs *)

Section MoreWitnesses.
#[local] Existing Instance gnutls_h_sample.
#[local] Existing Instance gnutls_int_h_sample.

Ltac find_in_list := repeat (first [left; reflexivity | right]).

Ltac not_in_list :=
  let p := fresh "p" in
  let Hp := fresh "Hp" in
  intros p Hp; simpl in Hp;
  repeat (destruct Hp as [<-|Hp]; [simpl; intuition discriminate|]);
  destruct Hp.

(** X1 at AES 128 and at the identifier -3. *)
Lemma is_ok_zero_iff_known_witness :
  (0 <= GNUTLS_CIPHER_AES_128_CBC
   /\ exists p, In p algorithms /\ cipher_id p = GNUTLS_CIPHER_AES_128_CBC)
  /\ _gnutls_cipher_is_ok GNUTLS_CIPHER_AES_128_CBC = 0
  /\ ~ (0 <= -3 /\ exists p, In p hash_algorithms /\ hash_id p = -3)
  /\ _gnutls_mac_is_ok (-3) = 1.
Proof.
  assert (Hknown : 0 <= GNUTLS_CIPHER_AES_128_CBC
                   /\ exists p, In p algorithms
                                /\ cipher_id p = GNUTLS_CIPHER_AES_128_CBC).
  { split; [vm_compute; discriminate|].
    eexists. split; [right; left; reflexivity|reflexivity]. }
  assert (Hneg : ~ (0 <= -3 /\ exists p, In p hash_algorithms /\ hash_id p = -3)).
  { intros [Hpos _]. apply Hpos. reflexivity. }
  destruct (is_ok_zero_iff_known GNUTLS_CIPHER_AES_128_CBC) as (Hcipher & _).
  destruct (is_ok_zero_iff_known (-3)) as (_ & Hmac & _ & _ & _ & Hmac01 & _).
  split; [exact Hknown|]. split; [exact (proj2 Hcipher Hknown)|].
  split; [exact Hneg|].
  destruct Hmac01 as [Hzero|Hone]; [|exact Hone].
  exfalso. exact (Hneg (proj1 Hmac Hzero)).
Defined.

(** X2 at the identifier 1000. *)
Lemma block_size_zero_iff_unknown_witness :
  (forall p, In p algorithms -> cipher_id p <> 1000)
  /\ _gnutls_cipher_get_block_size 1000 = 0.
Proof.
  assert (Hout : forall p, In p algorithms -> cipher_id p <> 1000) by not_in_list.
  exact (conj Hout (proj2 (block_size_zero_iff_unknown 1000) Hout)).
Defined.

(** X7 at the identifier 77. *)
Lemma compression_accessors_agree_witness :
  (forall p, In p _gnutls_compression_algorithms -> comp_id p <> 77)
  /\ _gnutls_compression_get_num 77 = -1
  /\ _gnutls_compression_get_wbits 77 = -1
  /\ _gnutls_compression_get_mem_level 77 = -1
  /\ _gnutls_compression_get_comp_level 77 = -1
  /\ gnutls_compression_get_name 77 = None.
Proof.
  assert (Hout : forall p, In p _gnutls_compression_algorithms -> comp_id p <> 77)
    by not_in_list.
  destruct (compression_accessors_agree 77) as (Hn & Hw & Hm & Hc & Hname).
  exact (conj Hout (conj (proj2 Hn Hout) (conj (proj2 Hw Hout) (conj (proj2 Hm Hout)
           (conj (proj2 Hc Hout) (proj2 Hname Hout)))))).
Defined.

(** X3 at the entry of DHE_RSA_AES_256_CBC_SHA. *)
Lemma suite_accessors_on_entry_witness :
  let q := GNUTLS_CIPHER_SUITE_ENTRY "GNUTLS_DHE_RSA_AES_256_CBC_SHA"
             GNUTLS_DHE_RSA_AES_256_CBC_SHA GNUTLS_CIPHER_AES_256_CBC
             GNUTLS_KX_DHE_RSA GNUTLS_MAC_SHA GNUTLS_SSL3 in
  In q cs_algorithms
  /\ _gnutls_cipher_suite_get_kx_algo (cs_id q) = GNUTLS_KX_DHE_RSA
  /\ _gnutls_cipher_suite_get_cipher_algo (cs_id q) = GNUTLS_CIPHER_AES_256_CBC
  /\ _gnutls_cipher_suite_get_mac_algo (cs_id q) = GNUTLS_MAC_SHA
  /\ _gnutls_cipher_suite_get_version (cs_id q) = GNUTLS_SSL3
  /\ _gnutls_cipher_suite_get_name (cs_id q) = Some "DHE_RSA_AES_256_CBC_SHA"
  /\ _gnutls_cipher_suite_is_ok (cs_id q) = 0.
Proof.
  intros q.
  assert (Hq : In q cs_algorithms) by (unfold q; find_in_list).
  exact (conj Hq (suite_accessors_on_entry q Hq)).
Defined.

(** X4 at the identifier (0x12, 0x34), which the
    table does not carry. *)
Lemma suite_unknown_identifier_witness :
  ~ In (0x12, 0x34) (map cs_id cs_algorithms)
  /\ _gnutls_cipher_suite_is_ok (0x12, 0x34) = 1
  /\ _gnutls_cipher_suite_get_kx_algo (0x12, 0x34) = 0
  /\ _gnutls_cipher_suite_get_name (0x12, 0x34) = None.
Proof.
  assert (Hno : ~ In (0x12, 0x34) (map cs_id cs_algorithms)).
  { intros Hin. simpl in Hin.
    repeat (destruct Hin as [Hin|Hin]; [discriminate|]). destruct Hin. }
  destruct (proj2 (suite_unknown_identifier (0x12, 0x34)) Hno)
    as (Hok & Hkx & _ & _ & _ & Hname).
  exact (conj Hno (conj Hok (conj Hkx Hname))).
Defined.

(** X5 at the name of DHE_RSA_AES_256_CBC_SHA. *)
Lemma suite_name_identifies_suite_witness :
  _gnutls_cipher_suite_get_name GNUTLS_DHE_RSA_AES_256_CBC_SHA
  = Some "DHE_RSA_AES_256_CBC_SHA"
  /\ _gnutls_cipher_suite_get_name (0x00, 0x39) = Some "DHE_RSA_AES_256_CBC_SHA"
  /\ GNUTLS_DHE_RSA_AES_256_CBC_SHA = (0x00, 0x39).
Proof.
  assert (H1 : _gnutls_cipher_suite_get_name GNUTLS_DHE_RSA_AES_256_CBC_SHA
               = Some "DHE_RSA_AES_256_CBC_SHA") by (vm_compute; reflexivity).
  assert (H2 : _gnutls_cipher_suite_get_name (0x00, 0x39)
               = Some "DHE_RSA_AES_256_CBC_SHA") by (vm_compute; reflexivity).
  exact (conj H1 (conj H2
           (suite_name_identifies_suite GNUTLS_DHE_RSA_AES_256_CBC_SHA (0x00, 0x39)
              "DHE_RSA_AES_256_CBC_SHA" H1 H2))).
Defined.

(** X6 at the wire number 1 (zlib) and at 9, which
    no entry carries. *)
Lemma compression_id_roundtrip_witness :
  GNUTLS_COMP_NULL <> GNUTLS_COMP_ZLIB
  /\ (exists p, In p _gnutls_compression_algorithms /\ comp_num p = 1)
  /\ _gnutls_compression_get_num (_gnutls_compression_get_id 1) = 1
  /\ (forall p, In p _gnutls_compression_algorithms -> comp_num p <> 9)
  /\ _gnutls_compression_get_id 9 = -1.
Proof.
  assert (Hne : GNUTLS_COMP_NULL <> GNUTLS_COMP_ZLIB) by (simpl; discriminate).
  assert (Hin : exists p, In p _gnutls_compression_algorithms /\ comp_num p = 1).
  { eexists. split; [right; left; reflexivity|reflexivity]. }
  assert (Hout : forall p, In p _gnutls_compression_algorithms -> comp_num p <> 9)
    by not_in_list.
  exact (conj Hne (conj Hin
           (conj (proj1 (compression_id_roundtrip 1) Hne Hin)
              (conj Hout (proj2 (compression_id_roundtrip 9) Hout))))).
Defined.

(** X8 at TLS 1.0, at the numbers 3.0, at the
    unknown version 77 and at the unknown numbers 2.0. *)
Lemma version_numbers_roundtrip_witness :
  (exists p, In p sup_versions /\ version_id p = GNUTLS_TLS1)
  /\ _gnutls_version_get (_gnutls_version_get_major GNUTLS_TLS1)
       (_gnutls_version_get_minor GNUTLS_TLS1) = GNUTLS_TLS1
  /\ GNUTLS_SSL3 <> GNUTLS_TLS1
  /\ (exists p, In p sup_versions /\ major p = 3 /\ minor p = 0)
  /\ (_gnutls_version_get_major (_gnutls_version_get 3 0) = 3
      /\ _gnutls_version_get_minor (_gnutls_version_get 3 0) = 0)
  /\ (forall p, In p sup_versions -> version_id p <> 77)
  /\ (_gnutls_version_get_major 77 = -1
      /\ _gnutls_version_get_minor 77 = -1
      /\ gnutls_protocol_get_name 77 = None)
  /\ (forall p, In p sup_versions -> ~ (major p = 2 /\ minor p = 0))
  /\ _gnutls_version_get 2 0 = -1.
Proof.
  destruct version_numbers_roundtrip as (Hback & Hforth & Hunknown & Hnumbers).
  assert (Hin : exists p, In p sup_versions /\ version_id p = GNUTLS_TLS1).
  { eexists. split; [right; left; reflexivity|reflexivity]. }
  assert (Hne : GNUTLS_SSL3 <> GNUTLS_TLS1) by (simpl; discriminate).
  assert (Hin' : exists p, In p sup_versions /\ major p = 3 /\ minor p = 0).
  { eexists. split; [left; reflexivity|split; reflexivity]. }
  assert (Hout : forall p, In p sup_versions -> version_id p <> 77) by not_in_list.
  assert (Hout' : forall p, In p sup_versions -> ~ (major p = 2 /\ minor p = 0))
    by not_in_list.
  exact (conj Hin (conj (Hback _ Hin) (conj Hne (conj Hin'
           (conj (Hforth Hne 3 0 Hin') (conj Hout (conj (Hunknown 77 Hout)
              (conj Hout' (Hnumbers 2 0 Hout'))))))))).
Defined.

(** X9 at the priority list [TLS 1.0, SSL 3.0]. *)
Lemma version_is_supported_iff_witness :
  (forall l, Some [GNUTLS_TLS1; GNUTLS_SSL3] = Some l -> Z.of_nat (length l) <= 2 ^ 31)
  /\ _gnutls_version_is_supported (Some [GNUTLS_TLS1; GNUTLS_SSL3]) GNUTLS_TLS1 = 1.
Proof.
  assert (Hlen : forall l, Some [GNUTLS_TLS1; GNUTLS_SSL3] = Some l ->
                   Z.of_nat (length l) <= 2 ^ 31).
  { intros l Hl. injection Hl as <-. vm_compute. discriminate. }
  split; [exact Hlen|].
  apply (proj2 (proj1 (version_is_supported_iff
                         (Some [GNUTLS_TLS1; GNUTLS_SSL3]) GNUTLS_TLS1 Hlen))).
  split; [right; reflexivity|].
  exists [GNUTLS_TLS1; GNUTLS_SSL3]. split; [reflexivity|left; reflexivity].
Defined.

(** X10 at the priority list [TLS 1.0, SSL 3.0]. *)
Lemma version_lowest_and_max_witness :
  let l := [GNUTLS_TLS1; GNUTLS_SSL3] in
  (forall x, In x l -> 0 <= x < 2 ^ 31)
  /\ (exists x, In x l /\ x < 0xff)
  /\ (In (_gnutls_version_lowest (Some l)) l
      /\ forall x, In x l -> _gnutls_version_lowest (Some l) <= x)
  /\ (exists x, In x l /\ 0 < x)
  /\ (In (_gnutls_version_max (Some l)) l
      /\ forall x, In x l -> x <= _gnutls_version_max (Some l)).
Proof.
  intros l.
  assert (Hrange : forall x, In x l -> 0 <= x < 2 ^ 31).
  { intros x [<-|[<-|[]]]; vm_compute; split; congruence. }
  destruct (version_lowest_and_max l Hrange) as (_ & _ & _ & Hlow & _ & Hmax).
  assert (H1 : exists x, In x l /\ x < 0xff).
  { exists GNUTLS_SSL3. split; [right; left; reflexivity|reflexivity]. }
  assert (H2 : exists x, In x l /\ 0 < x).
  { exists GNUTLS_SSL3. split; [right; left; reflexivity|reflexivity]. }
  exact (conj Hrange (conj H1 (conj (Hlow H1) (conj H2 (Hmax H2))))).
Defined.

(** X11 at [session_scenario] and the priority
    list [TLS 1.0, SSL 3.0]. *)
Lemma version_and_compression_rank_witness :
  let session := session_scenario in
  let l := [GNUTLS_TLS1; GNUTLS_SSL3] in
  Z.of_nat (length l) <= 2 ^ 31
  /\ is_rank_of l GNUTLS_SSL3 (_gnutls_version_priority (Some l) GNUTLS_SSL3)
  /\ Z.of_nat (length (compression_method_priority session)) <= 2 ^ 31
  /\ is_rank_of (compression_method_priority session) GNUTLS_COMP_ZLIB
       (_gnutls_compression_priority session GNUTLS_COMP_ZLIB).
Proof.
  intros session l.
  assert (H1 : Z.of_nat (length l) <= 2 ^ 31) by (vm_compute; discriminate).
  assert (H2 : Z.of_nat (length (compression_method_priority session)) <= 2 ^ 31)
    by (vm_compute; discriminate).
  exact (conj H1
           (conj (proj1 (proj2 (version_and_compression_rank session l GNUTLS_SSL3)) H1)
              (conj H2
                 (proj2 (proj2 (version_and_compression_rank session l
                                  GNUTLS_COMP_ZLIB)) H2)))).
Defined.

(** X13 at the anonymous key exchange, which has
    no certificate. *)
Lemma pk_and_encipher_type_agree_witness :
  GNUTLS_PK_RSA <> -1 /\ GNUTLS_PK_DSA <> -1
  /\ CIPHER_ENCRYPT <> CIPHER_IGN /\ CIPHER_SIGN <> CIPHER_IGN
  /\ CIPHER_ENCRYPT <> CIPHER_SIGN
  /\ _gnutls_map_pk_get_pk GNUTLS_KX_ANON_DH = -1
  /\ _gnutls_kx_encipher_type GNUTLS_KX_ANON_DH = CIPHER_IGN.
Proof.
  assert (H1 : GNUTLS_PK_RSA <> -1) by (simpl; discriminate).
  assert (H2 : GNUTLS_PK_DSA <> -1) by (simpl; discriminate).
  assert (H3 : CIPHER_ENCRYPT <> CIPHER_IGN) by (simpl; discriminate).
  assert (H4 : CIPHER_SIGN <> CIPHER_IGN) by (simpl; discriminate).
  assert (H5 : CIPHER_ENCRYPT <> CIPHER_SIGN) by (simpl; discriminate).
  assert (Hpk : _gnutls_map_pk_get_pk GNUTLS_KX_ANON_DH = -1)
    by (vm_compute; reflexivity).
  exact (conj H1 (conj H2 (conj H3 (conj H4 (conj H5 (conj Hpk
           (proj1 (proj1 (pk_and_encipher_type_agree GNUTLS_KX_ANON_DH
                            H1 H2 H3 H4 H5)) Hpk))))))).
Defined.

(** X14 at RSA, which the table carries. *)
Lemma kx_accessors_agree_witness :
  0 <= GNUTLS_KX_RSA
  /\ _gnutls_kx_is_ok GNUTLS_KX_RSA = 0
  /\ _gnutls_kx_auth_struct GNUTLS_KX_RSA <> None.
Proof.
  assert (Hpos : 0 <= GNUTLS_KX_RSA) by (vm_compute; discriminate).
  assert (Hok : _gnutls_kx_is_ok GNUTLS_KX_RSA = 0) by (vm_compute; reflexivity).
  exact (conj Hpos (conj Hok
           (proj1 (proj2 (proj2 (kx_accessors_agree GNUTLS_KX_RSA)) Hpos) Hok))).
Defined.

(** X15 at the certificate credentials. *)
Lemma map_kx_cred_roundtrip_witness :
  List.NoDup [0; GNUTLS_KX_ANON_DH; GNUTLS_KX_RSA; GNUTLS_KX_RSA_EXPORT;
              GNUTLS_KX_DHE_DSS; GNUTLS_KX_DHE_RSA; GNUTLS_KX_SRP;
              GNUTLS_KX_SRP_RSA; GNUTLS_KX_SRP_DSS]
  /\ _gnutls_map_kx_get_cred (_gnutls_map_kx_get_kx GNUTLS_CRD_CERTIFICATE 0) 1
     = GNUTLS_CRD_CERTIFICATE.
Proof.
  assert (Hd : List.NoDup [0; GNUTLS_KX_ANON_DH; GNUTLS_KX_RSA; GNUTLS_KX_RSA_EXPORT;
                           GNUTLS_KX_DHE_DSS; GNUTLS_KX_DHE_RSA; GNUTLS_KX_SRP;
                           GNUTLS_KX_SRP_RSA; GNUTLS_KX_SRP_DSS]).
  { apply NoDup_ListNoDup. apply (bool_decide_unpack _). vm_compute. reflexivity. }
  split; [exact Hd|].
  apply (map_kx_cred_roundtrip Hd GNUTLS_CRD_CERTIFICATE 0 1).
  right. left. reflexivity.
Defined.

(** X16 at the entry of SRP_SHA_RSA_3DES_EDE_CBC_SHA
    and the server role. *)
Lemma suite_algorithms_are_known_witness :
  let q := GNUTLS_CIPHER_SUITE_ENTRY "GNUTLS_SRP_SHA_RSA_3DES_EDE_CBC_SHA"
             GNUTLS_SRP_SHA_RSA_3DES_EDE_CBC_SHA GNUTLS_CIPHER_3DES_CBC
             GNUTLS_KX_SRP_RSA GNUTLS_MAC_SHA GNUTLS_TLS1 in
  List.NoDup [0; GNUTLS_KX_ANON_DH; GNUTLS_KX_RSA; GNUTLS_KX_RSA_EXPORT;
              GNUTLS_KX_DHE_DSS; GNUTLS_KX_DHE_RSA; GNUTLS_KX_SRP;
              GNUTLS_KX_SRP_RSA; GNUTLS_KX_SRP_DSS]
  /\ In q cs_algorithms
  /\ In (_gnutls_map_kx_get_cred (kx_algorithm q) 1)
       [GNUTLS_CRD_ANON; GNUTLS_CRD_CERTIFICATE; GNUTLS_CRD_SRP]
  /\ _gnutls_map_kx_get_cred (kx_algorithm q) 0 = GNUTLS_CRD_SRP
  /\ _gnutls_map_kx_get_cred (kx_algorithm q) 1 = GNUTLS_CRD_CERTIFICATE
  /\ 1 <= _gnutls_cipher_get_block_size (block_algorithm q).
Proof.
  intros q.
  assert (Hd : List.NoDup [0; GNUTLS_KX_ANON_DH; GNUTLS_KX_RSA; GNUTLS_KX_RSA_EXPORT;
                           GNUTLS_KX_DHE_DSS; GNUTLS_KX_DHE_RSA; GNUTLS_KX_SRP;
                           GNUTLS_KX_SRP_RSA; GNUTLS_KX_SRP_DSS]).
  { apply NoDup_ListNoDup. apply (bool_decide_unpack _). vm_compute. reflexivity. }
  assert (Hq : In q cs_algorithms) by (unfold q; find_in_list).
  destruct (suite_algorithms_are_known Hd q 1 Hq) as (Hin & _ & Hsrp & Hblock).
  destruct (Hsrp (or_introl eq_refl)) as (Hclient & Hserver).
  assert (Hone : 1 <> 0) by discriminate.
  exact (conj Hd (conj Hq (conj Hin (conj Hclient (conj (Hserver Hone) Hblock))))).
Defined.


(** X18 at [session_scenario]. *)
Lemma supported_ciphersuites_no_duplicates_witness :
  let ciphers := [(0x00, 0x16); (0x00, 0x33); (0x00, 0x39);
                  (0x00, 0x0A); (0x00, 0x2F); (0x00, 0x35)] in
  _gnutls_supported_ciphersuites session_scenario = Success ciphers
  /\ List.NoDup ciphers /\ (1 <= length ciphers <= 31)%nat.
Proof.
  intros ciphers.
  assert (Hs : _gnutls_supported_ciphersuites session_scenario = Success ciphers)
    by (vm_compute; reflexivity).
  exact (conj Hs (supported_ciphersuites_no_duplicates session_scenario ciphers Hs)).
Defined.

(** X19 at [session_scenario] and the same
    session with private suites enabled. *)
Lemma supported_ciphersuites_monotone_witness :
  let session := session_scenario in
  let session' := {|
    kx_algorithm_priority := kx_algorithm_priority session;
    cipher_algorithm_priority := cipher_algorithm_priority session;
    mac_algorithm_priority := mac_algorithm_priority session;
    compression_method_priority := compression_method_priority session;
    enable_private := 1;
    protocol_version := protocol_version session |} in
  let ciphers := [(0x00, 0x16); (0x00, 0x33); (0x00, 0x39);
                  (0x00, 0x0A); (0x00, 0x2F); (0x00, 0x35)] in
  protocol_version session <= protocol_version session'
  /\ (enable_private session' = 0 -> enable_private session = 0)
  /\ _gnutls_supported_ciphersuites session = Success ciphers
  /\ exists ciphers',
       _gnutls_supported_ciphersuites session' = Success ciphers'
       /\ sublist ciphers ciphers'.
Proof.
  intros session session' ciphers.
  assert (Hv : protocol_version session <= protocol_version session')
    by (vm_compute; discriminate).
  assert (Hp : enable_private session' = 0 -> enable_private session = 0)
    by (intros _; reflexivity).
  assert (Hs : _gnutls_supported_ciphersuites session = Success ciphers)
    by (vm_compute; reflexivity).
  exact (conj Hv (conj Hp (conj Hs
           (supported_ciphersuites_monotone session session' ciphers
              eq_refl eq_refl eq_refl Hv Hp Hs)))).
Defined.

(** X20 at [session_scenario]. *)
Lemma equal_score_equal_algorithms_witness :
  let session := session_scenario in
  let a := GNUTLS_DHE_RSA_AES_256_CBC_SHA in
  Z.of_nat (length (kx_algorithm_priority session)) <= 2 ^ 31
  /\ (length (cipher_algorithm_priority session) <= 8)%nat
  /\ (length (mac_algorithm_priority session) <= 8)%nat
  /\ suite_acceptable session a
  /\ score session a = score session (0x00, 0x39)
  /\ _gnutls_cipher_suite_get_kx_algo a = _gnutls_cipher_suite_get_kx_algo (0x00, 0x39).
Proof.
  intros session a.
  assert (Hk : Z.of_nat (length (kx_algorithm_priority session)) <= 2 ^ 31)
    by (vm_compute; discriminate).
  assert (Hc : (length (cipher_algorithm_priority session) <= 8)%nat)
    by (vm_compute; lia).
  assert (Hm : (length (mac_algorithm_priority session) <= 8)%nat)
    by (vm_compute; lia).
  assert (Hacc : suite_acceptable session a).
  { unfold suite_acceptable. repeat split; vm_compute; congruence. }
  assert (Hscore : score session a = score session (0x00, 0x39)) by reflexivity.
  exact (conj Hk (conj Hc (conj Hm (conj Hacc (conj Hscore
           (proj1 (equal_score_equal_algorithms session a (0x00, 0x39)
                     Hk Hc Hm Hacc Hacc Hscore))))))).
Defined.

(** X21 at [session_scenario] with fuel
    64. *)
Lemma sorted_strictly_with_few_algorithms_witness :
  let session := session_scenario in
  let l := [GNUTLS_DHE_RSA_AES_256_CBC_SHA; GNUTLS_DHE_RSA_AES_128_CBC_SHA;
            GNUTLS_DHE_RSA_3DES_EDE_CBC_SHA; GNUTLS_RSA_AES_256_CBC_SHA;
            GNUTLS_RSA_AES_128_CBC_SHA; GNUTLS_RSA_3DES_EDE_CBC_SHA] in
  Z.of_nat (length (kx_algorithm_priority session)) <= 2 ^ 31
  /\ (length (cipher_algorithm_priority session) <= 8)%nat
  /\ (length (mac_algorithm_priority session) <= 8)%nat
  /\ List.NoDup (map (fun p => (kx_algorithm p, block_algorithm p, mac_algorithm p))
                   cs_algorithms)
  /\ (64 <= 64)%nat
  /\ _gnutls_supported_ciphersuites_sorted 64 session = Some (Success l)
  /\ (forall (i j : nat) (a b : GNUTLS_CipherSuite),
        (i < j)%nat -> l !! i = Some a -> l !! j = Some b ->
        score session a < score session b)
  /\ ties_in_table_order session l.
Proof.
  intros session l.
  assert (Hk : Z.of_nat (length (kx_algorithm_priority session)) <= 2 ^ 31)
    by (vm_compute; discriminate).
  assert (Hc : (length (cipher_algorithm_priority session) <= 8)%nat)
    by (vm_compute; lia).
  assert (Hm : (length (mac_algorithm_priority session) <= 8)%nat)
    by (vm_compute; lia).
  assert (Hd : List.NoDup
                 (map (fun p => (kx_algorithm p, block_algorithm p, mac_algorithm p))
                    cs_algorithms)).
  { apply NoDup_ListNoDup. apply (bool_decide_unpack _). vm_compute. reflexivity. }
  assert (Hf : (64 <= 64)%nat) by lia.
  assert (Hs : _gnutls_supported_ciphersuites_sorted 64 session = Some (Success l))
    by (vm_compute; reflexivity).
  exact (conj Hk (conj Hc (conj Hm (conj Hd (conj Hf (conj Hs
           (sorted_strictly_with_few_algorithms session 64 l Hk Hc Hm Hd Hf Hs))))))).
Defined.

(** X22 at [session_scenario] with fuel 64. *)
Lemma sorted_head_has_least_score_witness :
  let session := session_scenario in
  let c0 := GNUTLS_DHE_RSA_AES_256_CBC_SHA in
  let rest := [GNUTLS_DHE_RSA_AES_128_CBC_SHA;
               GNUTLS_DHE_RSA_3DES_EDE_CBC_SHA; GNUTLS_RSA_AES_256_CBC_SHA;
               GNUTLS_RSA_AES_128_CBC_SHA; GNUTLS_RSA_3DES_EDE_CBC_SHA] in
  (64 <= 64)%nat
  /\ _gnutls_supported_ciphersuites_sorted 64 session = Some (Success (c0 :: rest))
  /\ suite_acceptable session c0
  /\ forall c, In c (map cs_id cs_algorithms) -> suite_acceptable session c ->
       score session c0 <= score session c.
Proof.
  intros session c0 rest.
  assert (Hf : (64 <= 64)%nat) by lia.
  assert (Hs : _gnutls_supported_ciphersuites_sorted 64 session
               = Some (Success (c0 :: rest))) by (vm_compute; reflexivity).
  exact (conj Hf (conj Hs (sorted_head_has_least_score session 64 c0 rest Hf Hs))).
Defined.

(** X24 on six integers compared by value. *)
Lemma partition_splits_at_pivot_witness :
  let compar := fun a b : Z => if a >? b then 1 else if a =? b then 0 else -1 in
  let w := fun a : Z => a in
  let base := [5; 3; 8; 1; 9; 2] in
  (forall a b, (compar a b <=? 0) = (w a <=? w b))
  /\ (forall a b, (compar a b >=? 0) = (w a >=? w b))
  /\ length base = 6%nat /\ (1 <= 6)%nat /\ (2 * (6 - 1) <= 10)%nat
  /\ exists (base' : list Z) (pivot : nat),
       _gnutls_partition compar 10 base 6 = Some (base', pivot)
       /\ base' ≡ₚ base /\ length base' = 6%nat /\ (pivot < 6)%nat
       /\ (forall m, (m < pivot)%nat -> w (base' !!! m) <= w (base' !!! pivot))
       /\ (forall m, (pivot < m < 6)%nat -> w (base' !!! pivot) <= w (base' !!! m)).
Proof.
  intros compar w base.
  assert (H1 : (1 <= 6)%nat) by lia.
  assert (H2 : (2 * (6 - 1) <= 10)%nat) by (simpl; lia).
  exact (conj compare_sign_le (conj compare_sign_ge (conj eq_refl (conj H1 (conj H2
           (partition_splits_at_pivot compar w compare_sign_le compare_sign_ge
              10 base 6 eq_refl H1 H2)))))).
Defined.

(** X25 on six integers compared by value. *)
Lemma qsort_sorts_by_weight_witness :
  let compar := fun a b : Z => if a >? b then 1 else if a =? b then 0 else -1 in
  let w := fun a : Z => a in
  let base := [5; 3; 8; 1; 9; 2] in
  (forall a b, (compar a b <=? 0) = (w a <=? w b))
  /\ (forall a b, (compar a b >=? 0) = (w a >=? w b))
  /\ length base = 6%nat /\ (2 * 6 + 2 <= 14)%nat
  /\ exists sorted : list Z,
       _gnutls_qsort compar 14 base 6 = Some sorted
       /\ sorted ≡ₚ base
       /\ forall (i j : nat) (a b : Z),
            (i < j)%nat -> sorted !! i = Some a -> sorted !! j = Some b -> w a <= w b.
Proof.
  intros compar w base.
  assert (H1 : (2 * 6 + 2 <= 14)%nat) by (simpl; lia).
  exact (conj compare_sign_le (conj compare_sign_ge (conj eq_refl (conj H1
           (qsort_sorts_by_weight compar w compare_sign_le compare_sign_ge
              14 base 6 eq_refl H1))))).
Defined.

(** X26 on an ascending array with a tie. *)
Lemma qsort_keeps_ascending_array_witness :
  let compar := fun a b : Z => if a >? b then 1 else if a =? b then 0 else -1 in
  let w := fun a : Z => a in
  let base := [1; 2; 2; 3] in
  (forall a b, (compar a b <=? 0) = (w a <=? w b))
  /\ (forall a b, (compar a b >=? 0) = (w a >=? w b))
  /\ (2 * length base + 2 <= 10)%nat
  /\ ascending w base
  /\ _gnutls_qsort compar 10 base (length base) = Some base.
Proof.
  intros compar w base.
  assert (H1 : (2 * length base + 2 <= 10)%nat) by (simpl; lia).
  assert (Hasc : ascending w base).
  { unfold ascending, base, w. repeat constructor; lia. }
  exact (conj compare_sign_le (conj compare_sign_ge (conj H1 (conj Hasc
           (proj1 (qsort_keeps_ascending_array compar w compare_sign_le
                     compare_sign_ge 10 base H1) Hasc))))).
Defined.

(** X27 at [session_scenario]. *)
Lemma offered_compression_decodes_witness :
  let session := session_scenario in
  _gnutls_supported_compression_methods malloc_succeeds session = Success [0; 1]
  /\ (1 <= length [0; 1] <= length (compression_method_priority session))%nat
  /\ forall num, In num [0; 1] ->
       (num = 0 \/ num = 1)
       /\ In (_gnutls_compression_get_id num) (compression_method_priority session).
Proof.
  intros session.
  assert (Hs : _gnutls_supported_compression_methods malloc_succeeds session
               = Success [0; 1])
    by (vm_compute; reflexivity).
  exact (conj Hs (offered_compression_decodes malloc_succeeds session [0; 1] Hs)).
Defined.

End MoreWitnesses.
